(** * A weight-balanced 2d-tree over binary64 points

    Shallow embedding of [src/include/primitives.h] and [src/src/2dtree.cpp].

    Coordinates are C++ [double]s; they are modelled by Rocq's primitive
    binary64 floats, so every comparison, subtraction, product and square
    root below rounds exactly as IEEE 754 prescribes (no fused
    multiply-add, no extended precision).

    The owning pointers of the C++ node graph ([std::shared_ptr] children,
    exclusively owned) form a tree and are modelled by an inductive tree.
    The non-owning back-reference ([std::weak_ptr] parent) and the raw
    [Node *] cursors are modelled by node addresses: every node carries the
    address it was allocated at and (optionally) the address of its parent,
    and a raw pointer is dereferenced by looking its address up in the
    tree that owns the node. *)

From Stdlib Require Import ZArith List Bool Arith Lia Permutation Sorted.
From Stdlib Require Import Floats.
Import ListNotations.

Set Implicit Arguments.

(** ** Floating point constants and comparisons *)

Module Double.

Local Open Scope float_scope.

(** [std::numeric_limits<double>::epsilon()] *)
Definition EPS : float := 0x1p-52.

(** [std::numeric_limits<double>::max()] *)
Definition max_value : float := 0x1.fffffffffffffp+1023.

(** [a > b] and [a >= b] on doubles. *)
Definition gtb (a b : float) : bool := b <? a.
Definition geb (a b : float) : bool := b <=? a.

(** [std::min(a, b)] is [(b < a) ? b : a]; [std::max(a, b)] is
    [(a < b) ? b : a]. *)
Definition min (a b : float) : float := if b <? a then b else a.
Definition max (a b : float) : float := if a <? b then b else a.

(** Conversion of a [std::size_t] to [double]. *)
Definition of_size (n : nat) : float :=
  PrimFloat.of_uint63 (Uint63.of_Z (Z.of_nat n)).

End Double.

(** ** Point *)

Record Point : Type := mkPoint { m_x : float; m_y : float }.

Inductive Quadrant : Type := First | Second | Third | Fourth.

Module PointOps.

Import Double.
Local Open Scope float_scope.

Definition sqr (x : float) : float := x * x.

Definition distance (p other : Point) : float :=
  PrimFloat.sqrt (sqr (m_x p - m_x other) + sqr (m_y p - m_y other)).

Definition in_quad (p other : Point) (quad : Quadrant) : bool :=
  match quad with
  | First => gtb (m_x other) (m_x p - EPS) && gtb (m_y other) (m_y p - EPS)
  | Second => (m_x other <? m_x p + EPS) && gtb (m_y other) (m_y p - EPS)
  | Third => (m_x other <? m_x p + EPS) && (m_y other <? m_y p + EPS)
  | Fourth => gtb (m_x other) (m_x p - EPS) && (m_y other <? m_y p + EPS)
  end.

(** [operator==]: epsilon-tolerant on both coordinates. *)
Definition eqb (p other : Point) : bool :=
  (abs (m_x p - m_x other) <? EPS) && (abs (m_y p - m_y other) <? EPS).

(** [operator<]: lexicographic, with the epsilon tolerance on [x]. *)
Definition ltb (p other : Point) : bool :=
  (m_x p <? m_x other)
  || ((abs (m_x p - m_x other) <? EPS) && (m_y p <? m_y other)).

(** [operator!=]. *)
Definition neqb (p other : Point) : bool := negb (eqb p other).

(** [operator>]. *)
Definition gtb (p other : Point) : bool :=
  Double.gtb (m_x p) (m_x other)
  || ((abs (m_x p - m_x other) <? EPS) && Double.gtb (m_y p) (m_y other)).

(** [operator<=] and [operator>=]. *)
Definition leb (p other : Point) : bool := ltb p other || eqb p other.
Definition geb (p other : Point) : bool := gtb p other || eqb p other.

End PointOps.

(** ** Rect *)

Record Rect : Type := mkRect { m_left_bottom : Point; m_right_top : Point }.

Module RectOps.

Import Double.
Local Open Scope float_scope.

Definition xmin (r : Rect) : float := m_x (m_left_bottom r).
Definition ymin (r : Rect) : float := m_y (m_left_bottom r).
Definition xmax (r : Rect) : float := m_x (m_right_top r).
Definition ymax (r : Rect) : float := m_y (m_right_top r).

Definition contains (r : Rect) (point : Point) : bool :=
  PointOps.in_quad (m_left_bottom r) point First
  && PointOps.in_quad (m_right_top r) point Third.

Definition distance (r : Rect) (point : Point) : float :=
  if contains r point then 0
  else if PointOps.in_quad (m_right_top r) point First then
    PointOps.distance (m_right_top r) point
  else if PointOps.in_quad (m_left_bottom r) point Third then
    PointOps.distance (m_left_bottom r) point
  else if PointOps.in_quad (m_right_top r) point Fourth then
    (if gtb (m_y point) (ymin r)
     then m_x point - xmax r
     else PointOps.distance point (mkPoint (xmax r) (ymin r)))
  else if PointOps.in_quad (m_left_bottom r) point Second then
    (if gtb (m_y point) (ymin r)
     then xmin r - m_x point
     else PointOps.distance point (mkPoint (xmin r) (ymax r)))
  else
    (if gtb (m_y point) (ymax r)
     then m_y point - ymax r
     else ymin r - m_y point).

(** [r.intersects(other)]: exact comparisons, no tolerance. *)
Definition intersects (r other : Rect) : bool :=
  negb (gtb (ymin other) (ymax r)
        || (ymax other <? ymin r)
        || gtb (xmin other) (xmax r)
        || (xmax other <? xmin r)).

(** The precondition of section 7 of the specification: [left_bottom]
    does not exceed [right_top] componentwise. *)
Definition well_formed (r : Rect) : bool :=
  (xmin r <=? xmax r) && (ymin r <=? ymax r).

End RectOps.

(** ** The kd-tree point set *)

Module kdtree.

Import Double.

(** *** Nodes *)

(** An allocation address; [NodePtr] is a raw [Node *], null or not. *)
Definition addr : Type := nat.
Definition NodePtr : Type := option addr.

(** The fields of a [Node] other than its two owning child pointers.
    [self] is the address the node lives at, [parent] the [weak_ptr]
    back-reference ([None] when empty). *)
Record NodeData : Type := mkNodeData {
  self : addr;
  point : Point;
  rect : Rect;
  size : nat;
  parent : option addr
}.

(** A [std::shared_ptr<Node>]: null, or a node with its two children. *)
Inductive tree : Type :=
| Null : tree
| Node (d : NodeData) (l r : tree) : tree.

(** [Node::Node(const Point &)], allocated at address [a]. *)
Definition new_data (a : addr) (pt : Point) : NodeData :=
  mkNodeData a pt (mkRect pt pt) 1 None.

Definition new_node (a : addr) (pt : Point) : tree :=
  Node (new_data a pt) Null Null.

Definition set_parent (d : NodeData) (p : option addr) : NodeData :=
  mkNodeData (self d) (point d) (rect d) (size d) p.

Definition set_parent_of (t : tree) (p : option addr) : tree :=
  match t with
  | Null => Null
  | Node d l r => Node (set_parent d p) l r
  end.

Definition update_rect_by (rc : Rect) (node : tree) : Rect :=
  match node with
  | Null => rc
  | Node d _ _ =>
      mkRect (mkPoint (min (RectOps.xmin rc) (RectOps.xmin (rect d)))
                      (min (RectOps.ymin rc) (RectOps.ymin (rect d))))
             (mkPoint (max (RectOps.xmax rc) (RectOps.xmax (rect d)))
                      (max (RectOps.ymax rc) (RectOps.ymax (rect d))))
  end.

Definition get_size (node : tree) : nat :=
  match node with
  | Null => 0
  | Node d _ _ => size d
  end.

(** [Node::update_data], for a node with fields [d] and children [l], [r]. *)
Definition update_data (d : NodeData) (l r : tree) : NodeData :=
  let sz := 1 + get_size l + get_size r in
  let rc := mkRect (point d) (point d) in
  match l, r with
  | Null, Null => mkNodeData (self d) (point d) rc sz (parent d)
  | _, _ =>
      mkNodeData (self d) (point d)
                 (update_rect_by (update_rect_by rc l) r) sz (parent d)
  end.

(** *** Parent links *)

(** [t->parent = p; set_parents(t)] for a non-null [t]; nothing for null. *)
Fixpoint adopt (p : addr) (t : tree) : tree :=
  match t with
  | Null => Null
  | Node d l r =>
      Node (set_parent d (Some p)) (adopt (self d) l) (adopt (self d) r)
  end.

(** [set_parents(node)]; [None] is the dereference of a null [node]. *)
Definition set_parents (node : tree) : option tree :=
  match node with
  | Null => None
  | Node d l r => Some (Node d (adopt (self d) l) (adopt (self d) r))
  end.

(** *** Construction *)

Definition less (lhs rhs : Point) (check_x : bool) : bool :=
  if check_x then (m_x lhs <? m_x rhs)%float
  else (m_y lhs <? m_y rhs)%float.

Definition less_node (check_x : bool) (lhs rhs : NodeData) : bool :=
  less (point lhs) (point rhs) check_x.

(** [std::sort] with a comparator, as a stable insertion sort. *)
Fixpoint sort_insert {A : Type} (lt : A -> A -> bool) (a : A) (l : list A)
  : list A :=
  match l with
  | [] => [a]
  | b :: l' => if lt b a then b :: sort_insert lt a l' else a :: b :: l'
  end.

Fixpoint sort {A : Type} (lt : A -> A -> bool) (l : list A) : list A :=
  match l with
  | [] => []
  | a :: l' => sort_insert lt a (sort lt l')
  end.

(** The loop [while (median != begin && !less(median[-1], median[0]))
    --median]. *)
Fixpoint shift_median (check_x : bool) (d0 : NodeData) (l : list NodeData)
  (median : nat) : nat :=
  match median with
  | 0 => 0
  | S m' =>
      if less_node check_x (nth m' l d0) (nth median l d0)
      then median
      else shift_median check_x d0 l m'
  end.

(** [build_tree(begin, end, check_x)] over the vector [nodes]; the fuel
    bounds the recursion depth and [length nodes] always suffices. *)
Fixpoint build_tree_fuel (fuel : nat) (nodes : list NodeData) (check_x : bool)
  : tree :=
  match fuel with
  | 0 => Null
  | S fuel' =>
      match nodes with
      | [] => Null
      | d0 :: _ =>
          let sorted := sort (less_node check_x) nodes in
          let median := shift_median check_x d0 sorted (length sorted / 2) in
          let result := nth median sorted d0 in
          let l := build_tree_fuel fuel' (firstn median sorted)
                                   (negb check_x) in
          let r := build_tree_fuel fuel' (skipn (S median) sorted)
                                   (negb check_x) in
          Node (update_data result l r) l r
      end
  end.

Definition build_tree (nodes : list NodeData) (check_x : bool) : tree :=
  build_tree_fuel (length nodes) nodes check_x.

(** [std::set<Point>::emplace] under [Point::operator<], the set kept as
    its sorted sequence.  This is the contract of the container, which
    the library keeps where [Point::operator<] is a strict weak order on
    the points involved: points with finite coordinates whose [x]
    coordinates are equal or at least epsilon apart.  On other points
    the order is not asymmetric and the red-black tree of the library
    may keep another set than this scan; the statements below about the
    contents of a set read from a file carry the condition. *)
Fixpoint set_emplace (p : Point) (s : list Point) : list Point :=
  match s with
  | [] => [p]
  | q :: s' =>
      if PointOps.ltb p q then p :: q :: s'
      else if PointOps.ltb q p then q :: set_emplace p s'
      else q :: s'
  end.

Fixpoint make_nodes (a : addr) (points : list Point) : list NodeData :=
  match points with
  | [] => []
  | p :: points' => new_data a p :: make_nodes (S a) points'
  end.

(** The [std::set<Point>] after the loop over the file, for a file whose
    parsed coordinate pairs are [input] (under the condition stated at
    [set_emplace]). *)
Definition point_set (input : list Point) : list Point :=
  fold_left (fun s p => set_emplace p s) input [].

(** [PointSet(const std::string & filename)]. *)
Definition from_file (input : list Point) : option tree :=
  set_parents (build_tree (make_nodes 0 (point_set input)) true).

(** [Node::Node(const Node &)]: the copy lives at a new address; [size]
    and [parent] are not copied and keep their default values. *)
Fixpoint copy_node (base : addr) (node : tree) : tree :=
  match node with
  | Null => Null
  | Node d l r =>
      Node (mkNodeData (base + self d) (point d) (rect d) 1 None)
           (copy_node base l) (copy_node base r)
  end.

Fixpoint max_addr (t : tree) : addr :=
  match t with
  | Null => 0
  | Node d l r => Nat.max (self d) (Nat.max (max_addr l) (max_addr r))
  end.

(** An address no node of [t] lives at. *)
Definition fresh_addr (t : tree) : addr := S (max_addr t).

(** [PointSet(const PointSet & other)]. *)
Definition copy (other : tree) : option tree :=
  set_parents (copy_node (fresh_addr other) other).

(** *** Observers *)

Definition empty (m_root : tree) : bool :=
  match m_root with
  | Null => true
  | Node _ _ _ => false
  end.

Definition size_of (m_root : tree) : nat := get_size m_root.

Definition alpha : float := 0x1.4cccccccccccdp-1%float.

Definition balanced_at (d : NodeData) (l r : tree) : bool :=
  (of_size (get_size l) <=? alpha * of_size (size d))%float
  && (of_size (get_size r) <=? alpha * of_size (size d))%float.

(** [balanced(root)]; only ever called on a non-null [root]. *)
Definition balanced (root : tree) : bool :=
  match root with
  | Null => true
  | Node d l r => balanced_at d l r
  end.

(** [to_vector]: the nodes of the tree, left to right. *)
Fixpoint to_vector (root : tree) : list NodeData :=
  match root with
  | Null => []
  | Node d l r => to_vector l ++ d :: to_vector r
  end.

(** [move_to_vector]: the same sequence; the moved nodes keep their fields
    and lose both children. *)
Definition move_to_vector (root : tree) : list NodeData := to_vector root.

Definition rebuild_tree (root : tree) (check_x : bool) : tree :=
  build_tree (move_to_vector root) check_x.

(** *** Insertion *)

(** A [std::shared_ptr<Node> *]: the owning slot reached from [m_root] by
    the given turns ([true] is [->left], [false] is [->right]). *)
Definition slot : Type := list bool.

Definition enter (go_left : bool) (res : option (slot * bool))
  : option (slot * bool) :=
  match res with
  | None => None
  | Some (s, c) => Some (go_left :: s, c)
  end.

(** [insert(root, point, check_x)]: the new contents of the slot [root],
    and the pair [{broken, check_x}] with [broken] relative to [root]
    ([None] is [nullptr]).  A node created here lives at [fresh]. *)
Fixpoint insert (fresh : addr) (root : tree) (pt : Point) (check_x : bool)
  : tree * option (slot * bool) :=
  match root with
  | Null => (new_node fresh pt, None)
  | Node d l r =>
      if PointOps.eqb (point d) pt then (root, None)
      else if less pt (point d) check_x then
        let (to, res) := insert fresh l pt (negb check_x) in
        let to := set_parent_of to (Some (self d)) in
        let d' := update_data d to r in
        (Node d' to r,
         if balanced_at d' to r then enter true res else Some ([], check_x))
      else
        let (to, res) := insert fresh r pt (negb check_x) in
        let to := set_parent_of to (Some (self d)) in
        let d' := update_data d l to in
        (Node d' l to,
         if balanced_at d' l to then enter false res else Some ([], check_x))
  end.

(** Replace the contents [t] of the slot [s] below [root] by [f t]. *)
Fixpoint update_slot (root : tree) (s : slot) (f : tree -> option tree)
  {struct s} : option tree :=
  match s with
  | [] => f root
  | go_left :: s' =>
      match root with
      | Null => None
      | Node d l r =>
          if go_left
          then match update_slot l s' f with
               | None => None
               | Some l' => Some (Node d l' r)
               end
          else match update_slot r s' f with
               | None => None
               | Some r' => Some (Node d l r')
               end
      end
  end.

(** The body of [if (broken != nullptr) { ... }] in [put], on the
    contents of [*broken]. *)
Definition rebuild_slot (check_x : bool) (broken : tree) : option tree :=
  match broken with
  | Null => None
  | Node d _ _ =>
      match rebuild_tree broken check_x with
      | Null => None
      | Node d' l' r' => set_parents (Node (set_parent d' (parent d)) l' r')
      end
  end.

(** [put(point)]; [None] would be a null dereference. *)
Definition put (m_root : tree) (pt : Point) : option tree :=
  let (root, res) := insert (fresh_addr m_root) m_root pt true in
  match res with
  | None => Some root
  | Some (broken, check_x) => update_slot root broken (rebuild_slot check_x)
  end.

(** A sequence of [put] calls, first to last. *)
Fixpoint put_all (m_root : tree) (pts : list Point) : option tree :=
  match pts with
  | [] => Some m_root
  | p :: pts' =>
      match put m_root p with
      | None => None
      | Some m_root' => put_all m_root' pts'
      end
  end.

(** *** Queries *)

Fixpoint contains_from (current : tree) (pt : Point) (check_x : bool) : bool :=
  match current with
  | Null => false
  | Node d l r =>
      if PointOps.eqb (point d) pt then true
      else if less pt (point d) check_x
           then contains_from l pt (negb check_x)
           else contains_from r pt (negb check_x)
  end.

Definition contains (m_root : tree) (pt : Point) : bool :=
  contains_from m_root pt true.

(** [range(root, rect, result)]; [result] collects the nodes whose
    addresses are pushed. *)
Fixpoint range_rec (root : tree) (query : Rect) (result : list NodeData)
  : list NodeData :=
  match root with
  | Null => result
  | Node d l r =>
      if negb (RectOps.intersects (rect d) query) then result
      else
        let result :=
          if RectOps.contains query (point d) then result ++ [d] else result in
        let result :=
          match l with
          | Null => result
          | Node dl _ _ =>
              if RectOps.intersects (rect dl) query
              then range_rec l query result else result
          end in
        match r with
        | Null => result
        | Node dr _ _ =>
            if RectOps.intersects (rect dr) query
            then range_rec r query result else result
        end
  end.

(** [nearest(root, point, current_min, current_ans)]; the state is the
    pair of the two reference parameters, [current_ans] given by the node
    it points to. *)
Fixpoint nearest_rec (root : tree) (pt : Point)
  (st : float * option NodeData) : float * option NodeData :=
  match root with
  | Null => st
  | Node d l r =>
      if geb (RectOps.distance (rect d) pt) (fst st) then st
      else
        let st :=
          if (PointOps.distance pt (point d) <? fst st)%float
          then (PointOps.distance pt (point d), Some d)
          else st in
        nearest_rec r pt (nearest_rec l pt st)
  end.

(** [nearest(point)]: a [std::optional<Point>]. *)
Definition nearest (m_root : tree) (pt : Point) : option Point :=
  match snd (nearest_rec m_root pt (max_value, None)) with
  | None => None
  | Some d => Some (point d)
  end.

(** *** Cursors *)

(** The subtree rooted at the node that lives at [a]; [Null] when no node
    of [t] does. *)
Fixpoint find (t : tree) (a : addr) : tree :=
  match t with
  | Null => Null
  | Node d l r =>
      if Nat.eqb (self d) a then t
      else match find l a with
           | Null => find r a
           | Node _ _ _ as s => s
           end
  end.

(** [begin(root)]: the leftmost node. *)
Fixpoint begin_at (root : tree) : NodePtr :=
  match root with
  | Null => None
  | Node d l _ =>
      match l with
      | Null => Some (self d)
      | Node _ _ _ => begin_at l
      end
  end.

Fixpoint count (t : tree) : nat :=
  match t with
  | Null => 0
  | Node _ l r => S (count l + count r)
  end.

(** The loop [while (!ans->parent.expired()) { ... }] of [next], run for
    at most [fuel] turns.  The outer [None] is a failure (a pointer to no
    node, or the fuel spent); [Some None] is the returned null pointer. *)
Fixpoint ascend (fuel : nat) (m_root : tree) (ans : addr) : option NodePtr :=
  match fuel with
  | 0 => None
  | S fuel' =>
      match find m_root ans with
      | Null => None
      | Node d _ _ =>
          match parent d with
          | None => Some None
          | Some pa =>
              match find m_root pa with
              | Null => Some None
              | Node _ pl _ =>
                  match pl with
                  | Null => ascend fuel' m_root pa
                  | Node dl _ _ =>
                      if Nat.eqb (self dl) ans then Some (Some pa)
                      else ascend fuel' m_root pa
                  end
              end
          end
      end
  end.

(** [next(node)], for a node of the tree owned by [m_root]. *)
Definition next (m_root : tree) (node : NodePtr) : option NodePtr :=
  match node with
  | None => None
  | Some a =>
      match find m_root a with
      | Null => None
      | Node _ _ r =>
          match r with
          | Node _ _ _ => Some (begin_at r)
          | Null => ascend (S (count m_root)) m_root a
          end
      end
  end.

(** [iterator]: the variant over a list of node pointers (alternative 0)
    and a single node pointer (alternative 1). *)
Inductive iterator : Type :=
| list_it (points : list NodePtr)
| node_it (current : NodePtr).

(** [iterator()]: the variant default-constructs its first alternative. *)
Definition iterator_default : iterator := list_it [].

Definition ptr_eqb (a b : NodePtr) : bool :=
  match a, b with
  | None, None => true
  | Some x, Some y => Nat.eqb x y
  | _, _ => false
  end.

Fixpoint ptrs_eqb (a b : list NodePtr) : bool :=
  match a, b with
  | [], [] => true
  | x :: a', y :: b' => ptr_eqb x y && ptrs_eqb a' b'
  | _, _ => false
  end.

(** [operator==]: equality of the two variants. *)
Definition iterator_eqb (lhs rhs : iterator) : bool :=
  match lhs, rhs with
  | list_it a, list_it b => ptrs_eqb a b
  | node_it a, node_it b => ptr_eqb a b
  | _, _ => false
  end.

Definition deref_ptr (m_root : tree) (p : NodePtr) : option NodeData :=
  match p with
  | None => None
  | Some a =>
      match find m_root a with
      | Null => None
      | Node d _ _ => Some d
      end
  end.

(** [operator*]. *)
Definition deref (m_root : tree) (it : iterator) : option Point :=
  match it with
  | node_it p => option_map point (deref_ptr m_root p)
  | list_it l =>
      match rev l with
      | [] => None
      | p :: _ => option_map point (deref_ptr m_root p)
      end
  end.

(** [operator++]; [pop_back] on an empty vector is a failure. *)
Definition incr (m_root : tree) (it : iterator) : option iterator :=
  match it with
  | list_it l =>
      match l with
      | [] => None
      | _ :: _ => Some (list_it (removelast l))
      end
  | node_it p => option_map node_it (next m_root p)
  end.

Definition ptr_of (d : NodeData) : NodePtr := Some (self d).

(** [range(rect)]: the pair of cursors. *)
Definition range (m_root : tree) (query : Rect) : iterator * iterator :=
  (list_it (map ptr_of (range_rec m_root query [])), iterator_default).

(** [begin()] and [end()]. *)
Definition begin_ (m_root : tree) : iterator := node_it (begin_at m_root).
Definition end_ : iterator := node_it None.

(** The caller's loop [for (it = first; it != last; ++it)] that
    dereferences [it] at every turn: the points it sees, in order. *)
Fixpoint collect (fuel : nat) (m_root : tree) (it last : iterator)
  : option (list Point) :=
  match fuel with
  | 0 => None
  | S fuel' =>
      if iterator_eqb it last then Some []
      else
        match deref m_root it, incr m_root it with
        | Some p, Some it' =>
            match collect fuel' m_root it' last with
            | Some ps => Some (p :: ps)
            | None => None
            end
        | _, _ => None
        end
  end.

Definition points_of (m_root : tree) (pr : iterator * iterator)
  : option (list Point) :=
  collect (S (count m_root)) m_root (fst pr) (snd pr).

(** [++it], [n] times. *)
Fixpoint advance (m_root : tree) (n : nat) (it : iterator) : option iterator :=
  match n with
  | 0 => Some it
  | S n' =>
      match incr m_root it with
      | None => None
      | Some it' => advance m_root n' it'
      end
  end.

(** The full traversal [begin() .. end()]. *)
Definition traverse (m_root : tree) : option (list Point) :=
  points_of m_root (begin_ m_root, end_).

(** *** k nearest neighbours *)

Definition less_dist (pt : Point) (lhs rhs : NodeData) : bool :=
  (PointOps.distance pt (point lhs) <? PointOps.distance pt (point rhs))%float.

(** The heap of [nearest(point, k)].  [std::make_heap], [std::pop_heap]
    and [std::push_heap] promise one thing about the layout: the front is
    an element no other element exceeds.  The heap is kept here as the
    sequence sorted from the farthest to the closest node, which is such
    a layout. *)
Definition farther (pt : Point) (lhs rhs : NodeData) : bool :=
  less_dist pt rhs lhs.

Definition make_heap (pt : Point) (heap : list NodeData) : list NodeData :=
  sort (farther pt) heap.

(** [pop_heap; heap.back() = current; push_heap]. *)
Definition replace_front (pt : Point) (current : NodeData)
  (heap : list NodeData) : list NodeData :=
  match heap with
  | [] => []
  | _ :: rest => sort_insert (farther pt) current rest
  end.

(** The first loop: [heap[i] = current; current = next(current)], [k]
    times. *)
Fixpoint seed (k : nat) (m_root : tree) (current : NodePtr)
  (heap : list NodeData) : option (list NodeData * NodePtr) :=
  match k with
  | 0 => Some (heap, current)
  | S k' =>
      match deref_ptr m_root current, next m_root current with
      | Some d, Some nx => seed k' m_root nx (heap ++ [d])
      | _, _ => None
      end
  end.

(** The second loop: [for (; current != nullptr; current = next(current))]. *)
Fixpoint scan (fuel : nat) (m_root : tree) (pt : Point) (current : NodePtr)
  (heap : list NodeData) : option (list NodeData) :=
  match fuel with
  | 0 => None
  | S fuel' =>
      match current with
      | None => Some heap
      | Some _ =>
          match deref_ptr m_root current, next m_root current, heap with
          | Some d, Some nx, front :: _ =>
              scan fuel' m_root pt nx
                   (if less_dist pt d front
                    then replace_front pt d heap else heap)
          | _, _, _ => None
          end
      end
  end.

(** [nearest(point, k)]. *)
Definition nearest_k (m_root : tree) (pt : Point) (k : nat)
  : option (iterator * iterator) :=
  if Nat.eqb k 0 then Some (iterator_default, iterator_default)
  else if size_of m_root <=? k then Some (begin_ m_root, end_)
  else
    match seed k m_root (begin_at m_root) [] with
    | None => None
    | Some (heap, current) =>
        match scan (S (count m_root)) m_root pt current (make_heap pt heap) with
        | None => None
        | Some heap' =>
            Some (list_it (map ptr_of heap'), iterator_default)
        end
    end.

End kdtree.

(** ** The baseline point set

    [rbtree::PointSet] keeps its points in a [std::set<Point>] ordered by
    [Point::operator<].  The set is modelled by its contract: the
    sequence of its elements in increasing order, into which [insert]
    puts a point unless an element equivalent to it is there, and in
    which [find] looks for the first element not below the point.  A
    [std::set<Point>::iterator] and a [const Point *] into the set are
    positions in that sequence, [end()] being the position past the last
    element. *)

Module rbtree.

Definition PointSet : Type := list Point.

Definition pos : Type := nat.

(** [iterator]: the variant over a vector of pointers to elements
    (alternative 0) and a set iterator (alternative 1). *)
Inductive iterator : Type :=
| vec_it (points : list pos)
| set_it (it : pos).

(** [iterator()]. *)
Definition iterator_default : iterator := vec_it [].

Fixpoint poss_eqb (a b : list pos) : bool :=
  match a, b with
  | [], [] => true
  | x :: a', y :: b' => Nat.eqb x y && poss_eqb a' b'
  | _, _ => false
  end.

(** [operator==] and [operator!=] of the cursors. *)
Definition iterator_eqb (lhs rhs : iterator) : bool :=
  match lhs, rhs with
  | vec_it a, vec_it b => poss_eqb a b
  | set_it a, set_it b => Nat.eqb a b
  | _, _ => false
  end.

Definition iterator_neqb (lhs rhs : iterator) : bool :=
  negb (iterator_eqb lhs rhs).

(** [operator*]; [back()] of an empty vector and [*end()] are failures. *)
Definition deref (m_set : PointSet) (it : iterator) : option Point :=
  match it with
  | set_it i => nth_error m_set i
  | vec_it l =>
      match rev l with
      | [] => None
      | i :: _ => nth_error m_set i
      end
  end.

(** [operator++]; [pop_back] on an empty vector and [++end()] are
    failures. *)
Definition incr (m_set : PointSet) (it : iterator) : option iterator :=
  match it with
  | vec_it l =>
      match l with
      | [] => None
      | _ :: _ => Some (vec_it (removelast l))
      end
  | set_it i => if i <? length m_set then Some (set_it (S i)) else None
  end.

(** [PointSet(const std::string & filename)]. *)
Definition from_file (input : list Point) : PointSet :=
  fold_left (fun s p => kdtree.set_emplace p s) input [].

Definition empty (m_set : PointSet) : bool :=
  match m_set with
  | [] => true
  | _ :: _ => false
  end.

Definition size (m_set : PointSet) : nat := length m_set.

(** [put]: [m_set.insert(p)]. *)
Definition put (m_set : PointSet) (p : Point) : PointSet :=
  kdtree.set_emplace p m_set.

Definition put_all (m_set : PointSet) (pts : list Point) : PointSet :=
  fold_left put pts m_set.

(** [m_set.find(p)]: the first element not below [p], unless [p] is below
    it; [None] is [end()]. *)
Fixpoint find (i : pos) (s : list Point) (p : Point) : option pos :=
  match s with
  | [] => None
  | q :: s' =>
      if PointOps.ltb q p then find (S i) s' p
      else if PointOps.ltb p q then None
      else Some i
  end.

Definition contains (m_set : PointSet) (p : Point) : bool :=
  match find 0 m_set p with
  | Some _ => true
  | None => false
  end.

Definition begin_ (m_set : PointSet) : iterator := set_it 0.
Definition end_ (m_set : PointSet) : iterator := set_it (length m_set).

(** The loop of [range]: the positions of the elements the rectangle
    contains, in the order of the set. *)
Fixpoint range_from (i : pos) (s : list Point) (rect : Rect) : list pos :=
  match s with
  | [] => []
  | point :: s' =>
      if RectOps.contains rect point
      then i :: range_from (S i) s' rect
      else range_from (S i) s' rect
  end.

Definition range (m_set : PointSet) (rect : Rect) : iterator * iterator :=
  (vec_it (range_from 0 m_set rect), iterator_default).

(** [std::min_element] from an element on: [smallest] moves to an element
    only if that element compares below it. *)
Fixpoint min_element (point : Point) (smallest : Point) (s : list Point)
  : Point :=
  match s with
  | [] => smallest
  | q :: s' =>
      min_element point
        (if (PointOps.distance point q
             <? PointOps.distance point smallest)%float
         then q else smallest)
        s'
  end.

(** [nearest(point)]. *)
Definition nearest (m_set : PointSet) (point : Point) : option Point :=
  match m_set with
  | [] => None
  | q :: s' => Some (min_element point q s')
  end.

(** The elements of the set with their positions. *)
Fixpoint elements (i : pos) (s : list Point) : list (pos * Point) :=
  match s with
  | [] => []
  | q :: s' => (i, q) :: elements (S i) s'
  end.

Definition less_dist (point : Point) (lhs rhs : pos * Point) : bool :=
  (PointOps.distance point (snd lhs)
   <? PointOps.distance point (snd rhs))%float.

(** The heap of [nearest(point, k)], kept as in [kdtree]: the sequence
    sorted from the farthest to the closest element. *)
Definition farther (point : Point) (lhs rhs : pos * Point) : bool :=
  less_dist point rhs lhs.

Definition make_heap (point : Point) (heap : list (pos * Point))
  : list (pos * Point) :=
  kdtree.sort (farther point) heap.

(** One turn of the second loop: [pop_heap; heap.back() = &*it;
    push_heap] if the element is closer than the front. *)
Definition offer (point : Point) (heap : list (pos * Point))
  (current : pos * Point) : list (pos * Point) :=
  match heap with
  | [] => heap
  | front :: rest =>
      if less_dist point current front
      then kdtree.sort_insert (farther point) current rest
      else heap
  end.

(** [nearest(point, k)]. *)
Definition nearest_k (m_set : PointSet) (point : Point) (k : nat)
  : iterator * iterator :=
  if Nat.eqb k 0 then (iterator_default, iterator_default)
  else if length m_set <=? k then (begin_ m_set, end_ m_set)
  else
    let heap := make_heap point (firstn k (elements 0 m_set)) in
    let heap := fold_left (offer point) (skipn k (elements 0 m_set)) heap in
    (vec_it (map fst heap), iterator_default).

(** The caller's loop [for (it = first; it != last; ++it)] that
    dereferences [it] at every turn. *)
Fixpoint collect (fuel : nat) (m_set : PointSet) (it last : iterator)
  : option (list Point) :=
  match fuel with
  | 0 => None
  | S fuel' =>
      if iterator_eqb it last then Some []
      else
        match deref m_set it, incr m_set it with
        | Some p, Some it' =>
            match collect fuel' m_set it' last with
            | Some ps => Some (p :: ps)
            | None => None
            end
        | _, _ => None
        end
  end.

Definition points_of (m_set : PointSet) (pr : iterator * iterator)
  : option (list Point) :=
  collect (S (length m_set)) m_set (fst pr) (snd pr).

End rbtree.
(** ** The order of binary64 values

    [rank] sends every value other than NaN to a triple of integers whose
    lexicographic order is the order [<] of the doubles: the sign class
    first, then the exponent, then the mantissa (both negated for negative
    values).  The two zeros share a rank. *)

Module FloatOrder.

Local Open Scope Z_scope.

Definition rank (f : spec_float) : Z * Z * Z :=
  match f with
  | S754_zero _ => (0, 0, 0)
  | S754_infinity true => (-2, 0, 0)
  | S754_infinity false => (2, 0, 0)
  | S754_nan => (0, 0, 0)
  | S754_finite true m e => (-1, - e, - Zpos m)
  | S754_finite false m e => (1, e, Zpos m)
  end.

Definition lex_lt (a b : Z * Z * Z) : Prop :=
  fst (fst a) < fst (fst b)
  \/ (fst (fst a) = fst (fst b)
      /\ (snd (fst a) < snd (fst b)
          \/ (snd (fst a) = snd (fst b) /\ snd a < snd b))).

Definition rk (x : float) : Z * Z * Z := rank (Prim2SF x).

Definition not_nan (x : float) : Prop := Prim2SF x <> S754_nan.

(** Neither NaN nor an infinity. *)
Definition finite (x : float) : Prop :=
  match Prim2SF x with
  | S754_zero _ | S754_finite _ _ _ => True
  | _ => False
  end.

(** [x == y] on doubles, as a proposition. *)
Definition feq (x y : float) : Prop := (x =? y)%float = true.

Definition point_ok (p : Point) : Prop := not_nan (m_x p) /\ not_nan (m_y p).

Definition point_finite (p : Point) : Prop := finite (m_x p) /\ finite (m_y p).

(** The same coordinates, up to the sign of a zero. *)
Definition same_point (p q : Point) : Prop :=
  feq (m_x p) (m_x q) /\ feq (m_y p) (m_y q).

Definition same_rect (r s : Rect) : Prop :=
  same_point (m_left_bottom r) (m_left_bottom s)
  /\ same_point (m_right_top r) (m_right_top s).

End FloatOrder.
(** ** Invariants of a point set *)

Module Inv.

Import kdtree.

(** What a node is, whatever its bookkeeping fields hold: its address and
    its point. *)
Definition ident (d : NodeData) : addr * Point := (self d, point d).

Definition idents (t : tree) : list (addr * Point) :=
  map ident (to_vector t).

(** The stored points and the addresses of their nodes, left to right. *)
Definition points (t : tree) : list Point := map point (to_vector t).
Definition addrs (t : tree) : list addr := map self (to_vector t).

(** Every node below a node at [p] (or below the root slot, for [None])
    names its parent in its [parent] field. *)
Fixpoint parents_ok (p : option addr) (t : tree) : Prop :=
  match t with
  | Null => True
  | Node d l r =>
      parent d = p
      /\ parents_ok (Some (self d)) l
      /\ parents_ok (Some (self d)) r
  end.

(** Nodes live at distinct addresses and the parent links are right. *)
Definition wf (t : tree) : Prop := NoDup (addrs t) /\ parents_ok None t.

Fixpoint sizes_ok (t : tree) : Prop :=
  match t with
  | Null => True
  | Node d l r =>
      size d = 1 + get_size l + get_size r /\ sizes_ok l /\ sizes_ok r
  end.

(** The contents of the slot [s] below [root]. *)
Fixpoint slot_at (root : tree) (s : slot) {struct s} : tree :=
  match s with
  | [] => root
  | go_left :: s' =>
      match root with
      | Null => Null
      | Node _ l r => slot_at (if go_left then l else r) s'
      end
  end.

(** A tree with a hole: the path from a subtree up to the root, nearest
    ancestor first.  [InL d r c] is the hole as the left child of the node
    [d], whose right child is [r]. *)
Inductive ctx : Type :=
| Top : ctx
| InL (d : NodeData) (r : tree) (c : ctx)
| InR (d : NodeData) (l : tree) (c : ctx).

Fixpoint plug (c : ctx) (t : tree) : tree :=
  match c with
  | Top => t
  | InL d r c' => plug c' (Node d t r)
  | InR d l c' => plug c' (Node d l t)
  end.

(** The nodes visited after the subtree in the hole. *)
Fixpoint after (c : ctx) : list NodeData :=
  match c with
  | Top => []
  | InL d r c' => d :: to_vector r ++ after c'
  | InR _ _ c' => after c'
  end.

Fixpoint before (c : ctx) : list NodeData :=
  match c with
  | Top => []
  | InL _ _ c' => before c'
  | InR d l c' => before c' ++ to_vector l ++ [d]
  end.

Fixpoint depth (c : ctx) : nat :=
  match c with
  | Top => 0
  | InL _ _ c' | InR _ _ c' => S (depth c')
  end.

(** The address of the node the hole hangs from. *)
Definition ctx_parent (c : ctx) : option addr :=
  match c with
  | Top => None
  | InL d _ _ | InR d _ _ => Some (self d)
  end.

(** The nearest ancestor the hole is in the left subtree of. *)
Fixpoint up (c : ctx) : NodePtr :=
  match c with
  | Top => None
  | InL d _ _ => Some (self d)
  | InR _ _ c' => up c'
  end.

(** The parent links of the nodes around the hole. *)
Fixpoint ctx_ok (c : ctx) : Prop :=
  match c with
  | Top => True
  | InL d r c' =>
      parent d = ctx_parent c' /\ parents_ok (Some (self d)) r /\ ctx_ok c'
  | InR d l c' =>
      parent d = ctx_parent c' /\ parents_ok (Some (self d)) l /\ ctx_ok c'
  end.

(** From the node [d] with children [l], [r] in the hole of [c], down to
    its leftmost descendant: the context, fields and right child of it. *)
Fixpoint descend (c : ctx) (d : NodeData) (l r : tree)
  : ctx * NodeData * tree :=
  match l with
  | Null => (c, d, r)
  | Node dl ll rl => descend (InL d r c) dl ll rl
  end.

(** From the subtree [t] in the hole of [c], up to the nearest ancestor
    that has it on its left: the context, fields and children of it. *)
Fixpoint climb (c : ctx) (t : tree) : option (ctx * NodeData * tree * tree) :=
  match c with
  | Top => None
  | InL d r c' => Some (c', d, t, r)
  | InR d l c' => climb c' (Node d l t)
  end.

(** The axis-aligned union of a node's point and its children's
    rectangles. *)
Definition bounding (pt : Point) (l r : tree) : Rect :=
  update_rect_by (update_rect_by (mkRect pt pt) l) r.

(** No coordinate of the rectangle is NaN. *)
Definition rect_defined (rc : Rect) : Prop :=
  FloatOrder.point_ok (m_left_bottom rc) /\ FloatOrder.point_ok (m_right_top rc).

(** [v] is a least, or a greatest, value of [xs], up to [==]. *)
Definition is_min (v : float) (xs : list float) : Prop :=
  (exists x, In x xs /\ FloatOrder.feq v x)
  /\ Forall (fun x => (x <? v)%float = false) xs.

Definition is_max (v : float) (xs : list float) : Prop :=
  (exists x, In x xs /\ FloatOrder.feq v x)
  /\ Forall (fun x => (v <? x)%float = false) xs.

(** [rc] is the bounding box of the points [pts]. *)
Definition is_bbox (rc : Rect) (pts : list Point) : Prop :=
  is_min (RectOps.xmin rc) (map m_x pts)
  /\ is_min (RectOps.ymin rc) (map m_y pts)
  /\ is_max (RectOps.xmax rc) (map m_x pts)
  /\ is_max (RectOps.ymax rc) (map m_y pts).

(** The rectangle of the root of a non-null subtree has no NaN. *)
Definition child_defined (t : tree) : Prop :=
  match t with
  | Null => True
  | Node d _ _ => rect_defined (rect d)
  end.

(** The rectangle of the root of a non-null subtree bounds its points. *)
Definition root_bbox (t : tree) : Prop :=
  match t with
  | Null => True
  | Node d _ _ => is_bbox (rect d) (points t)
  end.

(** Two subtrees a parent cannot tell apart by their rectangles. *)
Definition like_rect (t t' : tree) : Prop :=
  match t, t' with
  | Null, Null => True
  | Node d _ _, Node d' _ _ => FloatOrder.same_rect (rect d) (rect d')
  | _, _ => False
  end.

(** Every node's rectangle equals that union, coordinate by coordinate
    under [==] on doubles. *)
Fixpoint rects_ok (t : tree) : Prop :=
  match t with
  | Null => True
  | Node d l r =>
      FloatOrder.same_rect (rect d) (bounding (point d) l r)
      /\ rects_ok l /\ rects_ok r
  end.

(** The points left of a node compare less than its point on the node's
    axis, the points right of it do not; the axis alternates. *)
Fixpoint kd_ok (check_x : bool) (t : tree) : Prop :=
  match t with
  | Null => True
  | Node d l r =>
      Forall (fun q => less q (point d) check_x = true) (points l)
      /\ Forall (fun q => less q (point d) check_x = false) (points r)
      /\ kd_ok (negb check_x) l /\ kd_ok (negb check_x) r
  end.

(** The weight-balance bound at every node. *)
Fixpoint balanced_ok (t : tree) : Prop :=
  match t with
  | Null => True
  | Node d l r => balanced_at d l r = true /\ balanced_ok l /\ balanced_ok r
  end.

(** No coordinate of the node's point is NaN. *)
Definition node_ok (d : NodeData) : Prop := FloatOrder.point_ok (point d).

(** A sequence in which no element is below an earlier one. *)
Definition sorted_by {A : Type} (lt : A -> A -> bool) (l : list A) : Prop :=
  StronglySorted (fun a b => lt b a = false) l.

(** The axis at the slot [s] below a slot split on [check_x]. *)
Fixpoint axis_at (check_x : bool) (s : slot) : bool :=
  match s with
  | [] => check_x
  | _ :: s' => axis_at (negb check_x) s'
  end.

(** [p] and [q] have the same coordinates under [==] on doubles. *)
Definition same_pointb (p q : Point) : bool :=
  (m_x p =? m_x q)%float && (m_y p =? m_y q)%float.

(** The points of [pts] that have the coordinates of no earlier point of
    [pts] and of no point of [seen]. *)
Fixpoint first_occurrences (seen pts : list Point) : list Point :=
  match pts with
  | [] => []
  | p :: rest =>
      if existsb (same_pointb p) seen
      then first_occurrences (p :: seen) rest
      else p :: first_occurrences (p :: seen) rest
  end.

(** The number of distinct points of a sequence. *)
Definition distinct_count (pts : list Point) : nat :=
  length (first_occurrences [] pts).

(** Among the points of [pts], epsilon-equal points have the same
    coordinates. *)
Definition eps_means_same (pts : list Point) : Prop :=
  forall p q, In p pts -> In q pts ->
              PointOps.eqb p q = true -> FloatOrder.same_point p q.

(** The state of a run of puts of points of [U]: the set, and the points
    put so far.  Every stored point was put, and every point put has the
    coordinates of a stored one. *)
Definition run_ok (U : list Point) (ps : tree) (seen : list Point) : Prop :=
  sizes_ok ps /\ kd_ok true ps
  /\ incl seen U
  /\ incl (points ps) seen
  /\ (forall s, In s seen ->
                exists q, In q (points ps) /\ FloatOrder.same_point q s).

(** Every node but those of the subtree in the slot [s] is within the
    weight-balance bound. *)
Fixpoint balanced_outside (s : slot) (t : tree) {struct s} : Prop :=
  match s with
  | [] => True
  | go_left :: s' =>
      match t with
      | Null => True
      | Node d l r =>
          balanced_at d l r = true
          /\ (if go_left
              then balanced_outside s' l /\ balanced_ok r
              else balanced_ok l /\ balanced_outside s' r)
      end
  end.

(** [p] and [q] differ on both coordinates: on either axis one of them is
    below the other. *)
Definition comparable (p q : Point) : bool :=
  (less p q true || less q p true) && (less p q false || less q p false).

(** No two of the points share an [x] or a [y] coordinate. *)
Definition untied (pts : list Point) : Prop :=
  ForallOrdPairs (fun p q => comparable p q = true) pts.

(** The same, read through membership. *)
Definition loose (pts : list Point) : Prop :=
  NoDup pts
  /\ forall p q, In p pts -> In q pts -> p <> q -> comparable p q = true.

(** The balance test of [balanced], in double arithmetic, passes for both
    halves of every size from 1 to [N] that [build_tree] splits evenly. *)
Definition balance_table (N : nat) : bool :=
  forallb (fun n =>
             (Double.of_size (n / 2) <=? alpha * Double.of_size n)%float
             && (Double.of_size (n - S (n / 2))
                 <=? alpha * Double.of_size n)%float)
          (seq 1 N).

(** The same two comparisons for a node of [n] nodes, on integers. *)
Definition balance_test (n : Z) : bool :=
  (PrimFloat.of_uint63 (Uint63.of_Z (n / 2))
   <=? alpha * PrimFloat.of_uint63 (Uint63.of_Z n))%float
  && (PrimFloat.of_uint63 (Uint63.of_Z (n - (n / 2 + 1)))
      <=? alpha * PrimFloat.of_uint63 (Uint63.of_Z n))%float.

(** The comparisons for the sizes from 1 to [N], one after the other. *)
Definition balance_step (st : Z * bool) : Z * bool :=
  ((fst st + 1)%Z, snd st && balance_test (fst st)).

Definition balance_checked (N : positive) : bool :=
  snd (Pos.iter balance_step (1%Z, true) N).

(** The number of nodes up to which the balance test of [balanced] is
    evaluated below: 1048576. *)
Definition checked_sizes : positive := (2 ^ 20)%positive.

(** What holds of a pair of cursors whose first is list-backed: advanced
    past its last element it equals the second cursor of the pair and the
    default cursor, and differs from [end()]. *)
Definition exhausted_ok (ps : tree) (pr : iterator * iterator) : Prop :=
  match fst pr with
  | list_it l =>
      exists it,
        advance ps (length l) (fst pr) = Some it
        /\ iterator_eqb it (snd pr) = true
        /\ iterator_eqb it iterator_default = true
        /\ iterator_eqb it end_ = false
  | node_it _ => True
  end.

(** [p] lies within [q] under exact comparisons. *)
Definition inside (q : Rect) (p : Point) : bool :=
  (RectOps.xmin q <=? m_x p)%float && (m_x p <=? RectOps.xmax q)%float
  && (RectOps.ymin q <=? m_y p)%float && (m_y p <=? RectOps.ymax q)%float.

(** The cursor [cur] of the full traversal stands before the nodes
    [todo], which are those it has yet to visit, in order. *)
Definition at_cursor (ps : tree) (cur : NodePtr) (todo : list NodeData) : Prop :=
  match todo with
  | [] => cur = None
  | d :: rest =>
      exists c l r,
        plug c (Node d l r) = ps /\ cur = Some (self d)
        /\ rest = to_vector r ++ after c
  end.

(** What one turn of the second loop of [nearest(point, k)] does to the
    heap when the cursor stands on [d]. *)
Definition offer (pt : Point) (heap : list NodeData) (d : NodeData)
  : list NodeData :=
  match heap with
  | [] => heap
  | front :: _ =>
      if less_dist pt d front then replace_front pt d heap else heap
  end.

(** The distance of the node's point to [pt] is a number. *)
Definition dist_ok (pt : Point) (d : NodeData) : Prop :=
  FloatOrder.not_nan (PointOps.distance pt (point d)).

(** [Rect::distance] does not exceed the distance from [pt] to any point
    of the subtree whose rectangle it measures, at every node of [t]. *)
Fixpoint admissible (pt : Point) (t : tree) : Prop :=
  match t with
  | Null => True
  | Node d l r =>
      Forall (fun q => (PointOps.distance pt q
                        <? RectOps.distance (rect d) pt)%float = false)
             (points t)
      /\ admissible pt l /\ admissible pt r
  end.

(** The point sets the public interface can produce: the default
    constructor, the constructor from a file, the copy constructor, and
    [put]. *)
Inductive reachable : tree -> Prop :=
| reach_default : reachable Null
| reach_file (input : list Point) (ps : tree) :
    from_file input = Some ps -> reachable ps
| reach_copy (other ps : tree) :
    reachable other -> copy other = Some ps -> reachable ps
| reach_put (ps : tree) (pt : Point) (ps' : tree) :
    reachable ps -> put ps pt = Some ps' -> reachable ps'.

(** The point sets produced without the copy constructor. *)
Inductive built : tree -> Prop :=
| built_default : built Null
| built_file (input : list Point) (ps : tree) :
    from_file input = Some ps -> built ps
| built_put (ps : tree) (pt : Point) (ps' : tree) :
    built ps -> put ps pt = Some ps' -> built ps'.

End Inv.
(** ** Decision procedures for closed statements *)

Module Decide.

Definition float_same (a b : float) : bool := PrimFloat.Leibniz.eqb a b.

Definition point_same (p q : Point) : bool :=
  float_same (m_x p) (m_x q) && float_same (m_y p) (m_y q).

Section Lists.

Variable A : Type.
Variable same : A -> A -> bool.

Fixpoint mem (a : A) (l : list A) : bool :=
  match l with
  | [] => false
  | b :: l' => same a b || mem a l'
  end.

Fixpoint remove_one (a : A) (l : list A) : option (list A) :=
  match l with
  | [] => None
  | b :: l' =>
      if same a b then Some l'
      else match remove_one a l' with
           | None => None
           | Some l'' => Some (b :: l'')
           end
  end.

(** [l1] is a rearrangement of [l2]. *)
Fixpoint rearranged (l1 l2 : list A) : bool :=
  match l1 with
  | [] => match l2 with [] => true | _ :: _ => false end
  | a :: l1' =>
      match remove_one a l2 with
      | None => false
      | Some l2' => rearranged l1' l2'
      end
  end.

Fixpoint distinct (l : list A) : bool :=
  match l with
  | [] => true
  | a :: l' => negb (mem a l') && distinct l'
  end.

Definition subset (l1 l2 : list A) : bool :=
  forallb (fun a => mem a l2) l1.

End Lists.

Fixpoint insert_all {A : Type} (a : A) (l : list A) : list (list A) :=
  match l with
  | [] => [[a]]
  | b :: l' => (a :: l) :: map (cons b) (insert_all a l')
  end.

(** Every order of the elements of [l]. *)
Fixpoint perms {A : Type} (l : list A) : list (list A) :=
  match l with
  | [] => [[]]
  | a :: l' => flat_map (insert_all a) (perms l')
  end.

End Decide.
(** ** Invariants of the baseline set *)

Module Baseline.

Import FloatOrder.

(** The [x] coordinates of [p] and [q], if within epsilon of each other,
    are equal. *)
Definition x_separated (p q : Point) : Prop :=
  (abs (m_x p - m_x q) <? Double.EPS)%float = true -> feq (m_x p) (m_x q).

(** No two points of [U] have [x] coordinates that differ by less than
    epsilon without being equal. *)
Definition x_apart (U : list Point) : Prop :=
  forall p q, In p U -> In q U -> x_separated p q.

(** Neither point is below the other under [Point::operator<]. *)
Definition equivalent (p q : Point) : bool :=
  negb (PointOps.ltb p q) && negb (PointOps.ltb q p).

(** The elements grow under [Point::operator<]. *)
Definition increasing (s : list Point) : Prop :=
  StronglySorted (fun a b => PointOps.ltb a b = true) s.

(** A set of points of [U] whose elements grow. *)
Definition set_ok (U : list Point) (s : rbtree.PointSet) : Prop :=
  increasing s /\ incl s U.

(** The baseline sets the interface produces from points of [U]: the
    default constructor, the constructor from a file, and [put]. *)
Inductive set_built (U : list Point) : rbtree.PointSet -> Prop :=
| set_default : set_built U []
| set_file (input : list Point) :
    incl input U -> set_built U (rbtree.from_file input)
| set_put (s : rbtree.PointSet) (p : Point) :
    set_built U s -> In p U -> set_built U (rbtree.put s p).

(** The distance of [q] to [pt] is a number. *)
Definition near_ok (pt q : Point) : Prop :=
  not_nan (PointOps.distance pt q).

(** The state of a run of puts of points of [U] on a baseline set: the
    set, and the points put so far.  Every element was put, and every
    point put has the coordinates of an element. *)
Definition set_run_ok (U : list Point) (s : rbtree.PointSet)
  (seen : list Point) : Prop :=
  set_ok U s
  /\ incl seen U
  /\ incl s seen
  /\ (forall x, In x seen -> exists q, In q s /\ same_point q x).

End Baseline.
(** ** Concrete inputs used by the statements below *)

Module Inputs.

Import kdtree.

Definition pt (a b : float) : Point := mkPoint a b.

(** A point half an epsilon to the right of the query rectangle. *)
Definition near_edge : Point := pt 0x1p-53 0.
Definition unit_below : Rect := mkRect (pt (-1) (-1)) (pt 0 0).

(** Three points on one vertical line. *)
Definition collinear : list Point := [pt 0 0; pt 0 1; pt 0 2].

(** A point whose squared distance to the origin overflows. *)
Definition far_away : Point :=
  pt 0x1.4e718d7d7625ap+664 0x1.4e718d7d7625ap+664.
Definition origin : Point := pt 0 0.

(** Two epsilon-equal points on either side of the root's split. *)
Definition twin_right : Point := pt 0x1p-53 5.
Definition twin_left : Point := pt (-0x1p-54) 5.

(** A rectangle whose lower bound is a power of two, and a point level
    with its bottom edge. *)
Definition tall : Rect := mkRect (pt 2 2) (pt 3 5).
Definition level_left : Point := pt 0 2.

(** The scenario of section 8 of the specification. *)
Definition five : list Point := [pt 0 0; pt 1 1; pt 2 2; pt 0 2; pt 2 0].
Definition unit_square : Rect := mkRect (pt 0 0) (pt 1 1).
Definition nine_tenths : Point :=
  pt 0x1.ccccccccccccdp-1 0x1.ccccccccccccdp-1.

(** The set read from a file listing the five points. *)
Definition five_set : tree :=
  match from_file five with
  | Some ps => ps
  | None => Null
  end.

(** Five points no two of which share a coordinate, the set read from a
    file listing them, and that set after one more put. *)
Definition scattered : list Point :=
  [pt 0 0; pt 1 3; pt 2 1; pt 3 4; pt 4 2].

Definition scattered_set : tree :=
  match from_file scattered with
  | Some ps => ps
  | None => Null
  end.

Definition scattered_set' : tree :=
  match put scattered_set (pt 5 5) with
  | Some ps => ps
  | None => Null
  end.

(** The set of the five points after one more put. *)
Definition six_set : tree :=
  match put five_set (pt 1 2) with
  | Some ps => ps
  | None => Null
  end.

(** A run of puts in which points come back, once with the other zero. *)
Definition repeated : list Point :=
  [origin; pt 1 1; origin; pt 0 1; pt (-0) 1].

End Inputs.

(** ** The scenario of section 8, as a check on one point set *)

Module Scenario.

Import kdtree Inputs Decide.

Definition centre : Point := pt 1 1.

Definition sqrt2 : float := PrimFloat.sqrt 2.

Definition range_ok (ps : tree) : bool :=
  match points_of ps (range ps unit_square) with
  | Some inside => rearranged point_same inside [pt 0 0; pt 1 1]
  | None => false
  end.

Definition nearest_ok (ps : tree) : bool :=
  match nearest ps nine_tenths with
  | Some p => point_same p centre
  | None => false
  end.

Definition nearest_k_ok (ps : tree) : bool :=
  match nearest_k ps centre 3 with
  | Some pr =>
      match points_of ps pr with
      | Some res =>
          distinct point_same res
          && subset point_same res five
          && rearranged float_same (map (PointOps.distance centre) res)
                        [0%float; sqrt2; sqrt2]
      | None => false
      end
  | None => false
  end.

Definition scenario_ok (ps : tree) : bool :=
  range_ok ps && nearest_ok ps && nearest_k_ok ps.

Definition built_ok (built : option tree) : bool :=
  match built with
  | Some ps => scenario_ok ps
  | None => false
  end.

End Scenario.

Module ScenarioSpec.

Import kdtree Inputs Scenario.

(** What section 8 of the specification says of a set holding the five
    points. *)
Definition holds (ps : tree) : Prop :=
  (exists inside,
      points_of ps (range ps unit_square) = Some inside
      /\ Permutation inside [pt 0 0; pt 1 1])
  /\ nearest ps nine_tenths = Some centre
  /\ (exists pr res,
         nearest_k ps centre 3 = Some pr
         /\ points_of ps pr = Some res
         /\ NoDup res
         /\ incl res five
         /\ Permutation (map (PointOps.distance centre) res)
                        [0%float; sqrt2; sqrt2]).

End ScenarioSpec.
(** ** Comparisons of doubles through their ranks *)

Section FloatRank.

Import FloatOrder.
Local Open Scope Z_scope.

Ltac rank_cases :=
  repeat match goal with
  | |- context [Z.compare ?a ?b] => destruct (Z.compare_spec a b)
  | |- context [Pos.compare_cont Eq ?a ?b] =>
      change (Pos.compare_cont Eq a b) with (Pos.compare a b);
      destruct (Pos.compare_spec a b)
  end.

Lemma SFltb_rank (f1 f2 : spec_float) :
  f1 <> S754_nan -> f2 <> S754_nan ->
  SFltb f1 f2 = true <-> lex_lt (rank f1) (rank f2).
Proof.
  intros H1 H2. unfold SFltb, lex_lt.
  destruct f1 as [s1|s1| |s1 m1 e1], f2 as [s2|s2| |s2 m2 e2];
    try congruence;
    try destruct s1; try destruct s2; cbn [SFcompare rank fst snd CompOpp];
    rank_cases; cbn [CompOpp]; split; intros;
    try discriminate; try reflexivity; try lia.
Qed.

Lemma SFeqb_rank (f1 f2 : spec_float) :
  f1 <> S754_nan -> f2 <> S754_nan ->
  SFeqb f1 f2 = true <-> rank f1 = rank f2.
Proof.
  intros H1 H2. unfold SFeqb.
  destruct f1 as [s1|s1| |s1 m1 e1], f2 as [s2|s2| |s2 m2 e2];
    try congruence;
    try destruct s1; try destruct s2; cbn [SFcompare rank fst snd CompOpp];
    rank_cases; cbn [CompOpp];
    (split; intros HH;
     [ try discriminate; subst; try reflexivity
     | try reflexivity; inversion HH; try lia ]).
Qed.

Lemma SFleb_rank (f1 f2 : spec_float) :
  f1 <> S754_nan -> f2 <> S754_nan ->
  SFleb f1 f2 = true <-> ~ lex_lt (rank f2) (rank f1).
Proof.
  intros H1 H2. unfold SFleb, lex_lt.
  destruct f1 as [s1|s1| |s1 m1 e1], f2 as [s2|s2| |s2 m2 e2];
    try congruence;
    try destruct s1; try destruct s2; cbn [SFcompare rank fst snd CompOpp];
    rank_cases; cbn [CompOpp]; split; intros;
    try discriminate; try reflexivity; try lia.
Qed.

Lemma ltb_true_not_nan (x y : float) :
  (x <? y)%float = true -> not_nan x /\ not_nan y.
Proof.
  rewrite ltb_spec. unfold not_nan.
  destruct (Prim2SF x), (Prim2SF y); cbn; intros; split; congruence.
Qed.

Lemma ltb_rk (x y : float) :
  not_nan x -> not_nan y ->
  (x <? y)%float = true <-> lex_lt (rk x) (rk y).
Proof. intros. rewrite ltb_spec. now apply SFltb_rank. Qed.

Lemma ltb_false_rk (x y : float) :
  not_nan x -> not_nan y ->
  (x <? y)%float = false <-> ~ lex_lt (rk x) (rk y).
Proof.
  intros Hx Hy. rewrite <- (ltb_rk Hx Hy).
  destruct (x <? y)%float; split; intros; congruence.
Qed.

Lemma leb_rk (x y : float) :
  not_nan x -> not_nan y ->
  (x <=? y)%float = true <-> ~ lex_lt (rk y) (rk x).
Proof. intros. rewrite leb_spec. now apply SFleb_rank. Qed.

Lemma eqb_rk (x y : float) :
  not_nan x -> not_nan y -> feq x y <-> rk x = rk y.
Proof. intros. unfold feq. rewrite eqb_spec. now apply SFeqb_rank. Qed.

Lemma feq_not_nan (x y : float) : feq x y -> not_nan x /\ not_nan y.
Proof.
  unfold feq, not_nan. rewrite eqb_spec.
  destruct (Prim2SF x), (Prim2SF y); cbn; intros; split; congruence.
Qed.

Lemma finite_not_nan (x : float) : finite x -> not_nan x.
Proof.
  unfold finite, not_nan. destruct (Prim2SF x); intros; congruence || tauto.
Qed.

End FloatRank.

(** Turns the comparisons of doubles in the context and the goal into
    linear arithmetic over ranks.  Each compared value needs a [not_nan]
    hypothesis, unless a comparison that holds mentions it. *)
Ltac float_order :=
  repeat match goal with
  | H : (?x <? ?y)%float = true |- _ =>
      let Hx := fresh in let Hy := fresh in
      destruct (ltb_true_not_nan H) as [Hx Hy];
      apply (ltb_rk Hx Hy) in H
  | H : FloatOrder.feq ?x ?y |- _ =>
      let Hx := fresh in let Hy := fresh in
      destruct (feq_not_nan H) as [Hx Hy];
      apply (eqb_rk Hx Hy) in H
  end;
  repeat match goal with
  | H : (?x <? ?y)%float = false |- _ =>
      let Hx := fresh in let Hy := fresh in
      assert (Hx : FloatOrder.not_nan x) by assumption;
      assert (Hy : FloatOrder.not_nan y) by assumption;
      apply (ltb_false_rk Hx Hy) in H; clear Hx Hy
  | H : (?x <=? ?y)%float = true |- _ =>
      let Hx := fresh in let Hy := fresh in
      assert (Hx : FloatOrder.not_nan x) by assumption;
      assert (Hy : FloatOrder.not_nan y) by assumption;
      apply (leb_rk Hx Hy) in H; clear Hx Hy
  end;
  try match goal with
  | |- (?x <? ?y)%float = true =>
      let Hx := fresh in let Hy := fresh in
      assert (Hx : FloatOrder.not_nan x) by assumption;
      assert (Hy : FloatOrder.not_nan y) by assumption;
      apply (ltb_rk Hx Hy)
  | |- (?x <? ?y)%float = false =>
      let Hx := fresh in let Hy := fresh in
      assert (Hx : FloatOrder.not_nan x) by assumption;
      assert (Hy : FloatOrder.not_nan y) by assumption;
      apply (ltb_false_rk Hx Hy)
  | |- (?x <=? ?y)%float = true =>
      let Hx := fresh in let Hy := fresh in
      assert (Hx : FloatOrder.not_nan x) by assumption;
      assert (Hy : FloatOrder.not_nan y) by assumption;
      apply (leb_rk Hx Hy)
  | |- FloatOrder.feq ?x ?y =>
      let Hx := fresh in let Hy := fresh in
      assert (Hx : FloatOrder.not_nan x) by assumption;
      assert (Hy : FloatOrder.not_nan y) by assumption;
      apply (eqb_rk Hx Hy)
  end;
  unfold FloatOrder.lex_lt in *;
  repeat match goal with
  | |- context [FloatOrder.rk ?x] =>
      let p := fresh "p" in
      let a := fresh "a" in let b := fresh "b" in let c := fresh "c" in
      set (p := FloatOrder.rk x) in *; clearbody p; destruct p as [[a b] c]
  | H : context [FloatOrder.rk ?x] |- _ =>
      let p := fresh "p" in
      let a := fresh "a" in let b := fresh "b" in let c := fresh "c" in
      set (p := FloatOrder.rk x) in *; clearbody p; destruct p as [[a b] c]
  end;
  cbn [fst snd] in *;
  repeat match goal with
  | H : (_, _) = (_, _) |- _ => injection H as
  end;
  try congruence; try lia; try (repeat f_equal; lia).

Section FloatOrderFacts.

Import FloatOrder.

Lemma ltb_irrefl (x : float) : (x <? x)%float = false.
Proof.
  destruct (x <? x)%float eqn:H; [|reflexivity].
  exfalso. float_order.
Qed.

Lemma ltb_trans (x y z : float) :
  (x <? y)%float = true -> (y <? z)%float = true -> (x <? z)%float = true.
Proof. intros H1 H2. float_order. Qed.

Lemma ltb_asym (x y : float) :
  (x <? y)%float = true -> (y <? x)%float = false.
Proof. intros H. float_order. Qed.

(** [x <= y <= z], each read as "not greater". *)
Lemma not_ltb_trans (x y z : float) :
  not_nan x -> not_nan y -> not_nan z ->
  (y <? x)%float = false -> (z <? y)%float = false -> (z <? x)%float = false.
Proof. intros Hx Hy Hz H1 H2. float_order. Qed.

Lemma not_ltb_ltb_trans (x y z : float) :
  not_nan x ->
  (y <? x)%float = false -> (y <? z)%float = true -> (x <? z)%float = true.
Proof. intros Hx H1 H2. float_order. Qed.

Lemma ltb_not_ltb_trans (x y z : float) :
  not_nan z ->
  (x <? y)%float = true -> (z <? y)%float = false -> (x <? z)%float = true.
Proof. intros Hz H1 H2. float_order. Qed.

Lemma feq_refl (x : float) : not_nan x -> feq x x.
Proof. intros H. float_order. Qed.

Lemma feq_sym (x y : float) : feq x y -> feq y x.
Proof. intros H. float_order. Qed.

Lemma feq_trans (x y z : float) : feq x y -> feq y z -> feq x z.
Proof. intros H1 H2. float_order. Qed.

Lemma ltb_feq_l (x x' y : float) :
  feq x x' -> (x <? y)%float = (x' <? y)%float.
Proof.
  intros H.
  destruct (x <? y)%float eqn:H1, (x' <? y)%float eqn:H2; try reflexivity.
  - exfalso. destruct (feq_not_nan H) as [Hx Hx'].
    destruct (ltb_true_not_nan H1) as [_ Hy]. float_order.
  - exfalso. destruct (feq_not_nan H) as [Hx Hx'].
    destruct (ltb_true_not_nan H2) as [_ Hy]. float_order.
Qed.

Lemma ltb_feq_r (x y y' : float) :
  feq y y' -> (x <? y)%float = (x <? y')%float.
Proof.
  intros H.
  destruct (x <? y)%float eqn:H1, (x <? y')%float eqn:H2; try reflexivity.
  - exfalso. destruct (feq_not_nan H) as [Hy Hy'].
    destruct (ltb_true_not_nan H1) as [Hx _]. float_order.
  - exfalso. destruct (feq_not_nan H) as [Hy Hy'].
    destruct (ltb_true_not_nan H2) as [Hx _]. float_order.
Qed.

(** Two values neither of which is below the other are equal. *)
Lemma not_ltb_antisym (x y : float) :
  not_nan x -> not_nan y ->
  (x <? y)%float = false -> (y <? x)%float = false -> feq x y.
Proof. intros Hx Hy H1 H2. float_order. Qed.

Lemma feq_not_ltb (x y : float) : feq x y -> (x <? y)%float = false.
Proof.
  intros H. destruct (feq_not_nan H) as [Hx Hy]. float_order.
Qed.

End FloatOrderFacts.
(** ** Equal finite doubles are epsilon-equal *)

Section FloatDifference.

Import FloatOrder.

Lemma SFsub_same (f1 f2 : spec_float) :
  rank f1 = rank f2 ->
  match f1 with S754_zero _ | S754_finite _ _ _ => True | _ => False end ->
  match f2 with S754_zero _ | S754_finite _ _ _ => True | _ => False end ->
  exists s, SFsub prec emax f1 f2 = S754_zero s.
Proof.
  destruct f1 as [s1|s1| |s1 m1 e1], f2 as [s2|s2| |s2 m2 e2];
    try contradiction; intros Hr _ _.
  - destruct s1, s2; cbn; eauto.
  - destruct s2; discriminate Hr.
  - destruct s1; discriminate Hr.
  - assert (E : s1 = s2 /\ m1 = m2 /\ e1 = e2).
    { destruct s1, s2; cbn in Hr; inversion Hr; repeat split; congruence || lia. }
    destruct E as (-> & -> & ->).
    exists false. unfold SFsub. rewrite Z.min_id.
    unfold shl_align. rewrite Z.sub_diag. cbn [fst].
    rewrite ?Z.sub_diag. reflexivity.
Qed.

(** Two finite doubles that compare equal differ by less than epsilon. *)
Lemma abs_sub_feq (a b : float) :
  finite a -> finite b -> feq a b ->
  (abs (a - b) <? Double.EPS)%float = true.
Proof.
  intros Ha Hb Hab.
  destruct (feq_not_nan Hab) as [Hna Hnb].
  apply (eqb_rk Hna Hnb) in Hab.
  rewrite ltb_spec, abs_spec, sub_spec.
  destruct (@SFsub_same (Prim2SF a) (Prim2SF b) Hab Ha Hb) as [s Hs].
  unfold SF64sub. rewrite Hs. reflexivity.
Qed.

Lemma eqb_same_point (p q : Point) :
  point_finite p -> point_finite q -> same_point p q ->
  PointOps.eqb p q = true.
Proof.
  intros [Hpx Hpy] [Hqx Hqy] [Hx Hy]. unfold PointOps.eqb.
  now rewrite !abs_sub_feq.
Qed.

Lemma point_finite_ok (p : Point) : point_finite p -> point_ok p.
Proof. intros [Hx Hy]. split; now apply finite_not_nan. Qed.

Lemma same_point_refl (p : Point) : point_ok p -> same_point p p.
Proof. intros [Hx Hy]. split; now apply feq_refl. Qed.

Lemma same_point_sym (p q : Point) : same_point p q -> same_point q p.
Proof. intros [Hx Hy]. split; now apply feq_sym. Qed.

Lemma same_point_trans (p q r : Point) :
  same_point p q -> same_point q r -> same_point p r.
Proof. intros [Hx Hy] [Hx' Hy']. split; eapply feq_trans; eauto. Qed.

Lemma less_same_point (c : bool) (p q r : Point) :
  same_point p q -> kdtree.less p r c = kdtree.less q r c.
Proof.
  intros [Hx Hy]. unfold kdtree.less. destruct c; now apply ltb_feq_l.
Qed.

End FloatDifference.
(** ** Least and greatest coordinates *)

Section MinMax.

Import FloatOrder Inv.

Lemma min_cases (a b : float) : Double.min a b = a \/ Double.min a b = b.
Proof. unfold Double.min. destruct (b <? a)%float; auto. Qed.

Lemma max_cases (a b : float) : Double.max a b = a \/ Double.max a b = b.
Proof. unfold Double.max. destruct (a <? b)%float; auto. Qed.

Lemma min_not_nan (a b : float) :
  not_nan a -> not_nan b -> not_nan (Double.min a b).
Proof. intros. destruct (min_cases a b) as [-> | ->]; assumption. Qed.

Lemma max_not_nan (a b : float) :
  not_nan a -> not_nan b -> not_nan (Double.max a b).
Proof. intros. destruct (max_cases a b) as [-> | ->]; assumption. Qed.

Lemma min_feq (a a' b b' : float) :
  feq a a' -> feq b b' -> feq (Double.min a b) (Double.min a' b').
Proof.
  intros Ha Hb. destruct (feq_not_nan Ha) as [Na Na'].
  destruct (feq_not_nan Hb) as [Nb Nb']. unfold Double.min.
  destruct (b <? a)%float eqn:E, (b' <? a')%float eqn:E'; trivial;
    float_order.
Qed.

Lemma max_feq (a a' b b' : float) :
  feq a a' -> feq b b' -> feq (Double.max a b) (Double.max a' b').
Proof.
  intros Ha Hb. destruct (feq_not_nan Ha) as [Na Na'].
  destruct (feq_not_nan Hb) as [Nb Nb']. unfold Double.max.
  destruct (a <? b)%float eqn:E, (a' <? b')%float eqn:E'; trivial;
    float_order.
Qed.

Lemma is_min_single (x : float) : not_nan x -> is_min x [x].
Proof.
  intros Hx. split.
  - exists x. split; [now left | now apply feq_refl].
  - constructor; [apply ltb_irrefl | constructor].
Qed.

Lemma is_max_single (x : float) : not_nan x -> is_max x [x].
Proof.
  intros Hx. split.
  - exists x. split; [now left | now apply feq_refl].
  - constructor; [apply ltb_irrefl | constructor].
Qed.

Lemma is_min_not_nan (v : float) (xs : list float) : is_min v xs -> not_nan v.
Proof. intros [(x & _ & H) _]. now destruct (feq_not_nan H). Qed.

Lemma is_max_not_nan (v : float) (xs : list float) : is_max v xs -> not_nan v.
Proof. intros [(x & _ & H) _]. now destruct (feq_not_nan H). Qed.

Lemma is_min_app (a b : float) (xs ys : list float) :
  Forall not_nan xs -> Forall not_nan ys ->
  is_min a xs -> is_min b ys -> is_min (Double.min a b) (xs ++ ys).
Proof.
  intros Nx Ny Ha Hb.
  pose proof (is_min_not_nan Ha) as Na. pose proof (is_min_not_nan Hb) as Nb.
  destruct Ha as [(x & Hx & Hax) La], Hb as [(y & Hy & Hby) Lb].
  unfold Double.min. destruct (b <? a)%float eqn:E; split.
  - exists y. split; [apply in_or_app; now right | exact Hby].
  - apply Forall_app. split; [|exact Lb].
    rewrite Forall_forall in *. intros z Hz.
    specialize (La z Hz). specialize (Nx z Hz). float_order.
  - exists x. split; [apply in_or_app; now left | exact Hax].
  - apply Forall_app. split; [exact La|].
    rewrite Forall_forall in *. intros z Hz.
    specialize (Lb z Hz). specialize (Ny z Hz). float_order.
Qed.

Lemma is_max_app (a b : float) (xs ys : list float) :
  Forall not_nan xs -> Forall not_nan ys ->
  is_max a xs -> is_max b ys -> is_max (Double.max a b) (xs ++ ys).
Proof.
  intros Nx Ny Ha Hb.
  pose proof (is_max_not_nan Ha) as Na. pose proof (is_max_not_nan Hb) as Nb.
  destruct Ha as [(x & Hx & Hax) La], Hb as [(y & Hy & Hby) Lb].
  unfold Double.max. destruct (a <? b)%float eqn:E; split.
  - exists y. split; [apply in_or_app; now right | exact Hby].
  - apply Forall_app. split; [|exact Lb].
    rewrite Forall_forall in *. intros z Hz.
    specialize (La z Hz). specialize (Nx z Hz). float_order.
  - exists x. split; [apply in_or_app; now left | exact Hax].
  - apply Forall_app. split; [exact La|].
    rewrite Forall_forall in *. intros z Hz.
    specialize (Lb z Hz). specialize (Ny z Hz). float_order.
Qed.

Lemma is_min_perm (v : float) (xs ys : list float) :
  Permutation xs ys -> is_min v xs -> is_min v ys.
Proof.
  intros Hp [(x & Hx & Hvx) L]. split.
  - exists x. split; [now apply (Permutation_in x Hp) | exact Hvx].
  - now apply (Permutation_Forall Hp).
Qed.

Lemma is_max_perm (v : float) (xs ys : list float) :
  Permutation xs ys -> is_max v xs -> is_max v ys.
Proof.
  intros Hp [(x & Hx & Hvx) L]. split.
  - exists x. split; [now apply (Permutation_in x Hp) | exact Hvx].
  - now apply (Permutation_Forall Hp).
Qed.

Lemma is_min_feq (v w : float) (xs : list float) :
  Forall not_nan xs -> feq v w -> is_min v xs -> is_min w xs.
Proof.
  intros Nx Hvw [(x & Hx & Hvx) L]. split.
  - exists x. split; [exact Hx|].
    eapply feq_trans; [apply feq_sym; exact Hvw | exact Hvx].
  - destruct (feq_not_nan Hvw) as [Nv Nw].
    rewrite Forall_forall in *. intros z Hz.
    specialize (L z Hz). specialize (Nx z Hz). float_order.
Qed.

Lemma is_max_feq (v w : float) (xs : list float) :
  Forall not_nan xs -> feq v w -> is_max v xs -> is_max w xs.
Proof.
  intros Nx Hvw [(x & Hx & Hvx) L]. split.
  - exists x. split; [exact Hx|].
    eapply feq_trans; [apply feq_sym; exact Hvw | exact Hvx].
  - destruct (feq_not_nan Hvw) as [Nv Nw].
    rewrite Forall_forall in *. intros z Hz.
    specialize (L z Hz). specialize (Nx z Hz). float_order.
Qed.

(** A least value is unique up to [==]. *)
Lemma is_min_unique (v w : float) (xs : list float) :
  Forall not_nan xs -> is_min v xs -> is_min w xs -> feq v w.
Proof.
  intros Nx Hv Hw.
  pose proof (is_min_not_nan Hv) as Nv. pose proof (is_min_not_nan Hw) as Nw.
  destruct Hv as [(x & Hx & Hvx) Lv], Hw as [(y & Hy & Hwy) Lw].
  rewrite Forall_forall in *.
  pose proof (Lv y Hy) as H1. pose proof (Lw x Hx) as H2.
  pose proof (Nx x Hx) as Nx0. pose proof (Nx y Hy) as Ny0.
  float_order.
Qed.

Lemma is_max_unique (v w : float) (xs : list float) :
  Forall not_nan xs -> is_max v xs -> is_max w xs -> feq v w.
Proof.
  intros Nx Hv Hw.
  pose proof (is_max_not_nan Hv) as Nv. pose proof (is_max_not_nan Hw) as Nw.
  destruct Hv as [(x & Hx & Hvx) Lv], Hw as [(y & Hy & Hwy) Lw].
  rewrite Forall_forall in *.
  pose proof (Lv y Hy) as H1. pose proof (Lw x Hx) as H2.
  pose proof (Nx x Hx) as Nx0. pose proof (Nx y Hy) as Ny0.
  float_order.
Qed.

End MinMax.
(** ** Soundness of the decision procedures *)

Section DecideSound.

Import Decide.

Variable A : Type.
Variable same : A -> A -> bool.
Hypothesis same_eq : forall a b, same a b = true -> a = b.

Lemma mem_In (a : A) (l : list A) : mem same a l = true -> In a l.
Proof.
  induction l as [|b l IH]; cbn; [discriminate|].
  intros H. apply orb_true_iff in H. destruct H as [H|H].
  - left. symmetry. now apply same_eq.
  - right. now apply IH.
Qed.

Lemma remove_one_perm (a : A) (l l' : list A) :
  remove_one same a l = Some l' -> Permutation l (a :: l').
Proof.
  revert l'. induction l as [|b l IH]; cbn; intros l' H; [discriminate|].
  destruct (same a b) eqn:E.
  - apply same_eq in E. injection H as <-. subst. apply Permutation_refl.
  - destruct (remove_one same a l) as [l''|]; [|discriminate].
    injection H as <-.
    apply Permutation_trans with (b :: a :: l'').
    + apply perm_skip. now apply IH.
    + apply perm_swap.
Qed.

Lemma rearranged_perm (l1 l2 : list A) :
  rearranged same l1 l2 = true -> Permutation l1 l2.
Proof.
  revert l2. induction l1 as [|a l1 IH]; cbn; intros l2 H.
  - destruct l2; [apply perm_nil | discriminate].
  - destruct (remove_one same a l2) as [l2'|] eqn:E; [|discriminate].
    apply Permutation_sym.
    apply Permutation_trans with (a :: l2').
    + now apply remove_one_perm.
    + apply perm_skip. apply Permutation_sym. now apply IH.
Qed.

Hypothesis same_refl : forall a, same a a = true.

Lemma In_mem (a : A) (l : list A) : In a l -> mem same a l = true.
Proof.
  induction l as [|b l IH]; cbn; [tauto|].
  intros [->|H]; apply orb_true_iff; [left; apply same_refl | right; auto].
Qed.

Lemma distinct_NoDup (l : list A) : distinct same l = true -> NoDup l.
Proof.
  induction l as [|a l IH]; cbn; intros H; [constructor|].
  apply andb_true_iff in H. destruct H as [H1 H2].
  constructor; [|now apply IH].
  intros Hin. apply In_mem in Hin. rewrite Hin in H1. discriminate.
Qed.

Lemma subset_incl (l1 l2 : list A) : subset same l1 l2 = true -> incl l1 l2.
Proof.
  unfold subset. rewrite forallb_forall. intros H a Ha.
  apply mem_In. now apply H.
Qed.

End DecideSound.

Section DecideFloat.

Import Decide.

Lemma float_same_eq (a b : float) : float_same a b = true -> a = b.
Proof. apply FloatAxioms.Leibniz.eqb_spec. Qed.

Lemma float_same_refl (a : float) : float_same a a = true.
Proof. now apply FloatAxioms.Leibniz.eqb_spec. Qed.

Lemma point_same_eq (p q : Point) : point_same p q = true -> p = q.
Proof.
  destruct p as [px py], q as [qx qy]. unfold point_same. cbn.
  intros H. apply andb_true_iff in H. destruct H as [H1 H2].
  apply float_same_eq in H1, H2. now subst.
Qed.

Lemma point_same_refl (p : Point) : point_same p p = true.
Proof.
  unfold point_same. now rewrite !float_same_refl.
Qed.

End DecideFloat.

Section Perms.

Import Decide.

Variable A : Type.

Lemma insert_all_In (a : A) (l1 l2 : list A) :
  In (l1 ++ a :: l2) (insert_all a (l1 ++ l2)).
Proof.
  induction l1 as [|b l1 IH]; cbn.
  - destruct l2; cbn; auto.
  - right. apply in_map. exact IH.
Qed.

(** [perms l] lists every rearrangement of [l]. *)
Lemma perms_complete (l l' : list A) : Permutation l' l -> In l' (perms l).
Proof.
  revert l'. induction l as [|a l IH]; intros l' H.
  - apply Permutation_sym, Permutation_nil in H. subst. now left.
  - assert (Hin : In a l').
    { apply Permutation_in with (a :: l); [now apply Permutation_sym|now left]. }
    apply in_split in Hin. destruct Hin as (l1 & l2 & ->).
    apply Permutation_sym, Permutation_cons_app_inv in H.
    cbn. apply in_flat_map. exists (l1 ++ l2). split.
    + apply IH. now apply Permutation_sym.
    + apply insert_all_In.
Qed.

End Perms.
(** ** What construction and insertion keep *)

Section Structure.

Import kdtree Inv.

Lemma ident_update_data (d : NodeData) (l r : tree) :
  ident (update_data d l r) = ident d.
Proof. unfold update_data. destruct l, r; reflexivity. Qed.

Lemma ident_set_parent (d : NodeData) (p : option addr) :
  ident (set_parent d p) = ident d.
Proof. reflexivity. Qed.

Lemma idents_node (d : NodeData) (l r : tree) :
  idents (Node d l r) = idents l ++ ident d :: idents r.
Proof. unfold idents. cbn. now rewrite map_app. Qed.

Lemma idents_set_parent_of (t : tree) (p : option addr) :
  idents (set_parent_of t p) = idents t.
Proof.
  destruct t; [reflexivity|]. cbn [set_parent_of]. now rewrite !idents_node.
Qed.

Lemma idents_adopt (p : addr) (t : tree) : idents (adopt p t) = idents t.
Proof.
  revert p. induction t as [|d l IHl r IHr]; intros p; [reflexivity|].
  cbn [adopt]. now rewrite !idents_node, IHl, IHr.
Qed.

Lemma points_idents (t : tree) : points t = map snd (idents t).
Proof. unfold points, idents. rewrite map_map. reflexivity. Qed.

Lemma addrs_idents (t : tree) : addrs t = map fst (idents t).
Proof. unfold addrs, idents. rewrite map_map. reflexivity. Qed.

Lemma count_idents (t : tree) : count t = length (idents t).
Proof.
  induction t as [|d l IHl r IHr]; [reflexivity|].
  rewrite idents_node, length_app. cbn. lia.
Qed.

(** *** Sorting rearranges *)

Lemma sort_insert_perm (A : Type) (lt : A -> A -> bool) (a : A) (l : list A) :
  Permutation (sort_insert lt a l) (a :: l).
Proof.
  induction l as [|b l IH]; cbn; [apply Permutation_refl|].
  destruct (lt b a).
  - apply Permutation_trans with (b :: a :: l);
      [now apply perm_skip | apply perm_swap].
  - apply Permutation_refl.
Qed.

Lemma sort_perm (A : Type) (lt : A -> A -> bool) (l : list A) :
  Permutation (sort lt l) l.
Proof.
  induction l as [|a l IH]; cbn; [apply perm_nil|].
  apply Permutation_trans with (a :: sort lt l);
    [apply sort_insert_perm | now apply perm_skip].
Qed.

Lemma shift_median_le (c : bool) (d0 : NodeData) (l : list NodeData) (m : nat) :
  shift_median c d0 l m <= m.
Proof.
  induction m as [|m IH]; cbn; [lia|].
  destruct (less_node c _ _); lia.
Qed.

Lemma split_at (A : Type) (l : list A) (m : nat) (d : A) :
  m < length l -> l = firstn m l ++ nth m l d :: skipn (S m) l.
Proof.
  revert m. induction l as [|a l IH]; intros m H; cbn in H; [lia|].
  destruct m as [|m]; cbn; [reflexivity|].
  f_equal. apply IH. lia.
Qed.

(** The pieces [build_tree] cuts a non-empty vector into. *)
Lemma build_split (c : bool) (d0 : NodeData) (nodes : list NodeData) :
  nodes <> [] ->
  let sorted := sort (less_node c) nodes in
  let m := shift_median c d0 sorted (length sorted / 2) in
  m < length nodes
  /\ sorted = firstn m sorted ++ nth m sorted d0 :: skipn (S m) sorted
  /\ length (firstn m sorted) = m
  /\ length (skipn (S m) sorted) = length nodes - S m.
Proof.
  intros Hne sorted m.
  assert (Hlen : length sorted = length nodes)
    by (apply Permutation_length, sort_perm).
  assert (Hpos : 0 < length nodes) by (destruct nodes; cbn; [congruence|lia]).
  assert (Hm : m < length nodes).
  { pose proof (shift_median_le c d0 sorted (length sorted / 2)) as H.
    fold m in H. rewrite Hlen in H.
    pose proof (Nat.div_lt (length nodes) 2 Hpos). lia. }
  split; [exact Hm|]. split; [apply split_at; lia|].
  split; [rewrite length_firstn; lia | rewrite length_skipn; lia].
Qed.

Lemma build_tree_fuel_idents (fuel : nat) (nodes : list NodeData) (c : bool) :
  length nodes <= fuel ->
  Permutation (idents (build_tree_fuel fuel nodes c)) (map ident nodes).
Proof.
  revert nodes c. induction fuel as [|fuel IH]; intros nodes c Hlen.
  - destruct nodes; [apply perm_nil | cbn in Hlen; lia].
  - destruct nodes as [|d0 rest]; [apply perm_nil|].
    cbn [build_tree_fuel].
    set (nodes := d0 :: rest) in *.
    destruct (@build_split c d0 nodes) as (Hm & Hsplit & Hl & Hr);
      [discriminate|].
    set (sorted := sort (less_node c) nodes) in *.
    set (m := shift_median c d0 sorted (length sorted / 2)) in *.
    rewrite idents_node, ident_update_data.
    apply Permutation_trans with (map ident sorted);
      [|apply Permutation_map, sort_perm].
    assert (E : map ident sorted
                = map ident (firstn m sorted ++ nth m sorted d0
                               :: skipn (S m) sorted))
      by (f_equal; exact Hsplit).
    rewrite E, map_app. cbn [map].
    assert (Hn : length nodes <= S fuel) by exact Hlen.
    apply Permutation_app; [|apply perm_skip]; apply IH; lia.
Qed.

Lemma build_tree_idents (nodes : list NodeData) (c : bool) :
  Permutation (idents (build_tree nodes c)) (map ident nodes).
Proof. apply build_tree_fuel_idents. lia. Qed.

Lemma build_tree_not_null (nodes : list NodeData) (c : bool) :
  nodes <> [] -> build_tree nodes c <> Null.
Proof.
  destruct nodes; [congruence|]. intros _. discriminate.
Qed.

End Structure.

Section InsertFacts.

Import kdtree Inv.

Variable fresh : addr.
Variable pt : Point.

(** The four ways through [insert], as an induction principle. *)
Lemma insert_cases (P : tree -> bool -> tree * option (slot * bool) -> Prop) :
  (forall c, P Null c (new_node fresh pt, None)) ->
  (forall d l r c,
      PointOps.eqb (point d) pt = true -> P (Node d l r) c (Node d l r, None)) ->
  (forall d l r c to res,
      PointOps.eqb (point d) pt = false ->
      less pt (point d) c = true ->
      insert fresh l pt (negb c) = (to, res) ->
      P l (negb c) (to, res) ->
      let to' := set_parent_of to (Some (self d)) in
      let d' := update_data d to' r in
      P (Node d l r) c
        (Node d' to' r,
         if balanced_at d' to' r then enter true res else Some ([], c))) ->
  (forall d l r c to res,
      PointOps.eqb (point d) pt = false ->
      less pt (point d) c = false ->
      insert fresh r pt (negb c) = (to, res) ->
      P r (negb c) (to, res) ->
      let to' := set_parent_of to (Some (self d)) in
      let d' := update_data d l to' in
      P (Node d l r) c
        (Node d' l to',
         if balanced_at d' l to' then enter false res else Some ([], c))) ->
  forall root c, P root c (insert fresh root pt c).
Proof.
  intros Hnull Heq Hleft Hright.
  induction root as [|d l IHl r IHr]; intros c; cbn [insert].
  - apply Hnull.
  - destruct (PointOps.eqb (point d) pt) eqn:E; [now apply Heq|].
    destruct (less pt (point d) c) eqn:L.
    + destruct (insert fresh l pt (negb c)) as [to res] eqn:I.
      apply Hleft; trivial. rewrite <- I. apply IHl.
    + destruct (insert fresh r pt (negb c)) as [to res] eqn:I.
      apply Hright; trivial. rewrite <- I. apply IHr.
Qed.

(** [contains] walks the path of [insert]. *)
Lemma insert_idents (root : tree) (c : bool) :
  if contains_from root pt c
  then idents (fst (insert fresh root pt c)) = idents root
  else exists l1 l2,
      idents root = l1 ++ l2
      /\ idents (fst (insert fresh root pt c)) = l1 ++ (fresh, pt) :: l2.
Proof.
  revert root c.
  apply (insert_cases
           (fun root c res =>
              if contains_from root pt c then idents (fst res) = idents root
              else exists l1 l2,
                  idents root = l1 ++ l2
                  /\ idents (fst res) = l1 ++ (fresh, pt) :: l2)).
  - intros c. cbn. exists [], []. split; reflexivity.
  - intros d l r c E. cbn [contains_from]. now rewrite E.
  - intros d l r c to res E L I IH to' d'. cbn [contains_from fst] in *.
    rewrite E, L. rewrite !idents_node. subst d'. rewrite ident_update_data.
    subst to'. rewrite idents_set_parent_of.
    destruct (contains_from l pt (negb c)).
    + now rewrite IH.
    + destruct IH as (l1 & l2 & H1 & H2). rewrite H1, H2.
      exists l1, (l2 ++ ident d :: idents r).
      now rewrite <- !app_assoc.
  - intros d l r c to res E L I IH to' d'. cbn [contains_from fst] in *.
    rewrite E, L. rewrite !idents_node. subst d'. rewrite ident_update_data.
    subst to'. rewrite idents_set_parent_of.
    destruct (contains_from r pt (negb c)).
    + now rewrite IH.
    + destruct IH as (l1 & l2 & H1 & H2). rewrite H1, H2.
      exists (idents l ++ ident d :: l1), l2.
      now rewrite <- !app_assoc.
Qed.

(** The slot [insert] reports holds a node. *)
Lemma insert_slot (root : tree) (c : bool) :
  forall s c', snd (insert fresh root pt c) = Some (s, c') ->
  slot_at (fst (insert fresh root pt c)) s <> Null.
Proof.
  revert root c.
  apply (insert_cases
           (fun root c res =>
              forall s c', snd res = Some (s, c') ->
                           slot_at (fst res) s <> Null)).
  - discriminate.
  - discriminate.
  - intros d l r c to res E L I IH to' d' s c'. cbn [fst snd] in *.
    destruct (balanced_at d' to' r).
    + destruct res as [[s0 c0]|]; cbn; [|discriminate].
      intros H. injection H as <- <-. cbn [slot_at].
      specialize (IH s0 c0 eq_refl). subst to'.
      destruct to; [exact IH|]. destruct s0; [discriminate|exact IH].
    + intros H. injection H as <- <-. discriminate.
  - intros d l r c to res E L I IH to' d' s c'. cbn [fst snd] in *.
    destruct (balanced_at d' l to').
    + destruct res as [[s0 c0]|]; cbn; [|discriminate].
      intros H. injection H as <- <-. cbn [slot_at].
      specialize (IH s0 c0 eq_refl). subst to'.
      destruct to; [exact IH|]. destruct s0; [discriminate|exact IH].
    + intros H. injection H as <- <-. discriminate.
Qed.

End InsertFacts.

Section PutFacts.

Import kdtree Inv.

Lemma update_slot_some (root : tree) (s : slot) (f : tree -> option tree) :
  slot_at root s <> Null ->
  (forall t, t <> Null -> exists t', f t = Some t') ->
  exists root', update_slot root s f = Some root'.
Proof.
  intros Hs Hf. revert root Hs.
  induction s as [|b s IH]; intros root Hs; cbn in *.
  - now apply Hf.
  - destruct root as [|d l r]; [congruence|].
    destruct b.
    + destruct (IH l Hs) as [l' ->]. eauto.
    + destruct (IH r Hs) as [r' ->]. eauto.
Qed.

Lemma update_slot_idents (root root' : tree) (s : slot)
  (f : tree -> option tree) :
  (forall t t', f t = Some t' -> Permutation (idents t') (idents t)) ->
  update_slot root s f = Some root' ->
  Permutation (idents root') (idents root).
Proof.
  intros Hf. revert root root'.
  induction s as [|b s IH]; intros root root' H; cbn in H.
  - now apply Hf.
  - destruct root as [|d l r]; [discriminate|].
    destruct b.
    + destruct (update_slot l s f) as [l'|] eqn:E; [|discriminate].
      injection H as <-. rewrite !idents_node.
      apply Permutation_app_tail. now apply IH.
    + destruct (update_slot r s f) as [r'|] eqn:E; [|discriminate].
      injection H as <-. rewrite !idents_node.
      apply Permutation_app_head, perm_skip. now apply IH.
Qed.

Lemma rebuild_slot_some (c : bool) (t : tree) :
  t <> Null -> exists t', rebuild_slot c t = Some t'.
Proof.
  destruct t as [|d l r]; [congruence|]. intros _.
  unfold rebuild_slot.
  destruct (rebuild_tree (Node d l r) c) as [|d' l' r'] eqn:E.
  - exfalso. revert E. apply build_tree_not_null.
    unfold move_to_vector. cbn. now destruct (to_vector l).
  - cbn. eauto.
Qed.

Lemma rebuild_slot_idents (c : bool) (t t' : tree) :
  rebuild_slot c t = Some t' -> Permutation (idents t') (idents t).
Proof.
  destruct t as [|d l r]; [discriminate|]. unfold rebuild_slot.
  destruct (rebuild_tree (Node d l r) c) as [|d' l' r'] eqn:E; [discriminate|].
  cbn [set_parents]. intros H. injection H as <-.
  rewrite idents_node, !idents_adopt, ident_set_parent, <- idents_node.
  rewrite <- E. apply build_tree_idents.
Qed.

(** [put] returns, and the nodes it leaves are those it found, with one
    new node for [pt] unless [contains(pt)] held. *)
Lemma put_idents (m_root : tree) (pt : Point) :
  exists t,
    put m_root pt = Some t
    /\ Permutation (idents t)
         (if contains m_root pt then idents m_root
          else (fresh_addr m_root, pt) :: idents m_root).
Proof.
  unfold put, contains.
  pose proof (insert_idents (fresh_addr m_root) pt m_root true) as Hid.
  pose proof (@insert_slot (fresh_addr m_root) pt m_root true) as Hslot.
  destruct (insert (fresh_addr m_root) m_root pt true) as [root res].
  cbn [fst snd] in *.
  assert (Hroot : Permutation (idents root)
            (if contains_from m_root pt true then idents m_root
             else (fresh_addr m_root, pt) :: idents m_root)).
  { destruct (contains_from m_root pt true).
    - now rewrite Hid.
    - destruct Hid as (l1 & l2 & -> & ->).
      apply Permutation_sym, Permutation_middle. }
  destruct res as [[s c]|].
  - destruct (@update_slot_some root s (rebuild_slot c)) as [t Ht].
    + now apply Hslot with c.
    + intros t. apply rebuild_slot_some.
    + exists t. split; [exact Ht|].
      apply Permutation_trans with (idents root); [|exact Hroot].
      apply update_slot_idents with (2 := Ht).
      intros. now apply rebuild_slot_idents with c.
  - exists root. split; [reflexivity | exact Hroot].
Qed.

End PutFacts.
(** ** The full traversal *)

Section Traversal.

Import kdtree Inv.

Lemma addrs_node (d : NodeData) (l r : tree) :
  addrs (Node d l r) = addrs l ++ self d :: addrs r.
Proof. unfold addrs. cbn. now rewrite map_app. Qed.

Lemma find_absent (t : tree) (a : addr) : ~ In a (addrs t) -> find t a = Null.
Proof.
  induction t as [|d l IHl r IHr]; intros H; [reflexivity|].
  rewrite addrs_node in H. cbn [find].
  destruct (Nat.eqb_spec (self d) a) as [E|E].
  - exfalso. apply H. apply in_or_app. right. now left.
  - rewrite IHl, IHr; [reflexivity| |];
      intros Hin; apply H; apply in_or_app; [right; now right | now left].
Qed.

Lemma find_present (t : tree) (a : addr) : In a (addrs t) -> find t a <> Null.
Proof.
  induction t as [|d l IHl r IHr]; intros H; [contradiction|].
  rewrite addrs_node in H. cbn [find].
  destruct (Nat.eqb_spec (self d) a) as [E|E]; [discriminate|].
  apply in_app_or in H. destruct H as [H|[H|H]]; [|congruence|].
  - specialize (IHl H). destruct (find l a); [congruence | discriminate].
  - destruct (find l a); [now apply IHr | discriminate].
Qed.

Lemma find_self (d : NodeData) (l r : tree) :
  find (Node d l r) (self d) = Node d l r.
Proof. cbn [find]. now rewrite Nat.eqb_refl. Qed.

Lemma NoDup_node (d : NodeData) (l r : tree) :
  NoDup (addrs (Node d l r)) ->
  NoDup (addrs l) /\ NoDup (addrs r)
  /\ ~ In (self d) (addrs l) /\ ~ In (self d) (addrs r)
  /\ (forall a, In a (addrs l) -> ~ In a (addrs r)).
Proof.
  rewrite addrs_node. intros H.
  pose proof (NoDup_remove_1 _ _ _ H) as H1.
  pose proof (NoDup_remove_2 _ _ _ H) as H2.
  split; [eapply NoDup_app_remove_r; eauto|].
  split; [eapply NoDup_app_remove_l; eauto|].
  split; [intros Hin; apply H2; apply in_or_app; now left|].
  split; [intros Hin; apply H2; apply in_or_app; now right|].
  intros a Hl Hr. revert H1 Hl Hr. clear. intros H1.
  induction (addrs l) as [|b bl IH]; cbn in *; [tauto|].
  inversion H1 as [|? ? Hnin Hnd]; subst.
  intros [->|Hl] Hr.
  - apply Hnin. apply in_or_app. now right.
  - now apply IH.
Qed.

Lemma find_left (d : NodeData) (l r : tree) (a : addr) :
  NoDup (addrs (Node d l r)) -> In a (addrs l) ->
  find (Node d l r) a = find l a.
Proof.
  intros Hnd Hin. destruct (@NoDup_node _ _ _ Hnd) as (_ & _ & Hd & _ & _).
  cbn [find]. destruct (Nat.eqb_spec (self d) a) as [E|E]; [congruence|].
  pose proof (@find_present _ _ Hin). now destruct (find l a).
Qed.

Lemma find_right (d : NodeData) (l r : tree) (a : addr) :
  NoDup (addrs (Node d l r)) -> In a (addrs r) ->
  find (Node d l r) a = find r a.
Proof.
  intros Hnd Hin. destruct (@NoDup_node _ _ _ Hnd) as (_ & _ & _ & Hd & Hlr).
  cbn [find]. destruct (Nat.eqb_spec (self d) a) as [E|E]; [congruence|].
  rewrite find_absent; [reflexivity|].
  intros Hl. now apply (Hlr a).
Qed.

Lemma to_vector_plug (c : ctx) (t : tree) :
  to_vector (plug c t) = before c ++ to_vector t ++ after c.
Proof.
  revert t. induction c as [|d r c IH|d l c IH]; intros t; cbn [plug before after].
  - now rewrite app_nil_r.
  - rewrite IH. cbn [to_vector]. now rewrite <- !app_assoc.
  - rewrite IH. cbn [to_vector]. now rewrite <- !app_assoc.
Qed.

Lemma NoDup_plug (c : ctx) (t : tree) :
  NoDup (addrs (plug c t)) -> NoDup (addrs t).
Proof.
  unfold addrs. rewrite to_vector_plug, !map_app. intros H.
  apply NoDup_app_remove_l in H. now apply NoDup_app_remove_r in H.
Qed.

Lemma find_plug (c : ctx) (t : tree) (a : addr) :
  NoDup (addrs (plug c t)) -> In a (addrs t) -> find (plug c t) a = find t a.
Proof.
  revert t. induction c as [|d r c IH|d l c IH]; intros t Hnd Hin;
    cbn [plug] in *; [reflexivity| |].
  - rewrite IH; trivial.
    + apply find_left; [now apply NoDup_plug in Hnd | exact Hin].
    + rewrite addrs_node. apply in_or_app. now left.
  - rewrite IH; trivial.
    + apply find_right; [now apply NoDup_plug in Hnd | exact Hin].
    + rewrite addrs_node. apply in_or_app. right. now right.
Qed.

Lemma find_focus (c : ctx) (d : NodeData) (l r : tree) :
  NoDup (addrs (plug c (Node d l r))) ->
  find (plug c (Node d l r)) (self d) = Node d l r.
Proof.
  intros H. rewrite find_plug; [apply find_self | exact H |].
  rewrite addrs_node. apply in_or_app. right. now left.
Qed.

Lemma parents_plug (c : ctx) (t : tree) :
  parents_ok None (plug c t) -> parents_ok (ctx_parent c) t /\ ctx_ok c.
Proof.
  revert t. induction c as [|d r c IH|d l c IH]; intros t H;
    cbn [plug ctx_ok ctx_parent] in *.
  - tauto.
  - destruct (IH _ H) as ((Hp & Hl & Hr) & Hc). tauto.
  - destruct (IH _ H) as ((Hp & Hl & Hr) & Hc). tauto.
Qed.

Lemma count_plug (c : ctx) (t : tree) : count t + depth c <= count (plug c t).
Proof.
  revert t. induction c as [|d r c IH|d l c IH]; intros t; cbn [plug depth].
  - lia.
  - specialize (IH (Node d t r)). cbn [count] in IH. lia.
  - specialize (IH (Node d l t)). cbn [count] in IH. lia.
Qed.

(** The ascent of [next] from a node in the hole of [c] ends at [up c]. *)
Lemma ascend_up (c : ctx) :
  forall d l r fuel,
    NoDup (addrs (plug c (Node d l r))) ->
    parents_ok None (plug c (Node d l r)) ->
    depth c < fuel ->
    ascend fuel (plug c (Node d l r)) (self d) = Some (up c).
Proof.
  induction c as [|dp rp c IH|dp lp c IH]; intros d l r fuel Hnd Hpar Hfuel;
    (destruct fuel as [|fuel]; [lia|]); cbn [ascend].
  - rewrite find_focus by exact Hnd.
    destruct (@parents_plug _ _ Hpar) as ((Hp & _) & _). cbn in Hp.
    now rewrite Hp.
  - rewrite find_focus by exact Hnd.
    destruct (@parents_plug _ _ Hpar) as ((Hp & _) & _). cbn [ctx_parent] in Hp.
    rewrite Hp. cbn [plug] in *. rewrite find_focus by exact Hnd.
    now rewrite Nat.eqb_refl.
  - rewrite find_focus by exact Hnd.
    destruct (@parents_plug _ _ Hpar) as ((Hp & _) & _). cbn [ctx_parent] in Hp.
    rewrite Hp. cbn [plug depth up] in *. rewrite find_focus by exact Hnd.
    assert (Hrec : ascend fuel (plug c (Node dp lp (Node d l r))) (self dp)
                   = Some (up c)) by (apply IH; trivial; lia).
    destruct lp as [|dl ll rl]; [exact Hrec|].
    destruct (Nat.eqb_spec (self dl) (self d)) as [E|E]; [|exact Hrec].
    exfalso. apply NoDup_plug in Hnd.
    destruct (@NoDup_node _ _ _ Hnd) as (_ & _ & _ & _ & Hlr).
    apply (Hlr (self d)); rewrite addrs_node; apply in_or_app; right; left;
      congruence.
Qed.

Lemma descend_spec (l : tree) :
  forall c d r c' dm rm,
    descend c d l r = (c', dm, rm) ->
    plug c' (Node dm Null rm) = plug c (Node d l r)
    /\ begin_at (Node d l r) = Some (self dm)
    /\ dm :: to_vector rm ++ after c' = to_vector (Node d l r) ++ after c.
Proof.
  induction l as [|dl ll IHl rl _]; intros c d r c' dm rm H; cbn [descend] in H.
  - injection H as <- <- <-. repeat split.
  - destruct (IHl _ _ _ _ _ _ H) as (H1 & H2 & H3).
    cbn [plug] in H1. split; [exact H1|]. split; [exact H2|].
    rewrite H3. cbn [to_vector after]. now rewrite <- !app_assoc.
Qed.

Lemma climb_spec (c : ctx) :
  forall t,
    match climb c t with
    | None => up c = None /\ after c = []
    | Some (c', dp, lp, rp) =>
        up c = Some (self dp)
        /\ plug c' (Node dp lp rp) = plug c t
        /\ after c = dp :: to_vector rp ++ after c'
    end.
Proof.
  induction c as [|d r c IH|d l c IH]; intros t; cbn [climb up after plug].
  - split; reflexivity.
  - repeat split.
  - apply IH.
Qed.

End Traversal.

Section Walk.

Import kdtree Inv.

Lemma deref_focus (c : ctx) (d : NodeData) (l r : tree) :
  NoDup (addrs (plug c (Node d l r))) ->
  deref_ptr (plug c (Node d l r)) (Some (self d)) = Some d.
Proof. intros H. cbn [deref_ptr]. now rewrite find_focus. Qed.

Lemma next_focus (c : ctx) (d : NodeData) (l r : tree) :
  wf (plug c (Node d l r)) ->
  next (plug c (Node d l r)) (Some (self d))
  = Some (match r with
          | Null => up c
          | Node _ _ _ => begin_at r
          end).
Proof.
  intros [Hnd Hpar]. cbn [next]. rewrite find_focus by exact Hnd.
  destruct r as [|dr lr rr]; [|reflexivity].
  apply ascend_up; trivial.
  pose proof (count_plug c (Node d l Null)) as H. cbn [count] in H. lia.
Qed.

(** From a node on, the cursor sees the node, then its right subtree, then
    what follows the subtree the node roots. *)
Lemma walk (n : nat) :
  forall c d l r fuel,
    wf (plug c (Node d l r)) ->
    length (to_vector r ++ after c) <= n ->
    n + 2 <= fuel ->
    collect fuel (plug c (Node d l r)) (node_it (Some (self d))) end_
    = Some (map point (d :: to_vector r ++ after c)).
Proof.
  induction n as [|n IH]; intros c d l r fuel Hwf Hlen Hfuel;
    (destruct fuel as [|fuel]; [lia|]); cbn [collect iterator_eqb end_ ptr_eqb];
    cbn [deref incr]; rewrite (deref_focus _ _ _ _ (proj1 Hwf)), next_focus by exact Hwf;
    cbn [option_map map].
  - destruct r as [|dr lr rr];
      [|exfalso; revert Hlen; cbn [to_vector]; rewrite !length_app;
        cbn [length]; lia].
    cbn [app] in *. pose proof (climb_spec c (Node d l Null)) as Hc.
    destruct (climb c (Node d l Null)) as [[[[c' dp] lp] rp]|].
    + destruct Hc as (_ & _ & Ha). rewrite Ha in Hlen. cbn in Hlen. lia.
    + destruct Hc as (-> & ->). destruct fuel; [lia|]. reflexivity.
  - destruct r as [|dr lr rr].
    + cbn [app to_vector] in *. pose proof (climb_spec c (Node d l Null)) as Hc.
      destruct (climb c (Node d l Null)) as [[[[c' dp] lp] rp]|].
      * destruct Hc as (-> & Hplug & Ha). rewrite Ha in *.
        rewrite <- Hplug in *. rewrite IH; trivial; cbn in Hlen; lia.
      * destruct Hc as (-> & ->). destruct fuel; [lia|]. reflexivity.
    + destruct (descend (InR d l c) dr lr rr) as [[c' dm] rm] eqn:D.
      destruct (descend_spec _ _ _ _ D) as (Hplug & Hb & Ha).
      cbn [plug after] in Hplug, Ha. rewrite Hb, <- Ha.
      rewrite <- Hplug in *. rewrite IH; trivial.
      * rewrite <- Ha in Hlen. cbn in Hlen. lia.
      * lia.
Qed.

(** The full traversal of a well-formed set sees every stored point once,
    left to right. *)
Lemma traverse_points (m_root : tree) :
  wf m_root -> traverse m_root = Some (points m_root).
Proof.
  intros Hwf. unfold traverse, points_of, begin_. cbn [fst snd].
  destruct m_root as [|d l r]; [reflexivity|].
  destruct (descend Top d l r) as [[c' dm] rm] eqn:D.
  destruct (descend_spec _ _ _ _ D) as (Hplug & Hb & Ha).
  cbn [plug after] in Hplug, Ha. rewrite app_nil_r in Ha.
  rewrite Hb. unfold points. rewrite <- Ha.
  assert (Hfuel : length (to_vector rm ++ after c') + 2
                  <= S (count (Node d l r))).
  { rewrite count_idents. unfold idents. rewrite length_map, <- Ha.
    cbn [length]. lia. }
  revert Hfuel. generalize (S (count (Node d l r))). intros fuel Hfuel.
  rewrite <- Hplug in Hwf |- *.
  now apply walk with (n := length (to_vector rm ++ after c')).
Qed.

End Walk.
(** ** Well-formedness is kept *)

Section WellFormed.

Import kdtree Inv.

Lemma max_addr_bound (t : tree) (a : addr) : In a (addrs t) -> a <= max_addr t.
Proof.
  induction t as [|d l IHl r IHr]; [contradiction|].
  rewrite addrs_node. cbn [max_addr]. intros H.
  apply in_app_or in H. destruct H as [H|[H|H]].
  - specialize (IHl H). lia.
  - subst. lia.
  - specialize (IHr H). lia.
Qed.

Lemma fresh_addr_new (t : tree) : ~ In (fresh_addr t) (addrs t).
Proof.
  intros H. apply max_addr_bound in H. unfold fresh_addr in H. lia.
Qed.

Lemma parent_update_data (d : NodeData) (l r : tree) :
  parent (update_data d l r) = parent d.
Proof. unfold update_data. destruct l, r; reflexivity. Qed.

Lemma self_update_data (d : NodeData) (l r : tree) :
  self (update_data d l r) = self d.
Proof. unfold update_data. destruct l, r; reflexivity. Qed.

Lemma point_update_data (d : NodeData) (l r : tree) :
  point (update_data d l r) = point d.
Proof. unfold update_data. destruct l, r; reflexivity. Qed.

Lemma parents_set_parent_of (p q : option addr) (t : tree) :
  parents_ok q t -> parents_ok p (set_parent_of t p).
Proof. destruct t; cbn; tauto. Qed.

Lemma parents_adopt (p : addr) (t : tree) : parents_ok (Some p) (adopt p t).
Proof.
  revert p. induction t as [|d l IHl r IHr]; intros p; cbn; auto.
Qed.

Lemma insert_parents (fresh : addr) (pt : Point) (root : tree) (c : bool) :
  forall p, parents_ok p root ->
  parents_ok (match root with Null => None | Node _ _ _ => p end)
             (fst (insert fresh root pt c)).
Proof.
  revert root c.
  apply (@insert_cases fresh pt
           (fun root c res =>
              forall p, parents_ok p root ->
              parents_ok (match root with Null => None | Node _ _ _ => p end)
                         (fst res))).
  - intros c p _. cbn. auto.
  - intros d l r c E p H. exact H.
  - intros d l r c to res E L I IH to' d' p (Hp & Hl & Hr). cbn [fst] in *.
    cbn [parents_ok]. subst d'. rewrite parent_update_data, self_update_data.
    split; [exact Hp|]. split; [|exact Hr].
    subst to'. eapply parents_set_parent_of. apply IH. exact Hl.
  - intros d l r c to res E L I IH to' d' p (Hp & Hl & Hr). cbn [fst] in *.
    cbn [parents_ok]. subst d'. rewrite parent_update_data, self_update_data.
    split; [exact Hp|]. split; [exact Hl|].
    subst to'. eapply parents_set_parent_of. apply IH. exact Hr.
Qed.

Lemma rebuild_slot_parents (c : bool) (p : option addr) (t t' : tree) :
  parents_ok p t -> rebuild_slot c t = Some t' -> parents_ok p t'.
Proof.
  destruct t as [|d l r]; [discriminate|]. intros (Hp & _ & _).
  unfold rebuild_slot.
  destruct (rebuild_tree (Node d l r) c) as [|d' l' r']; [discriminate|].
  cbn [set_parents]. intros H. injection H as <-. cbn [parents_ok parent set_parent self].
  split; [exact Hp|]. split; apply parents_adopt.
Qed.

Lemma update_slot_parents (c : bool) (s : slot) :
  forall p root root',
    parents_ok p root ->
    update_slot root s (rebuild_slot c) = Some root' ->
    parents_ok p root'.
Proof.
  induction s as [|b s IH]; intros p root root' Hp H; cbn [update_slot] in H.
  - now apply rebuild_slot_parents with c root.
  - destruct root as [|d l r]; [discriminate|].
    destruct Hp as (Hp & Hl & Hr). destruct b.
    + destruct (update_slot l s (rebuild_slot c)) as [l'|] eqn:E; [|discriminate].
      injection H as <-. cbn [parents_ok]. eauto.
    + destruct (update_slot r s (rebuild_slot c)) as [r'|] eqn:E; [|discriminate].
      injection H as <-. cbn [parents_ok]. eauto.
Qed.

Lemma put_parents (m_root t : tree) (pt : Point) :
  parents_ok None m_root -> put m_root pt = Some t -> parents_ok None t.
Proof.
  intros Hp. unfold put.
  pose proof (@insert_parents (fresh_addr m_root) pt m_root true None Hp) as Hi.
  destruct (insert (fresh_addr m_root) m_root pt true) as [root res].
  cbn [fst] in Hi.
  assert (Hroot : parents_ok None root) by (destruct m_root; exact Hi).
  destruct res as [[s c]|].
  - now apply update_slot_parents.
  - intros H. now injection H as <-.
Qed.

(** [put] keeps a point set well formed. *)
Lemma put_wf (m_root t : tree) (pt : Point) :
  wf m_root -> put m_root pt = Some t -> wf t.
Proof.
  intros [Hnd Hp] Hput. split; [|now apply put_parents with m_root pt].
  destruct (put_idents m_root pt) as (t' & Ht' & Hperm).
  rewrite Hput in Ht'. injection Ht' as <-.
  rewrite addrs_idents.
  apply Permutation_map with (f := fst) in Hperm.
  apply Permutation_sym in Hperm. apply (Permutation_NoDup Hperm).
  destruct (contains m_root pt); cbn [map fst];
    rewrite <- addrs_idents; [exact Hnd|].
  constructor; [apply fresh_addr_new | exact Hnd].
Qed.

(** *** The constructors *)

Lemma make_nodes_self (points : list Point) (a : addr) :
  map self (make_nodes a points) = seq a (length points).
Proof.
  revert a. induction points as [|p points IH]; intros a; cbn; [reflexivity|].
  now rewrite IH.
Qed.

Lemma make_nodes_parent (points : list Point) (a : addr) :
  Forall (fun d => parent d = None) (make_nodes a points).
Proof.
  revert a. induction points as [|p points IH]; intros a; cbn;
    constructor; auto.
Qed.

(** The root [build_tree] returns for a non-empty vector is one of the
    given nodes, with its data updated. *)
Lemma build_tree_root (nodes : list NodeData) (c : bool) :
  nodes <> [] ->
  exists d0 l r,
    In d0 nodes /\ build_tree nodes c = Node (update_data d0 l r) l r.
Proof.
  intros Hne. unfold build_tree.
  destruct nodes as [|d0 rest]; [congruence|].
  cbn [length build_tree_fuel].
  destruct (@build_split c d0 (d0 :: rest) Hne) as (Hm & _ & _ & _).
  set (sorted := sort (less_node c) (d0 :: rest)) in *.
  set (m := shift_median c d0 sorted (length sorted / 2)) in *.
  do 3 eexists. split; [|reflexivity].
  apply Permutation_in with sorted; [apply sort_perm|].
  apply nth_In. unfold sorted.
  rewrite (Permutation_length (sort_perm (less_node c) (d0 :: rest))).
  exact Hm.
Qed.

Lemma from_file_wf (input : list Point) (ps : tree) :
  from_file input = Some ps -> wf ps.
Proof.
  unfold from_file.
  set (pts := point_set input).
  intros H.
  destruct (make_nodes 0 pts) as [|n0 ns] eqn:En; [discriminate H|].
  destruct (@build_tree_root (n0 :: ns) true) as (d0 & l & r & Hin & Hb);
    [discriminate|].
  pose proof (build_tree_idents (n0 :: ns) true) as Hperm.
  rewrite Hb in H, Hperm. cbn [set_parents] in H. injection H as <-.
  split.
  - rewrite addrs_idents, idents_node, !idents_adopt, <- idents_node.
    apply Permutation_map with (f := fst) in Hperm.
    apply Permutation_sym in Hperm. apply (Permutation_NoDup Hperm).
    rewrite map_map. change (fun x => fst (ident x)) with self.
    rewrite <- En, make_nodes_self. apply seq_NoDup.
  - cbn [parents_ok]. rewrite parent_update_data.
    split; [|split; apply parents_adopt].
    pose proof (make_nodes_parent pts 0) as Hall. rewrite En in Hall.
    rewrite Forall_forall in Hall. now apply Hall.
Qed.

Lemma idents_copy_node (base : addr) (t : tree) :
  addrs (copy_node base t) = map (Nat.add base) (addrs t).
Proof.
  induction t as [|d l IHl r IHr]; [reflexivity|].
  cbn [copy_node]. rewrite !addrs_node, IHl, IHr, map_app. reflexivity.
Qed.

Lemma points_copy_node (base : addr) (t : tree) :
  points (copy_node base t) = points t.
Proof.
  unfold points.
  induction t as [|d l IHl r IHr]; [reflexivity|].
  cbn [copy_node to_vector]. rewrite !map_app. cbn [map point].
  now rewrite IHl, IHr.
Qed.

Lemma NoDup_map_add (base : nat) (l : list nat) :
  NoDup l -> NoDup (map (Nat.add base) l).
Proof.
  induction 1 as [|a l Hnin Hnd IH]; cbn; constructor; [|exact IH].
  rewrite in_map_iff. intros (b & Hb & Hin).
  assert (b = a) by lia. now subst.
Qed.

Lemma copy_wf (other ps : tree) :
  wf other -> copy other = Some ps -> wf ps.
Proof.
  intros [Hnd _]. unfold copy.
  destruct other as [|d l r]; [discriminate|].
  cbn [copy_node set_parents]. intros H. injection H as <-.
  split.
  - rewrite addrs_idents, idents_node, !idents_adopt, <- idents_node,
      <- addrs_idents.
    change (NoDup (addrs (copy_node (fresh_addr (Node d l r)) (Node d l r)))).
    rewrite idents_copy_node. now apply NoDup_map_add.
  - cbn [parents_ok parent]. split; [reflexivity|]. split; apply parents_adopt.
Qed.

(** Every point set the interface produces is well formed. *)
Lemma reachable_wf (ps : tree) : reachable ps -> wf ps.
Proof.
  induction 1 as [|input ps H|other ps _ IH H|ps pt ps' _ IH H].
  - split; [constructor | exact I].
  - now apply from_file_wf with input.
  - now apply copy_wf with other.
  - now apply put_wf with ps pt.
Qed.

Lemma built_reachable (ps : tree) : built ps -> reachable ps.
Proof.
  induction 1 as [|input ps H|ps pt ps' _ IH H].
  - constructor.
  - now apply reach_file with input.
  - now apply reach_put with ps pt.
Qed.

End WellFormed.
(** ** Sorting and the order of a built tree *)

Section SortSorted.

Import kdtree Inv.

Variable A : Type.
Variable lt : A -> A -> bool.
Variable ok : A -> Prop.

Hypothesis lt_asym : forall a b, lt a b = true -> lt b a = false.
Hypothesis lt_negtrans :
  forall a b c, ok a -> ok b -> ok c ->
                lt b a = false -> lt c b = false -> lt c a = false.

Lemma sort_insert_In (a b : A) (l : list A) :
  In b (sort_insert lt a l) -> b = a \/ In b l.
Proof.
  intros H. apply (Permutation_in b (sort_insert_perm lt a l)) in H.
  destruct H; auto.
Qed.

Lemma sort_insert_sorted (a : A) (l : list A) :
  ok a -> Forall ok l -> sorted_by lt l -> sorted_by lt (sort_insert lt a l).
Proof.
  intros Ha Hok Hs. induction Hs as [|b l Hs IH Hb]; cbn.
  - constructor; constructor.
  - inversion Hok as [|? ? Hokb Hokl]; subst.
    destruct (lt b a) eqn:E.
    + constructor; [now apply IH|].
      rewrite Forall_forall in *. intros x Hx.
      apply sort_insert_In in Hx. destruct Hx as [->|Hx];
        [now apply lt_asym | now apply Hb].
    + constructor; [now constructor|].
      constructor; [exact E|].
      rewrite Forall_forall in *. intros x Hx.
      apply lt_negtrans with b; auto.
Qed.

Lemma sort_sorted (l : list A) : Forall ok l -> sorted_by lt (sort lt l).
Proof.
  induction 1 as [|a l Ha Hl IH]; cbn; [constructor|].
  apply sort_insert_sorted; trivial.
  apply (Permutation_Forall (Permutation_sym (sort_perm lt l)) Hl).
Qed.

Lemma sorted_app_l (l1 l2 : list A) : sorted_by lt (l1 ++ l2) -> sorted_by lt l1.
Proof.
  induction l1 as [|a l1 IH]; cbn; intros H; [constructor|].
  inversion H as [|? ? Hs Hall]; subst.
  constructor; [now apply IH|].
  apply Forall_app in Hall. tauto.
Qed.

Lemma sorted_app_r (l1 l2 : list A) : sorted_by lt (l1 ++ l2) -> sorted_by lt l2.
Proof.
  induction l1 as [|a l1 IH]; cbn; intros H; [exact H|].
  inversion H; subst. now apply IH.
Qed.

(** The last element of a sorted sequence is below none of the others. *)
Lemma sorted_last (l : list A) (y : A) :
  sorted_by lt (l ++ [y]) -> Forall (fun a => lt y a = false) l.
Proof.
  induction l as [|a l IH]; cbn; intros H; [constructor|].
  inversion H as [|? ? Hs Hall]; subst.
  constructor; [|now apply IH].
  apply Forall_app in Hall. destruct Hall as [_ Hy].
  now inversion Hy.
Qed.

End SortSorted.

Section SortMedian.

Import kdtree Inv.

Variable A : Type.
Variable lt : A -> A -> bool.
Variable ok : A -> Prop.

Hypothesis lt_mixed :
  forall a y x, ok a -> lt y a = false -> lt y x = true -> lt a x = true.

Lemma firstn_snoc (l : list A) (m : nat) (d : A) :
  m < length l -> firstn (S m) l = firstn m l ++ [nth m l d].
Proof.
  revert m. induction l as [|a l IH]; intros m H; cbn in H; [lia|].
  destruct m as [|m]; [reflexivity|].
  cbn [firstn nth app]. f_equal. rewrite <- IH by lia. reflexivity.
Qed.

(** In a sorted sequence, everything before a position whose predecessor
    is strictly below it is strictly below it. *)
Lemma sorted_before (l : list A) (m : nat) (d : A) :
  sorted_by lt l -> Forall ok l -> m < length l ->
  (m = 0 \/ exists m', m = S m' /\ lt (nth m' l d) (nth m l d) = true) ->
  Forall (fun a => lt a (nth m l d) = true) (firstn m l).
Proof.
  intros Hs Hok Hm [->|(m' & -> & Hlt)]; [constructor|].
  rewrite (firstn_snoc l d) by lia.
  apply Forall_app. split; [|constructor; [exact Hlt | constructor]].
  assert (Hpre : sorted_by lt (firstn m' l ++ [nth m' l d])).
  { rewrite <- (firstn_snoc l d) by lia.
    apply sorted_app_l with (skipn (S m') l). now rewrite firstn_skipn. }
  apply sorted_last in Hpre.
  assert (Hok' : Forall ok (firstn m' l)).
  { rewrite Forall_forall in *. intros a Ha. apply Hok.
    rewrite <- (firstn_skipn m' l). apply in_or_app. now left. }
  rewrite Forall_forall in *. intros a Ha.
  apply lt_mixed with (nth m' l d); auto.
Qed.

(** In a sorted sequence, nothing after a position is below it. *)
Lemma sorted_after (l : list A) (m : nat) (d : A) :
  sorted_by lt l -> m < length l ->
  Forall (fun a => lt a (nth m l d) = false) (skipn (S m) l).
Proof.
  intros Hs Hm. rewrite (split_at l d Hm) in Hs.
  apply sorted_app_r in Hs. now inversion Hs.
Qed.

End SortMedian.

Section KdOrder.

Import kdtree Inv FloatOrder.

Lemma less_asym (c : bool) (p q : Point) :
  less p q c = true -> less q p c = false.
Proof. unfold less. destruct c; apply ltb_asym. Qed.

Lemma less_negtrans (c : bool) (p q r : Point) :
  point_ok p -> point_ok q -> point_ok r ->
  less q p c = false -> less r q c = false -> less r p c = false.
Proof.
  unfold less. intros [] [] []. destruct c; now apply not_ltb_trans.
Qed.

Lemma less_mixed (c : bool) (p q r : Point) :
  point_ok p -> less q p c = false -> less q r c = true -> less p r c = true.
Proof.
  unfold less. intros []. destruct c; now apply not_ltb_ltb_trans.
Qed.

Lemma shift_median_spec (c : bool) (d0 : NodeData) (l : list NodeData) (m0 : nat) :
  let m := shift_median c d0 l m0 in
  m = 0 \/ exists m', m = S m' /\ less_node c (nth m' l d0) (nth m l d0) = true.
Proof.
  induction m0 as [|m0 IH]; cbn; [now left|].
  destruct (less_node c (nth m0 l d0) (nth (S m0) l d0)) eqn:E; [|exact IH].
  right. exists m0. split; [reflexivity | exact E].
Qed.

Lemma points_build_tree_fuel (fuel : nat) (nodes : list NodeData) (c : bool) :
  length nodes <= fuel ->
  Permutation (points (build_tree_fuel fuel nodes c)) (map point nodes).
Proof.
  intros H. rewrite points_idents.
  pose proof (@build_tree_fuel_idents fuel nodes c H) as Hp.
  apply (Permutation_map snd) in Hp. now rewrite map_map in Hp.
Qed.

Lemma build_tree_fuel_kd (fuel : nat) :
  forall nodes c,
    length nodes <= fuel -> Forall node_ok nodes ->
    kd_ok c (build_tree_fuel fuel nodes c).
Proof.
  induction fuel as [|fuel IH]; intros nodes c Hlen Hok; [exact I|].
  destruct nodes as [|d0 rest]; [exact I|].
  cbn [build_tree_fuel].
  destruct (@build_split c d0 (d0 :: rest)) as (Hm & Hsplit & Hl & Hr);
    [discriminate|].
  set (nodes := d0 :: rest) in *.
  set (sorted := sort (less_node c) nodes) in *.
  set (m := shift_median c d0 sorted (length sorted / 2)) in *.
  assert (Hn : length nodes <= S fuel) by exact Hlen.
  assert (Hlens : length sorted = length nodes)
    by apply Permutation_length, sort_perm.
  assert (Hoks : Forall node_ok sorted)
    by apply (Permutation_Forall (Permutation_sym (sort_perm _ nodes)) Hok).
  assert (Hsorted : sorted_by (less_node c) sorted).
  { apply sort_sorted with (ok := node_ok); trivial.
    - intros a b. apply less_asym.
    - intros a b x. apply less_negtrans. }
  assert (Hokl : Forall node_ok (firstn m sorted)).
  { rewrite Forall_forall in *. intros a Ha. apply Hoks.
    rewrite <- (firstn_skipn m sorted). apply in_or_app. now left. }
  assert (Hokr : Forall node_ok (skipn (S m) sorted)).
  { rewrite Forall_forall in *. intros a Ha. apply Hoks.
    rewrite <- (firstn_skipn (S m) sorted). apply in_or_app. now right. }
  cbn [kd_ok]. rewrite point_update_data.
  split; [|split; [|split; apply IH; trivial; lia]].
  - eapply Permutation_Forall;
      [apply Permutation_sym, points_build_tree_fuel; lia|].
    apply Forall_map.
    change (Forall (fun a => less_node c a (nth m sorted d0) = true)
                   (firstn m sorted)).
    apply sorted_before with (ok := node_ok); trivial; [|lia|].
    + intros a y x. apply less_mixed.
    + apply shift_median_spec.
  - eapply Permutation_Forall;
      [apply Permutation_sym, points_build_tree_fuel; lia|].
    apply Forall_map.
    change (Forall (fun a => less_node c a (nth m sorted d0) = false)
                   (skipn (S m) sorted)).
    apply sorted_after; [exact Hsorted | lia].
Qed.

End KdOrder.
(** ** Invariants along the slot that is rebuilt *)

Section SlotInvariant.

Import kdtree Inv.

(** An invariant [Good] of subtrees, indexed by the axis, and a relation
    [Like] between a subtree and its replacement that is all a parent
    needs to stay good. *)
Variable Good : bool -> tree -> Prop.
Variable Like : tree -> tree -> Prop.

Hypothesis Good_left :
  forall c d l l' r,
    Good c (Node d l r) -> Good (negb c) l' -> Like l l' ->
    Good c (Node d l' r) /\ Like (Node d l r) (Node d l' r).
Hypothesis Good_right :
  forall c d l r r',
    Good c (Node d l r) -> Good (negb c) r' -> Like r r' ->
    Good c (Node d l r') /\ Like (Node d l r) (Node d l r').
Hypothesis Good_children :
  forall c d l r, Good c (Node d l r) -> Good (negb c) l /\ Good (negb c) r.

Lemma update_slot_good (f : tree -> option tree) (s : slot) :
  forall c root root',
    Good c root ->
    (forall t t', Good (axis_at c s) t -> f t = Some t' ->
                  Good (axis_at c s) t' /\ Like t t') ->
    update_slot root s f = Some root' ->
    Good c root' /\ Like root root'.
Proof.
  induction s as [|b s IH]; intros c root root' Hg Hf H;
    cbn [update_slot axis_at] in *.
  - now apply Hf.
  - destruct root as [|d l r]; [discriminate|].
    destruct (Good_children Hg) as [Hl Hr]. destruct b.
    + destruct (update_slot l s f) as [l'|] eqn:E; [|discriminate].
      injection H as <-.
      destruct (IH _ _ _ Hl Hf E). now apply Good_left.
    + destruct (update_slot r s f) as [r'|] eqn:E; [|discriminate].
      injection H as <-.
      destruct (IH _ _ _ Hr Hf E). now apply Good_right.
Qed.

End SlotInvariant.

Section Axis.

Import kdtree Inv.

(** The axis [insert] reports is the axis of the slot it reports. *)
Lemma insert_axis (fresh : addr) (pt : Point) (root : tree) (c : bool) :
  forall s c', snd (insert fresh root pt c) = Some (s, c') -> c' = axis_at c s.
Proof.
  revert root c.
  apply (@insert_cases fresh pt
           (fun root c res =>
              forall s c', snd res = Some (s, c') -> c' = axis_at c s)).
  - discriminate.
  - discriminate.
  - intros d l r c to res E L I IH to' d' s c'. cbn [fst snd] in *.
    destruct (balanced_at d' to' r).
    + destruct res as [[s0 c0]|]; cbn; [|discriminate].
      intros H. injection H as <- <-. cbn [axis_at]. now apply IH.
    + intros H. now injection H as <- <-.
  - intros d l r c to res E L I IH to' d' s c'. cbn [fst snd] in *.
    destruct (balanced_at d' l to').
    + destruct res as [[s0 c0]|]; cbn; [|discriminate].
      intros H. injection H as <- <-. cbn [axis_at]. now apply IH.
    + intros H. now injection H as <- <-.
Qed.

End Axis.

Section Sizes.

Import kdtree Inv.

Lemma size_update_data (d : NodeData) (l r : tree) :
  size (update_data d l r) = 1 + get_size l + get_size r.
Proof. unfold update_data. destruct l, r; reflexivity. Qed.

Lemma get_size_set_parent_of (t : tree) (p : option addr) :
  get_size (set_parent_of t p) = get_size t.
Proof. now destruct t. Qed.

Lemma sizes_set_parent_of (t : tree) (p : option addr) :
  sizes_ok t -> sizes_ok (set_parent_of t p).
Proof. destruct t; cbn; tauto. Qed.

Lemma get_size_adopt (p : addr) (t : tree) : get_size (adopt p t) = get_size t.
Proof. now destruct t. Qed.

Lemma sizes_adopt (p : addr) (t : tree) : sizes_ok t -> sizes_ok (adopt p t).
Proof.
  revert p. induction t as [|d l IHl r IHr]; intros p; cbn; [tauto|].
  rewrite !get_size_adopt. intuition.
Qed.

Lemma sizes_count (t : tree) : sizes_ok t -> get_size t = count t.
Proof.
  induction t as [|d l IHl r IHr]; cbn; [reflexivity|].
  intros (H & Hl & Hr). rewrite H, IHl, IHr by assumption. lia.
Qed.

Lemma insert_sizes (fresh : addr) (pt : Point) (root : tree) (c : bool) :
  sizes_ok root -> sizes_ok (fst (insert fresh root pt c)).
Proof.
  revert root c.
  apply (@insert_cases fresh pt
           (fun root c res => sizes_ok root -> sizes_ok (fst res))).
  - intros c _. cbn. auto.
  - intros d l r c E H. exact H.
  - intros d l r c to res E L I IH to' d' (H & Hl & Hr). cbn [fst] in *.
    cbn [sizes_ok]. subst d'. rewrite size_update_data.
    split; [reflexivity|]. split; [|exact Hr].
    subst to'. apply sizes_set_parent_of. now apply IH.
  - intros d l r c to res E L I IH to' d' (H & Hl & Hr). cbn [fst] in *.
    cbn [sizes_ok]. subst d'. rewrite size_update_data.
    split; [reflexivity|]. split; [exact Hl|].
    subst to'. apply sizes_set_parent_of. now apply IH.
Qed.

Lemma build_tree_fuel_sizes (fuel : nat) :
  forall nodes c, sizes_ok (build_tree_fuel fuel nodes c).
Proof.
  induction fuel as [|fuel IH]; intros nodes c; [exact I|].
  destruct nodes as [|d0 rest]; [exact I|].
  cbn [build_tree_fuel sizes_ok]. rewrite size_update_data.
  split; [reflexivity|]. split; apply IH.
Qed.

Lemma count_build_tree (nodes : list NodeData) (c : bool) :
  count (build_tree nodes c) = length nodes.
Proof.
  rewrite count_idents.
  rewrite (Permutation_length (build_tree_idents nodes c)).
  apply length_map.
Qed.

Lemma count_to_vector (t : tree) : length (to_vector t) = count t.
Proof. rewrite count_idents. unfold idents. now rewrite length_map. Qed.

Lemma rebuild_slot_sizes (c : bool) (t t' : tree) :
  sizes_ok t -> rebuild_slot c t = Some t' ->
  sizes_ok t' /\ get_size t = get_size t'.
Proof.
  intros Hs. destruct t as [|d l r]; [discriminate|]. unfold rebuild_slot.
  destruct (rebuild_tree (Node d l r) c) as [|d' l' r'] eqn:E; [discriminate|].
  cbn [set_parents]. intros H. injection H as <-.
  pose proof (build_tree_fuel_sizes (length (to_vector (Node d l r)))
                (to_vector (Node d l r)) c) as Hb.
  change (sizes_ok (rebuild_tree (Node d l r) c)) in Hb.
  pose proof (sizes_count _ Hb) as Hc.
  rewrite E in Hb, Hc. destruct Hb as (Hd & Hl & Hr).
  split.
  - cbn [sizes_ok size set_parent self]. rewrite !get_size_adopt.
    split; [exact Hd|]. split; now apply sizes_adopt.
  - rewrite (sizes_count _ Hs). cbn [get_size size set_parent].
    cbn [get_size] in Hc. rewrite Hc, <- E.
    unfold rebuild_tree, move_to_vector.
    now rewrite count_build_tree, count_to_vector.
Qed.

(** [put] keeps the size fields right. *)
Lemma put_sizes (m_root t : tree) (pt : Point) :
  sizes_ok m_root -> put m_root pt = Some t -> sizes_ok t.
Proof.
  intros Hs. unfold put.
  pose proof (@insert_sizes (fresh_addr m_root) pt m_root true Hs) as Hi.
  destruct (insert (fresh_addr m_root) m_root pt true) as [root res].
  cbn [fst] in Hi. destruct res as [[s c]|].
  - intros H.
    apply (@update_slot_good (fun _ => sizes_ok)
             (fun a b => get_size a = get_size b)) with (c := true) in H;
      [tauto | | | | exact Hi |].
    + intros _ d l l' r (H1 & H2 & H3) Hl' E. cbn [sizes_ok get_size].
      rewrite <- E. tauto.
    + intros _ d l r r' (H1 & H2 & H3) Hr' E. cbn [sizes_ok get_size].
      rewrite <- E. tauto.
    + intros _ d l r (H1 & H2 & H3). tauto.
    + intros t0 t0' H0 Hr. now apply rebuild_slot_sizes with c.
  - intros H. now injection H as <-.
Qed.

Lemma from_file_sizes (input : list Point) (ps : tree) :
  from_file input = Some ps -> sizes_ok ps.
Proof.
  unfold from_file.
  set (nodes := make_nodes 0 _).
  pose proof (build_tree_fuel_sizes (length nodes) nodes true) as Hb.
  change (sizes_ok (build_tree nodes true)) in Hb.
  destruct (build_tree nodes true) as [|d l r]; [discriminate|].
  cbn [set_parents]. intros H. injection H as <-.
  destruct Hb as (Hd & Hl & Hr). cbn [sizes_ok]. rewrite !get_size_adopt.
  split; [exact Hd|]. split; now apply sizes_adopt.
Qed.

(** The size fields of a set built without copying are right, and
    [size()] is the number of nodes. *)
Lemma built_sizes (ps : tree) : built ps -> sizes_ok ps.
Proof.
  induction 1 as [|input ps H|ps pt ps' _ IH H].
  - exact I.
  - now apply from_file_sizes with input.
  - now apply put_sizes with ps pt.
Qed.

End Sizes.
(** ** The order of the tree through put *)

Section KdPut.

Import kdtree Inv FloatOrder.

Lemma points_node (d : NodeData) (l r : tree) :
  points (Node d l r) = points l ++ point d :: points r.
Proof. unfold points. cbn. now rewrite map_app. Qed.

Lemma points_set_parent_of (t : tree) (p : option addr) :
  points (set_parent_of t p) = points t.
Proof. now rewrite !points_idents, idents_set_parent_of. Qed.

Lemma points_adopt (p : addr) (t : tree) : points (adopt p t) = points t.
Proof. now rewrite !points_idents, idents_adopt. Qed.

Lemma insert_points_in (fresh : addr) (pt : Point) (root : tree) (c : bool)
  (q : Point) :
  In q (points (fst (insert fresh root pt c))) -> q = pt \/ In q (points root).
Proof.
  rewrite !points_idents.
  pose proof (insert_idents fresh pt root c) as H.
  destruct (contains_from root pt c).
  - rewrite H. auto.
  - destruct H as (l1 & l2 & -> & ->). rewrite !map_app. cbn [map snd].
    intros Hin. apply in_app_or in Hin.
    destruct Hin as [Hin|[Hin|Hin]]; auto; right; apply in_or_app; auto.
Qed.

Lemma kd_set_parent_of (c : bool) (t : tree) (p : option addr) :
  kd_ok c t -> kd_ok c (set_parent_of t p).
Proof. destruct t; cbn; tauto. Qed.

Lemma kd_adopt (c : bool) (t : tree) (p : addr) :
  kd_ok c t -> kd_ok c (adopt p t).
Proof.
  revert c p. induction t as [|d l IHl r IHr]; intros c p; cbn [adopt kd_ok];
    [tauto|].
  rewrite !points_adopt. cbn [point set_parent]. intuition.
Qed.

Lemma insert_kd (fresh : addr) (pt : Point) (root : tree) (c : bool) :
  kd_ok c root -> kd_ok c (fst (insert fresh root pt c)).
Proof.
  revert root c.
  apply (@insert_cases fresh pt
           (fun root c res => kd_ok c root -> kd_ok c (fst res))).
  - intros c _. cbn. auto.
  - intros d l r c E H. exact H.
  - intros d l r c to res E L I IH to' d' (Hl & Hr & Kl & Kr). cbn [fst] in *.
    cbn [kd_ok]. subst d'. rewrite point_update_data. subst to'.
    rewrite points_set_parent_of.
    split; [|split; [exact Hr|split; [|exact Kr]]].
    + rewrite Forall_forall in *. intros q Hq.
      replace to with (fst (insert fresh l pt (negb c))) in Hq by now rewrite I.
      apply insert_points_in in Hq. destruct Hq as [->|Hq]; auto.
    + apply kd_set_parent_of. now apply IH.
  - intros d l r c to res E L I IH to' d' (Hl & Hr & Kl & Kr). cbn [fst] in *.
    cbn [kd_ok]. subst d'. rewrite point_update_data. subst to'.
    rewrite points_set_parent_of.
    split; [exact Hl|split; [|split; [exact Kl|]]].
    + rewrite Forall_forall in *. intros q Hq.
      replace to with (fst (insert fresh r pt (negb c))) in Hq by now rewrite I.
      apply insert_points_in in Hq. destruct Hq as [->|Hq]; auto.
    + apply kd_set_parent_of. now apply IH.
Qed.

Lemma rebuild_slot_kd (c : bool) (t t' : tree) :
  Forall point_ok (points t) -> rebuild_slot c t = Some t' ->
  kd_ok c t' /\ Permutation (points t) (points t').
Proof.
  intros Hok. destruct t as [|d l r]; [discriminate|].
  intros H. pose proof (@rebuild_slot_idents _ _ _ H) as Hperm.
  apply (Permutation_map snd) in Hperm. rewrite <- !points_idents in Hperm.
  split; [|now apply Permutation_sym].
  revert H. unfold rebuild_slot.
  destruct (rebuild_tree (Node d l r) c) as [|d' l' r'] eqn:E; [discriminate|].
  cbn [set_parents]. intros H. injection H as <-.
  assert (Hk : kd_ok c (rebuild_tree (Node d l r) c)).
  { apply build_tree_fuel_kd; [lia|].
    unfold move_to_vector. unfold points in Hok.
    rewrite Forall_map in Hok. exact Hok. }
  rewrite E in Hk. destruct Hk as (Hl & Hr & Kl & Kr).
  cbn [kd_ok point set_parent self]. rewrite !points_adopt.
  repeat split; trivial; now apply kd_adopt.
Qed.

(** [put] keeps the order of the tree. *)
Lemma put_kd (m_root t : tree) (pt : Point) :
  kd_ok true m_root -> Forall point_ok (points m_root) -> point_ok pt ->
  put m_root pt = Some t -> kd_ok true t.
Proof.
  intros Hk Hok Hpt. unfold put.
  pose proof (@insert_kd (fresh_addr m_root) pt m_root true Hk) as Hi.
  pose proof (@insert_axis (fresh_addr m_root) pt m_root true) as Ha.
  assert (Hoki : Forall point_ok
                   (points (fst (insert (fresh_addr m_root) m_root pt true)))).
  { rewrite Forall_forall in *. intros q Hq.
    apply insert_points_in in Hq. destruct Hq as [->|Hq]; auto. }
  destruct (insert (fresh_addr m_root) m_root pt true) as [root res].
  cbn [fst snd] in *. destruct res as [[s c]|].
  - intros H. specialize (Ha s c eq_refl). subst c.
    apply (@update_slot_good
             (fun c t => kd_ok c t /\ Forall point_ok (points t))
             (fun a b => Permutation (points a) (points b)))
      with (c := true) in H; [tauto | | | | tauto |].
    + intros c d l l' r ((Hl & Hr & Kl & Kr) & Hall) (Kl' & Hall') Hp.
      rewrite !points_node in *. cbn [kd_ok].
      apply Forall_app in Hall. destruct Hall as (_ & Hall).
      repeat split; trivial.
      * now apply (Permutation_Forall Hp).
      * apply Forall_app. now split.
      * now apply Permutation_app_tail.
    + intros c d l r r' ((Hl & Hr & Kl & Kr) & Hall) (Kr' & Hall') Hp.
      rewrite !points_node in *. cbn [kd_ok].
      apply Forall_app in Hall. destruct Hall as (Hall & Hd).
      inversion Hd; subst.
      repeat split; trivial.
      * now apply (Permutation_Forall Hp).
      * apply Forall_app. split; [exact Hall | now constructor].
      * now apply Permutation_app_head, perm_skip.
    + intros c d l r ((Hl & Hr & Kl & Kr) & Hall).
      rewrite points_node in Hall.
      apply Forall_app in Hall. destruct Hall as (Hall & Hd).
      inversion Hd; subst. tauto.
    + intros t0 t0' (K0 & Hall0) Hr.
      destruct (@rebuild_slot_kd _ _ _ Hall0 Hr) as (K1 & Hp).
      split; [split|]; trivial. now apply (Permutation_Forall Hp).
  - intros H. now injection H as <-.
Qed.

(** *** What [contains] finds *)

Lemma contains_from_sound (t : tree) (p : Point) (c : bool) :
  contains_from t p c = true ->
  exists q, In q (points t) /\ PointOps.eqb q p = true.
Proof.
  revert c. induction t as [|d l IHl r IHr]; intros c; cbn [contains_from];
    [discriminate|].
  rewrite points_node.
  destruct (PointOps.eqb (point d) p) eqn:E.
  - intros _. exists (point d). split; [|exact E].
    apply in_or_app. right. now left.
  - destruct (less p (point d) c); intros H.
    + destruct (IHl _ H) as (q & Hq & Hqp). exists q. split; [|exact Hqp].
      apply in_or_app. now left.
    + destruct (IHr _ H) as (q & Hq & Hqp). exists q. split; [|exact Hqp].
      apply in_or_app. right. now right.
Qed.

(** In an ordered tree, the descent for [p] passes every stored point
    that has the coordinates of [p]. *)
Lemma contains_from_complete (t : tree) (p q : Point) (c : bool) :
  kd_ok c t -> In q (points t) -> same_point q p ->
  PointOps.eqb q p = true -> contains_from t p c = true.
Proof.
  intros Hk Hin Hsame Heq. revert c Hk Hin.
  induction t as [|d l IHl r IHr]; intros c Hk Hin; [contradiction|].
  cbn [contains_from]. rewrite points_node in Hin.
  destruct Hk as (Hl & Hr & Kl & Kr).
  destruct (PointOps.eqb (point d) p) eqn:E; [reflexivity|].
  rewrite <- (less_same_point c (point d) Hsame).
  apply in_app_or in Hin. destruct Hin as [Hin|[Hin|Hin]].
  - rewrite Forall_forall in Hl. rewrite (Hl _ Hin). now apply IHl.
  - subst q. congruence.
  - rewrite Forall_forall in Hr. rewrite (Hr _ Hin). now apply IHr.
Qed.

End KdPut.
(** ** Bounding rectangles *)

Section Rects.

Import kdtree Inv FloatOrder.

Lemma rect_update_data (d : NodeData) (l r : tree) :
  rect (update_data d l r) = bounding (point d) l r.
Proof. unfold update_data, bounding. destruct l, r; reflexivity. Qed.

Lemma same_rect_refl (rc : Rect) : rect_defined rc -> same_rect rc rc.
Proof. intros [H1 H2]. split; now apply same_point_refl. Qed.

Lemma same_rect_sym (r s : Rect) : same_rect r s -> same_rect s r.
Proof. intros [H1 H2]. split; now apply same_point_sym. Qed.

Lemma same_rect_trans (r s t : Rect) :
  same_rect r s -> same_rect s t -> same_rect r t.
Proof. intros [H1 H2] [H3 H4]. split; eapply same_point_trans; eauto. Qed.

Lemma same_point_ok (p q : Point) : same_point p q -> point_ok p /\ point_ok q.
Proof.
  intros [Hx Hy]. destruct (feq_not_nan Hx), (feq_not_nan Hy).
  repeat split; assumption.
Qed.

Lemma same_rect_defined (r s : Rect) :
  same_rect r s -> rect_defined r /\ rect_defined s.
Proof.
  intros [H1 H2]. destruct (same_point_ok H1), (same_point_ok H2).
  split; split; assumption.
Qed.

Lemma update_rect_by_defined (rc : Rect) (t : tree) :
  rect_defined rc -> child_defined t -> rect_defined (update_rect_by rc t).
Proof.
  destruct t as [|d l r]; [trivial|].
  intros [[H1 H2] [H3 H4]] [[H5 H6] [H7 H8]].
  repeat split; cbn; apply min_not_nan || apply max_not_nan; assumption.
Qed.

Lemma bounding_defined (pt : Point) (l r : tree) :
  point_ok pt -> child_defined l -> child_defined r ->
  rect_defined (bounding pt l r).
Proof.
  intros Hp Hl Hr. unfold bounding.
  repeat apply update_rect_by_defined; trivial. now split.
Qed.

Lemma rects_child_defined (t : tree) : rects_ok t -> child_defined t.
Proof.
  destruct t as [|d l r]; [trivial|]. intros (H & _ & _).
  now destruct (same_rect_defined H).
Qed.

Lemma like_rect_refl (t : tree) : child_defined t -> like_rect t t.
Proof. destruct t; [trivial|]. apply same_rect_refl. Qed.

Lemma update_rect_by_like (rc rc' : Rect) (t t' : tree) :
  same_rect rc rc' -> like_rect t t' ->
  same_rect (update_rect_by rc t) (update_rect_by rc' t').
Proof.
  destruct t as [|d l r], t' as [|d' l' r']; try contradiction; [trivial|].
  intros [[H1 H2] [H3 H4]] [[H5 H6] [H7 H8]].
  repeat split; cbn; apply min_feq || apply max_feq; assumption.
Qed.

Lemma bounding_like (pt : Point) (l l' r r' : tree) :
  point_ok pt -> like_rect l l' -> like_rect r r' ->
  same_rect (bounding pt l r) (bounding pt l' r').
Proof.
  intros Hp Hl Hr. unfold bounding.
  repeat apply update_rect_by_like; trivial.
  apply same_rect_refl. now split.
Qed.

(** *** Rectangles as bounding boxes *)

Lemma is_bbox_single (pt : Point) : point_ok pt -> is_bbox (mkRect pt pt) [pt].
Proof.
  intros [Hx Hy].
  split; [|split; [|split]]; cbn;
    apply is_min_single || apply is_max_single; assumption.
Qed.

Lemma Forall_not_nan_x (pts : list Point) :
  Forall point_ok pts -> Forall not_nan (map m_x pts).
Proof.
  intros H. apply Forall_map. eapply Forall_impl; [|exact H].
  now intros p [Hx _].
Qed.

Lemma Forall_not_nan_y (pts : list Point) :
  Forall point_ok pts -> Forall not_nan (map m_y pts).
Proof.
  intros H. apply Forall_map. eapply Forall_impl; [|exact H].
  now intros p [_ Hy].
Qed.

Lemma update_rect_by_bbox (rc : Rect) (t : tree) (pts : list Point) :
  Forall point_ok pts -> Forall point_ok (points t) ->
  is_bbox rc pts -> root_bbox t ->
  is_bbox (update_rect_by rc t) (pts ++ points t).
Proof.
  intros Hp Ht Hrc Hroot. destruct t as [|d l r].
  - cbn. now rewrite app_nil_r.
  - destruct Hrc as (A1 & A2 & A3 & A4), Hroot as (B1 & B2 & B3 & B4).
    unfold is_bbox. rewrite !map_app. cbn [update_rect_by].
    split; [|split; [|split]];
      cbn [RectOps.xmin RectOps.ymin RectOps.xmax RectOps.ymax
           m_left_bottom m_right_top m_x m_y];
      apply is_min_app || apply is_max_app;
      auto using Forall_not_nan_x, Forall_not_nan_y.
Qed.

Lemma is_bbox_perm (rc : Rect) (pts pts' : list Point) :
  Permutation pts pts' -> is_bbox rc pts -> is_bbox rc pts'.
Proof.
  intros Hp (A1 & A2 & A3 & A4).
  split; [|split; [|split]].
  - eapply is_min_perm; [apply Permutation_map; exact Hp | exact A1].
  - eapply is_min_perm; [apply Permutation_map; exact Hp | exact A2].
  - eapply is_max_perm; [apply Permutation_map; exact Hp | exact A3].
  - eapply is_max_perm; [apply Permutation_map; exact Hp | exact A4].
Qed.

Lemma is_bbox_same (rc rc' : Rect) (pts : list Point) :
  Forall point_ok pts -> same_rect rc rc' -> is_bbox rc pts -> is_bbox rc' pts.
Proof.
  intros Hp [[H1 H2] [H3 H4]] (A1 & A2 & A3 & A4).
  split; [|split; [|split]].
  - apply is_min_feq with (3 := A1) (2 := H1); now apply Forall_not_nan_x.
  - apply is_min_feq with (3 := A2) (2 := H2); now apply Forall_not_nan_y.
  - apply is_max_feq with (3 := A3) (2 := H3); now apply Forall_not_nan_x.
  - apply is_max_feq with (3 := A4) (2 := H4); now apply Forall_not_nan_y.
Qed.

Lemma is_bbox_unique (rc rc' : Rect) (pts : list Point) :
  Forall point_ok pts -> is_bbox rc pts -> is_bbox rc' pts -> same_rect rc rc'.
Proof.
  intros Hp (A1 & A2 & A3 & A4) (B1 & B2 & B3 & B4).
  split; split.
  - apply is_min_unique with (3 := B1) (2 := A1); now apply Forall_not_nan_x.
  - apply is_min_unique with (3 := B2) (2 := A2); now apply Forall_not_nan_y.
  - apply is_max_unique with (3 := B3) (2 := A3); now apply Forall_not_nan_x.
  - apply is_max_unique with (3 := B4) (2 := A4); now apply Forall_not_nan_y.
Qed.

Lemma bounding_bbox (pt : Point) (l r : tree) :
  point_ok pt -> Forall point_ok (points l) -> Forall point_ok (points r) ->
  root_bbox l -> root_bbox r ->
  is_bbox (bounding pt l r) (points l ++ pt :: points r).
Proof.
  intros Hp Hl Hr Bl Br.
  apply is_bbox_perm with (([pt] ++ points l) ++ points r).
  - cbn [app]. apply Permutation_sym.
    apply Permutation_trans with (pt :: points l ++ points r);
      [apply Permutation_sym, Permutation_middle | apply Permutation_refl].
  - unfold bounding. apply update_rect_by_bbox; trivial.
    + apply Forall_app. split; [now constructor | exact Hl].
    + apply update_rect_by_bbox; trivial; [now constructor|].
      now apply is_bbox_single.
Qed.

(** In a tree whose rectangles are right, every rectangle bounds the
    points of its subtree. *)
Lemma rects_root_bbox (t : tree) :
  rects_ok t -> Forall point_ok (points t) -> root_bbox t.
Proof.
  induction t as [|d l IHl r IHr]; [trivial|].
  intros (H & Hl & Hr) Hok. cbn [root_bbox]. rewrite points_node in *.
  apply Forall_app in Hok. destruct Hok as [Hokl Hokr].
  inversion Hokr as [|? ? Hp Hokr']; subst.
  apply is_bbox_same with (bounding (point d) l r).
  - apply Forall_app. split; [exact Hokl | now constructor].
  - now apply same_rect_sym.
  - apply bounding_bbox; auto.
Qed.

End Rects.
(** ** Bounding rectangles through put *)

Section RectsPut.

Import kdtree Inv FloatOrder.

Lemma update_rect_by_adopt (rc : Rect) (p : addr) (t : tree) :
  update_rect_by rc (adopt p t) = update_rect_by rc t.
Proof. now destruct t. Qed.

Lemma bounding_adopt (pt : Point) (p q : addr) (l r : tree) :
  bounding pt (adopt p l) (adopt q r) = bounding pt l r.
Proof. unfold bounding. now rewrite !update_rect_by_adopt. Qed.

Lemma rects_set_parent_of (t : tree) (p : option addr) :
  rects_ok t -> rects_ok (set_parent_of t p).
Proof. destruct t; cbn; tauto. Qed.

Lemma rects_adopt (p : addr) (t : tree) : rects_ok t -> rects_ok (adopt p t).
Proof.
  revert p. induction t as [|d l IHl r IHr]; intros p; cbn [adopt rects_ok];
    [tauto|].
  cbn [rect point set_parent self]. rewrite bounding_adopt. intuition.
Qed.

Lemma node_rects_ok (d : NodeData) (l r : tree) :
  point_ok (point d) -> rects_ok l -> rects_ok r ->
  rects_ok (Node (update_data d l r) l r).
Proof.
  intros Hp Hl Hr. cbn [rects_ok].
  rewrite rect_update_data, point_update_data.
  split; [|tauto].
  apply same_rect_refl, bounding_defined; trivial;
    now apply rects_child_defined.
Qed.

Lemma insert_rects (fresh : addr) (pt : Point) (root : tree) (c : bool) :
  point_ok pt -> rects_ok root -> Forall point_ok (points root) ->
  rects_ok (fst (insert fresh root pt c)).
Proof.
  intros Hpt. revert root c.
  apply (@insert_cases fresh pt
           (fun root c res =>
              rects_ok root -> Forall point_ok (points root) ->
              rects_ok (fst res))).
  - intros c _ _. cbn. split; [|tauto].
    apply same_rect_refl. now split.
  - intros d l r c E H _. exact H.
  - intros d l r c to res E L I IH to' d' (H & Hl & Hr) Hok. cbn [fst] in *.
    rewrite points_node in Hok. apply Forall_app in Hok.
    destruct Hok as [Hokl Hokr]. inversion Hokr; subst.
    apply node_rects_ok; trivial.
    apply rects_set_parent_of. now apply IH.
  - intros d l r c to res E L I IH to' d' (H & Hl & Hr) Hok. cbn [fst] in *.
    rewrite points_node in Hok. apply Forall_app in Hok.
    destruct Hok as [Hokl Hokr]. inversion Hokr; subst.
    apply node_rects_ok; trivial.
    apply rects_set_parent_of. now apply IH.
Qed.

Lemma build_tree_fuel_rects (fuel : nat) :
  forall nodes c,
    Forall node_ok nodes -> rects_ok (build_tree_fuel fuel nodes c).
Proof.
  induction fuel as [|fuel IH]; intros nodes c Hok; [exact I|].
  destruct nodes as [|d0 rest]; [exact I|].
  cbn [build_tree_fuel].
  destruct (@build_split c d0 (d0 :: rest)) as (Hm & Hsplit & _ & _);
    [discriminate|].
  set (nodes := d0 :: rest) in *.
  set (sorted := sort (less_node c) nodes) in *.
  set (m := shift_median c d0 sorted (length sorted / 2)) in *.
  assert (Hoks : Forall node_ok sorted)
    by apply (Permutation_Forall (Permutation_sym (sort_perm _ nodes)) Hok).
  rewrite Hsplit in Hoks. apply Forall_app in Hoks.
  destruct Hoks as [Hokl Hokr]. inversion Hokr; subst.
  apply node_rects_ok; auto.
Qed.

Lemma rebuild_slot_rects (c : bool) (t t' : tree) :
  rects_ok t -> Forall point_ok (points t) -> rebuild_slot c t = Some t' ->
  rects_ok t' /\ like_rect t t'.
Proof.
  intros Hr Hok H.
  destruct (@rebuild_slot_kd c t t' Hok H) as (_ & Hperm).
  destruct t as [|d l r]; [discriminate|].
  revert H Hperm. unfold rebuild_slot.
  destruct (rebuild_tree (Node d l r) c) as [|d' l' r'] eqn:E; [discriminate|].
  cbn [set_parents]. intros H Hperm. injection H as <-.
  assert (Hb : rects_ok (rebuild_tree (Node d l r) c)).
  { apply build_tree_fuel_rects. unfold move_to_vector.
    unfold points in Hok. rewrite Forall_map in Hok. exact Hok. }
  rewrite E in Hb.
  assert (Hperm' : Permutation (points (Node d l r)) (points (Node d' l' r'))).
  { rewrite !points_node in *. now rewrite !points_adopt in Hperm. }
  assert (Hok' : Forall point_ok (points (Node d' l' r')))
    by now apply (Permutation_Forall Hperm').
  split.
  - destruct Hb as (Hd & Hl & Hr'). cbn [rects_ok rect point set_parent self].
    rewrite bounding_adopt. split; [exact Hd|]. split; now apply rects_adopt.
  - cbn [like_rect rect set_parent].
    apply is_bbox_unique with (points (Node d l r)); trivial.
    + now apply (rects_root_bbox (Node d l r)).
    + apply is_bbox_perm with (points (Node d' l' r'));
        [now apply Permutation_sym|].
      now apply (rects_root_bbox (Node d' l' r')).
Qed.

(** [put] keeps the rectangles right. *)
Lemma put_rects (m_root t : tree) (pt : Point) :
  rects_ok m_root -> Forall point_ok (points m_root) -> point_ok pt ->
  put m_root pt = Some t -> rects_ok t.
Proof.
  intros Hr Hok Hpt. unfold put.
  pose proof (@insert_rects (fresh_addr m_root) pt m_root true Hpt Hr Hok) as Hi.
  assert (Hoki : Forall point_ok
                   (points (fst (insert (fresh_addr m_root) m_root pt true)))).
  { rewrite Forall_forall in *. intros q Hq.
    apply insert_points_in in Hq. destruct Hq as [->|Hq]; auto. }
  destruct (insert (fresh_addr m_root) m_root pt true) as [root res].
  cbn [fst] in *. destruct res as [[s c]|].
  - intros H.
    apply (@update_slot_good
             (fun _ t => rects_ok t /\ Forall point_ok (points t))
             (fun a b => like_rect a b /\ Permutation (points a) (points b)))
      with (c := true) in H; [tauto | | | | tauto |].
    + intros _ d l l' r ((Hd & Hl & Hr') & Hall) (Hl' & Hall') (Hlike & Hp).
      rewrite !points_node in *.
      apply Forall_app in Hall. destruct Hall as (_ & Hall).
      inversion Hall; subst.
      assert (Hdef : rect_defined (rect d))
        by now destruct (same_rect_defined Hd).
      split; [split|split].
      * cbn [rects_ok]. split; [|tauto].
        apply same_rect_trans with (bounding (point d) l r); [exact Hd|].
        apply bounding_like; trivial.
        now apply like_rect_refl, rects_child_defined.
      * apply Forall_app. now split.
      * now apply same_rect_refl.
      * now apply Permutation_app_tail.
    + intros _ d l r r' ((Hd & Hl & Hr') & Hall) (Hr'' & Hall') (Hlike & Hp).
      rewrite !points_node in *.
      apply Forall_app in Hall. destruct Hall as (Hall & Hdr).
      inversion Hdr; subst.
      assert (Hdef : rect_defined (rect d))
        by now destruct (same_rect_defined Hd).
      split; [split|split].
      * cbn [rects_ok]. split; [|tauto].
        apply same_rect_trans with (bounding (point d) l r); [exact Hd|].
        apply bounding_like; trivial.
        now apply like_rect_refl, rects_child_defined.
      * apply Forall_app. split; [exact Hall | now constructor].
      * now apply same_rect_refl.
      * now apply Permutation_app_head, perm_skip.
    + intros _ d l r ((Hd & Hl & Hr') & Hall).
      rewrite points_node in Hall.
      apply Forall_app in Hall. destruct Hall as (Hall & Hdr).
      inversion Hdr; subst. tauto.
    + intros t0 t0' (R0 & Hall0) Hreb.
      destruct (@rebuild_slot_rects _ _ _ R0 Hall0 Hreb) as (R1 & Hlike).
      destruct (@rebuild_slot_kd _ _ _ Hall0 Hreb) as (_ & Hp).
      split; [split|split]; trivial. now apply (Permutation_Forall Hp).
  - intros H. now injection H as <-.
Qed.

End RectsPut.
(** ** Rect::distance is not a lower bound *)

Section RectDistance.

Import Inputs.
Local Open Scope float_scope.

(** C5.  [Rect((2,2),(3,5)).distance((0,2))] takes the branch of the
    second quadrant of [left_bottom] with [point.y() > ymin()] false, and
    returns the distance to the corner [(xmin, ymax)], the square root of
    13, although the corner [(2,2)] of the rectangle is at distance 2. *)
Theorem rect_distance_overestimates :
  RectOps.well_formed tall = true
  /\ RectOps.contains tall (pt 2 2) = true
  /\ PointOps.distance level_left (pt 2 2) = 2
  /\ RectOps.distance tall level_left = PrimFloat.sqrt 13
  /\ (PointOps.distance level_left (pt 2 2) <? RectOps.distance tall level_left)
     = true.
Proof.
  repeat split; vm_compute; reflexivity.
Qed.

End RectDistance.
(** ** The weight-balance bound *)

Section Untied.

Import kdtree Inv FloatOrder.

Lemma comparable_irrefl (p : Point) : comparable p p = false.
Proof.
  unfold comparable, less. now rewrite !ltb_irrefl.
Qed.

Lemma comparable_sym (p q : Point) : comparable p q = comparable q p.
Proof.
  unfold comparable.
  now rewrite (orb_comm (less p q true)), (orb_comm (less p q false)).
Qed.

Lemma untied_loose (pts : list Point) : untied pts -> loose pts.
Proof.
  induction 1 as [|p pts Hp Hrest IH]; split.
  - constructor.
  - intros p q [].
  - constructor; [|apply IH].
    intros Hin. rewrite Forall_forall in Hp. specialize (Hp p Hin).
    rewrite comparable_irrefl in Hp. discriminate.
  - rewrite Forall_forall in Hp. destruct IH as [_ IH].
    intros a b [<-|Ha] [<-|Hb] Hne; auto; try congruence.
    rewrite comparable_sym. auto.
Qed.

Lemma loose_perm (pts pts' : list Point) :
  Permutation pts pts' -> loose pts -> loose pts'.
Proof.
  intros Hp [Hnd Hc]. split; [now apply (Permutation_NoDup Hp)|].
  intros p q Hin Hiq. apply Hc; now apply (Permutation_in _ (Permutation_sym Hp)).
Qed.

Lemma loose_app_l (l1 l2 : list Point) : loose (l1 ++ l2) -> loose l1.
Proof.
  intros [Hnd Hc]. split; [now apply NoDup_app_remove_r in Hnd|].
  intros p q Hp Hq. apply Hc; apply in_or_app; now left.
Qed.

Lemma loose_app_r (l1 l2 : list Point) : loose (l1 ++ l2) -> loose l2.
Proof.
  intros [Hnd Hc]. split; [now apply NoDup_app_remove_l in Hnd|].
  intros p q Hp Hq. apply Hc; apply in_or_app; now right.
Qed.

Lemma loose_cons (p : Point) (l : list Point) : loose (p :: l) -> loose l.
Proof. apply (@loose_app_r [p] l). Qed.

(** Of two points that differ on both coordinates, the one that is not
    above the other is below it. *)
Lemma comparable_less (c : bool) (p q : Point) :
  comparable p q = true -> less q p c = false -> less p q c = true.
Proof.
  unfold comparable. intros H Hqp. apply andb_true_iff in H.
  destruct H as [Hx Hy]. destruct c.
  - rewrite Hqp, orb_false_r in Hx. exact Hx.
  - rewrite Hqp, orb_false_r in Hy. exact Hy.
Qed.

End Untied.

Section MedianStays.

Import kdtree Inv FloatOrder.

Lemma shift_median_stays (c : bool) (d0 : NodeData) (l : list NodeData)
  (m : nat) :
  (m = 0 \/ exists m', m = S m'
                       /\ less_node c (nth m' l d0) (nth m l d0) = true) ->
  shift_median c d0 l m = m.
Proof.
  intros [->|(m' & -> & H)]; [reflexivity|]. cbn [shift_median].
  now rewrite H.
Qed.

Lemma sorted_nth (A : Type) (lt : A -> A -> bool) (l : list A) (d : A) :
  sorted_by lt l ->
  forall i j, i < j -> j < length l -> lt (nth j l d) (nth i l d) = false.
Proof.
  induction 1 as [|a l Hs IH Ha]; intros i j Hij Hj; cbn in Hj; [lia|].
  destruct j as [|j]; [lia|]. destruct i as [|i]; cbn [nth].
  - rewrite Forall_forall in Ha. apply Ha. apply nth_In. lia.
  - apply IH; lia.
Qed.

(** In a sorted vector of nodes whose points share no coordinate, the
    median stays where it is. *)
Lemma median_stays (c : bool) (d0 : NodeData) (sorted : list NodeData) :
  sorted_by (less_node c) sorted ->
  loose (map point sorted) ->
  shift_median c d0 sorted (length sorted / 2) = length sorted / 2.
Proof.
  intros Hs [Hnd Hc]. apply shift_median_stays.
  destruct (length sorted / 2) as [|m'] eqn:E; [now left|].
  right. exists m'. split; [reflexivity|].
  assert (Hlt : S m' < length sorted).
  { destruct (length sorted) as [|n]; [discriminate|].
    pose proof (Nat.div_lt (S n) 2). lia. }
  unfold less_node. apply comparable_less.
  - apply Hc.
    + apply in_map, nth_In. lia.
    + apply in_map, nth_In. lia.
    + intros Heq.
      rewrite NoDup_nth with (d := point d0) in Hnd.
      specialize (Hnd m' (S m')). rewrite length_map in Hnd.
      rewrite !(map_nth point) in Hnd.
      specialize (Hnd ltac:(lia) ltac:(lia) Heq). lia.
  - change (less_node c (nth (S m') sorted d0) (nth m' sorted d0) = false).
    apply sorted_nth; trivial; lia.
Qed.

End MedianStays.

Section BuildBalanced.

Import kdtree Inv FloatOrder.

Variable N : nat.
Hypothesis table : balance_table N = true.

Lemma table_at (n : nat) :
  1 <= n <= N ->
  (Double.of_size (n / 2) <=? alpha * Double.of_size n)%float = true
  /\ (Double.of_size (n - S (n / 2)) <=? alpha * Double.of_size n)%float
     = true.
Proof.
  intros Hn. pose proof table as H. unfold balance_table in H.
  rewrite forallb_forall in H. specialize (H n).
  apply andb_true_iff. apply H. apply in_seq. lia.
Qed.

Lemma get_size_build_tree_fuel (fuel : nat) (nodes : list NodeData) (c : bool) :
  length nodes <= fuel ->
  get_size (build_tree_fuel fuel nodes c) = length nodes.
Proof.
  intros H. rewrite (sizes_count _ (build_tree_fuel_sizes fuel nodes c)).
  rewrite count_idents.
  rewrite (Permutation_length (@build_tree_fuel_idents fuel nodes c H)).
  apply length_map.
Qed.

Lemma balanced_set_parent_of (t : tree) (p : option addr) :
  balanced_ok t -> balanced_ok (set_parent_of t p).
Proof. destruct t; cbn; tauto. Qed.

Lemma balanced_adopt (p : addr) (t : tree) :
  balanced_ok t -> balanced_ok (adopt p t).
Proof.
  revert p. induction t as [|d l IHl r IHr]; intros p;
    cbn [adopt balanced_ok]; [tauto|].
  unfold balanced_at. cbn [size set_parent]. rewrite !get_size_adopt.
  intuition.
Qed.

(** A tree built from at most [N] nodes whose points share no coordinate
    is within the weight-balance bound at every node. *)
Lemma build_tree_fuel_balanced (fuel : nat) :
  forall nodes c,
    length nodes <= fuel -> length nodes <= N ->
    Forall node_ok nodes -> loose (map point nodes) ->
    balanced_ok (build_tree_fuel fuel nodes c).
Proof.
  induction fuel as [|fuel IH]; intros nodes c Hlen HN Hok Hloose;
    [exact I|].
  destruct nodes as [|d0 rest]; [exact I|].
  cbn [build_tree_fuel].
  destruct (@build_split c d0 (d0 :: rest)) as (Hm & Hsplit & Hl & Hr);
    [discriminate|].
  set (nodes := d0 :: rest) in *.
  set (sorted := sort (less_node c) nodes) in *.
  assert (Hperm : Permutation sorted nodes) by apply sort_perm.
  assert (Hlens : length sorted = length nodes)
    by now apply Permutation_length.
  assert (Hoks : Forall node_ok sorted)
    by apply (Permutation_Forall (Permutation_sym Hperm) Hok).
  assert (Hsorted : sorted_by (less_node c) sorted).
  { apply sort_sorted with (ok := node_ok); trivial.
    - intros a b. apply less_asym.
    - intros a b x. apply less_negtrans. }
  assert (Hlooses : loose (map point sorted)).
  { apply loose_perm with (map point nodes); trivial.
    now apply Permutation_map, Permutation_sym. }
  rewrite (median_stays d0 Hsorted Hlooses) in *.
  set (m := length sorted / 2) in *.
  assert (Hn : length nodes <= S fuel) by exact Hlen.
  assert (Hpos : 1 <= length nodes) by (unfold nodes; cbn; lia).
  assert (Hsplit' : map point sorted
                    = map point (firstn m sorted)
                      ++ point (nth m sorted d0)
                      :: map point (skipn (S m) sorted)).
  { rewrite Hsplit at 1. now rewrite map_app. }
  rewrite Hsplit' in Hlooses.
  rewrite Hsplit in Hoks. apply Forall_app in Hoks.
  destruct Hoks as [Hokl Hokr]. inversion Hokr as [|? ? _ Hokr']; subst.
  cbn [balanced_ok]. split; [|split].
  - unfold balanced_at. rewrite size_update_data.
    rewrite !get_size_build_tree_fuel by lia.
    rewrite Hl, Hr.
    replace (1 + m + (length nodes - S m)) with (length nodes) by lia.
    unfold m. rewrite Hlens.
    destruct (@table_at (length nodes)) as [H1 H2]; [lia|].
    now rewrite H1, H2.
  - apply IH; trivial; try lia. now apply loose_app_l in Hlooses.
  - apply IH; trivial; try lia.
    apply loose_app_r in Hlooses. now apply loose_cons in Hlooses.
Qed.

Lemma rebuild_slot_balanced (c : bool) (t t' : tree) :
  count t <= N -> Forall point_ok (points t) -> loose (points t) ->
  rebuild_slot c t = Some t' -> balanced_ok t'.
Proof.
  intros HN Hok Hloose. destruct t as [|d l r]; [discriminate|].
  unfold rebuild_slot.
  assert (Hb : balanced_ok (rebuild_tree (Node d l r) c)).
  { unfold rebuild_tree, build_tree, move_to_vector.
    apply build_tree_fuel_balanced; trivial.
    - now rewrite count_to_vector.
    - unfold points in Hok. rewrite Forall_map in Hok. exact Hok. }
  destruct (rebuild_tree (Node d l r) c) as [|d' l' r']; [discriminate|].
  cbn [set_parents]. intros H. injection H as <-.
  destruct Hb as (Hd & Hl & Hr). cbn [balanced_ok].
  split; [|split; now apply balanced_adopt].
  unfold balanced_at in *. cbn [size set_parent].
  now rewrite !get_size_adopt.
Qed.

End BuildBalanced.

Section PutBalanced.

Import kdtree Inv FloatOrder.

Variable N : nat.
Hypothesis table : balance_table N = true.

Lemma balanced_at_set_parent_of (d : NodeData) (l r : tree) (p q : option addr) :
  balanced_at d (set_parent_of l p) (set_parent_of r q) = balanced_at d l r.
Proof. unfold balanced_at. now rewrite !get_size_set_parent_of. Qed.

Lemma balanced_outside_set_parent_of (s : slot) (t : tree) (p : option addr) :
  balanced_outside s t -> balanced_outside s (set_parent_of t p).
Proof. destruct s, t; cbn; tauto. Qed.

(** After [insert], every node outside the reported slot is within the
    bound; with no slot reported, every node is. *)
Lemma insert_balanced (fresh : addr) (pt : Point) (root : tree) (c : bool) :
  balanced_ok root ->
  match snd (insert fresh root pt c) with
  | None => balanced_ok (fst (insert fresh root pt c))
  | Some (s, _) => balanced_outside s (fst (insert fresh root pt c))
  end.
Proof.
  revert root c.
  apply (@insert_cases fresh pt
           (fun root c res =>
              balanced_ok root ->
              match snd res with
              | None => balanced_ok (fst res)
              | Some (s, _) => balanced_outside s (fst res)
              end)).
  - intros c _. cbn. repeat split; reflexivity.
  - intros d l r c E H. exact H.
  - intros d l r c to res E L I IH to' d' (Hd & Hl & Hr). cbn [fst snd] in *.
    specialize (IH Hl).
    destruct (balanced_at d' to' r) eqn:B; [|constructor].
    destruct res as [[s0 c0]|]; cbn [enter].
    + cbn [balanced_outside]. split; [exact B|]. split; [|exact Hr].
      now apply balanced_outside_set_parent_of.
    + cbn [balanced_ok]. split; [exact B|]. split; [|exact Hr].
      now apply balanced_set_parent_of.
  - intros d l r c to res E L I IH to' d' (Hd & Hl & Hr). cbn [fst snd] in *.
    specialize (IH Hr).
    destruct (balanced_at d' l to') eqn:B; [|constructor].
    destruct res as [[s0 c0]|]; cbn [enter].
    + cbn [balanced_outside]. split; [exact B|]. split; [exact Hl|].
      now apply balanced_outside_set_parent_of.
    + cbn [balanced_ok]. split; [exact B|]. split; [exact Hl|].
      now apply balanced_set_parent_of.
Qed.

Lemma count_node_le_l (d : NodeData) (l r : tree) : count l <= count (Node d l r).
Proof. cbn. lia. Qed.

Lemma count_node_le_r (d : NodeData) (l r : tree) : count r <= count (Node d l r).
Proof. cbn. lia. Qed.

Lemma update_slot_balanced (c : bool) (s : slot) :
  forall root root',
    balanced_outside s root -> sizes_ok root -> count root <= N ->
    Forall point_ok (points root) -> loose (points root) ->
    update_slot root s (rebuild_slot c) = Some root' ->
    balanced_ok root' /\ get_size root = get_size root'.
Proof.
  induction s as [|b s IH]; intros root root' Hout Hs HN Hok Hloose H;
    cbn [update_slot] in H.
  - split; [now apply rebuild_slot_balanced with N c root|].
    now apply rebuild_slot_sizes with c.
  - destruct root as [|d l r]; [discriminate|].
    destruct Hout as (Hd & Hout). destruct Hs as (Hsz & Hsl & Hsr).
    rewrite points_node in Hok, Hloose.
    pose proof (proj1 (Forall_app _ _ _) Hok) as [Hokl Hokr].
    inversion Hokr as [|? ? _ Hokr']; subst.
    pose proof (loose_app_l _ _ Hloose) as Hll.
    pose proof (loose_cons (loose_app_r _ _ Hloose)) as Hlr.
    pose proof (count_node_le_l d l r). pose proof (count_node_le_r d l r).
    destruct b.
    + destruct (update_slot l s (rebuild_slot c)) as [l'|] eqn:E;
        [|discriminate].
      injection H as <-. destruct Hout as [Hol Hor].
      destruct (IH l l') as [Hb Hg]; trivial; [lia|].
      split; [|reflexivity]. cbn [balanced_ok].
      split; [|tauto]. unfold balanced_at in *. now rewrite <- Hg.
    + destruct (update_slot r s (rebuild_slot c)) as [r'|] eqn:E;
        [|discriminate].
      injection H as <-. destruct Hout as [Hol Hor].
      destruct (IH r r') as [Hb Hg]; trivial; [lia|].
      split; [|reflexivity]. cbn [balanced_ok].
      split; [|tauto]. unfold balanced_at in *. now rewrite <- Hg.
Qed.

(** [put] restores the weight-balance bound at every node when the
    stored points share no coordinate. *)
Lemma put_balanced (m_root t : tree) (pt : Point) :
  balanced_ok m_root -> sizes_ok m_root ->
  put m_root pt = Some t ->
  Forall point_ok (points t) -> loose (points t) -> count t <= N ->
  balanced_ok t.
Proof.
  intros Hb Hs Hput Hok Hloose HN. revert Hput. unfold put.
  pose proof (@insert_balanced (fresh_addr m_root) pt m_root true Hb) as Hi.
  pose proof (@insert_sizes (fresh_addr m_root) pt m_root true Hs) as Hsi.
  destruct (insert (fresh_addr m_root) m_root pt true) as [root res].
  cbn [fst snd] in *. destruct res as [[s c]|].
  - intros H.
    assert (Hperm : Permutation (idents t) (idents root)).
    { apply update_slot_idents with (2 := H).
      intros. now apply rebuild_slot_idents with c. }
    assert (Hpts : Permutation (points t) (points root)).
    { rewrite !points_idents. now apply Permutation_map. }
    apply (@update_slot_balanced c s root t); trivial.
    + rewrite count_idents, <- (Permutation_length Hperm), <- count_idents.
      exact HN.
    + now apply (Permutation_Forall Hpts).
    + now apply (loose_perm Hpts).
  - intros H. now injection H as <-.
Qed.

End PutBalanced.

Section BuiltInvariants.

Import kdtree Inv FloatOrder.

Lemma abs_sub_not_nan (a b : float) :
  (abs (a - b) <? Double.EPS)%float = true -> not_nan a /\ not_nan b.
Proof.
  intros H. apply ltb_true_not_nan in H. destruct H as [H _].
  unfold not_nan in *. rewrite abs_spec, sub_spec in H.
  destruct (Prim2SF a), (Prim2SF b); cbn in H; split; congruence.
Qed.

Lemma eqb_point_ok (q p : Point) :
  PointOps.eqb q p = true -> point_ok q /\ point_ok p.
Proof.
  unfold PointOps.eqb. intros H. apply andb_true_iff in H.
  destruct H as [Hx Hy].
  apply abs_sub_not_nan in Hx, Hy. unfold point_ok. tauto.
Qed.

Lemma put_points (ps0 ps : tree) (pt : Point) :
  put ps0 pt = Some ps ->
  Permutation (points ps)
    (if contains ps0 pt then points ps0 else pt :: points ps0).
Proof.
  intros H. destruct (put_idents ps0 pt) as (t & Ht & Hperm).
  rewrite H in Ht. injection Ht as <-.
  rewrite !points_idents. apply (Permutation_map snd) in Hperm.
  destruct (contains ps0 pt); exact Hperm.
Qed.

Lemma put_points_ok (ps0 ps : tree) (pt : Point) :
  put ps0 pt = Some ps -> Forall point_ok (points ps) ->
  point_ok pt /\ Forall point_ok (points ps0).
Proof.
  intros H Hok. pose proof (put_points _ _ H) as Hperm.
  destruct (contains ps0 pt) eqn:C.
  - split; [|now apply (Permutation_Forall Hperm)].
    apply contains_from_sound in C. destruct C as (q & _ & Hq).
    now apply eqb_point_ok in Hq.
  - apply (Permutation_Forall Hperm) in Hok. now inversion Hok.
Qed.

Lemma put_count (ps0 ps : tree) (pt : Point) :
  put ps0 pt = Some ps -> count ps0 <= count ps.
Proof.
  intros H. pose proof (put_points _ _ H) as Hperm.
  apply Permutation_length in Hperm.
  rewrite !count_idents. unfold idents.
  unfold points in Hperm. rewrite !length_map in *.
  destruct (contains ps0 pt); cbn [length] in Hperm;
    rewrite ?length_map in Hperm; lia.
Qed.

Lemma put_loose (ps0 ps : tree) (pt : Point) :
  put ps0 pt = Some ps -> loose (points ps) -> loose (points ps0).
Proof.
  intros H Hl. pose proof (put_points _ _ H) as Hperm.
  apply (loose_perm Hperm) in Hl.
  destruct (contains ps0 pt); [exact Hl | now apply loose_cons in Hl].
Qed.

Lemma from_file_built_tree (input : list Point) (ps : tree) :
  from_file input = Some ps ->
  exists nodes d l r,
    build_tree nodes true = Node d l r
    /\ ps = Node d (adopt (self d) l) (adopt (self d) r)
    /\ Permutation (points ps) (map point nodes).
Proof.
  unfold from_file. set (nodes := make_nodes 0 _).
  destruct (build_tree nodes true) as [|d l r] eqn:E; [discriminate|].
  cbn [set_parents]. intros H. injection H as <-.
  exists nodes, d, l, r. split; [exact E|]. split; [reflexivity|].
  rewrite (points_node d), !points_adopt, <- points_node, <- E.
  apply points_build_tree_fuel. lia.
Qed.

Variable N : nat.
Hypothesis table : balance_table N = true.

(** A set built without copying, none of whose coordinates is NaN, has
    its size fields and rectangles right; it is within the weight-balance
    bound when, in addition, its points share no coordinate. *)
Lemma built_invariants (ps : tree) :
  built ps -> Forall point_ok (points ps) ->
  sizes_ok ps /\ rects_ok ps
  /\ (loose (points ps) -> count ps <= N -> balanced_ok ps).
Proof.
  induction 1 as [|input ps H|ps0 pt ps Hb IH H]; intros Hok.
  - repeat split; exact I.
  - split; [now apply from_file_sizes with input|].
    destruct (from_file_built_tree _ H) as (nodes & d & l & r & E & -> & Hp).
    assert (Hnodes : Forall node_ok nodes).
    { apply (Permutation_Forall Hp) in Hok.
      rewrite Forall_map in Hok. exact Hok. }
    split.
    + pose proof (@build_tree_fuel_rects (length nodes) nodes true Hnodes)
        as Hr.
      change (rects_ok (build_tree nodes true)) in Hr. rewrite E in Hr.
      destruct Hr as (Hd & Hl & Hr). cbn [rects_ok].
      rewrite bounding_adopt. split; [exact Hd|]. split; now apply rects_adopt.
    + intros Hloose HN.
      assert (Hlen : length nodes <= N).
      { rewrite <- (length_map point), <- (Permutation_length Hp).
        unfold points. rewrite length_map, count_to_vector. exact HN. }
      pose proof (@build_tree_fuel_balanced N table (length nodes) nodes true
                    (le_n _) Hlen Hnodes (loose_perm Hp Hloose)) as Hbal.
      change (balanced_ok (build_tree nodes true)) in Hbal.
      rewrite E in Hbal. destruct Hbal as (Hd & Hl & Hr).
      cbn [balanced_ok]. split; [|split; now apply balanced_adopt].
      unfold balanced_at in *. now rewrite !get_size_adopt.
  - destruct (put_points_ok _ _ H Hok) as [Hpt Hok0].
    destruct (IH Hok0) as (Hs0 & Hr0 & Hb0).
    split; [now apply put_sizes with ps0 pt|].
    split; [now apply put_rects with ps0 pt|].
    intros Hloose HN.
    apply put_balanced with N ps0 pt; trivial.
    apply Hb0; [now apply put_loose with ps pt|].
    pose proof (put_count _ _ H). lia.
Qed.

End BuiltInvariants.
(** ** Runs of the code on concrete inputs *)

Section Runs.

Import kdtree Inputs.

(** C1.  The set holding the single point [(2^-53, 0)] and the query
    [Rect((-1,-1),(0,0))]: [contains] accepts the point, which is less than
    an epsilon to the right of the rectangle, but [range] stops at the
    root, whose bounding rectangle does not intersect the query. *)
Theorem range_misses_point_within_epsilon :
  exists ps,
    put Null near_edge = Some ps
    /\ traverse ps = Some [near_edge]
    /\ RectOps.well_formed unit_below = true
    /\ RectOps.contains unit_below near_edge = true
    /\ points_of ps (range ps unit_below) = Some [].
Proof.
  eexists. split; [vm_compute; reflexivity|].
  repeat split; vm_compute; reflexivity.
Qed.

(** C3.  The set holding the single point [(1e200, 1e200)]: the squared
    distance to the origin overflows, the distance is infinite, and
    neither the pruning test nor the update test lets the search past
    [std::numeric_limits<double>::max()]. *)
Theorem nearest_none_on_nonempty_set :
  exists ps,
    put Null far_away = Some ps
    /\ empty ps = false
    /\ size_of ps = 1
    /\ PointOps.distance origin far_away = infinity
    /\ (infinity <? Double.max_value)%float = false
    /\ nearest ps origin = None.
Proof.
  eexists. split; [vm_compute; reflexivity|].
  repeat split; vm_compute; reflexivity.
Qed.

(** On the empty set [nearest] returns the empty optional, whatever
    the query point. *)
Lemma nearest_empty (p : Point) : nearest Null p = None.
Proof. reflexivity. Qed.

(** C9.  The copy of the empty set: [set_parents(m_root)] dereferences
    the null [m_root]. *)
Theorem copy_empty_dereferences_null :
  empty Null = true /\ copy Null = None.
Proof.
  split; reflexivity.
Qed.

(** C7.  A point set built from an empty file: [build_tree] returns null
    and [set_parents(m_root)] dereferences it. *)
Theorem from_empty_file_dereferences_null :
  build_tree (make_nodes 0 []) true = Null /\ from_file [] = None.
Proof.
  split; reflexivity.
Qed.

(** C2, as stated, fails: after the third of three puts on one vertical
    line the rebuilt root has an empty left side and two of its three
    nodes on the right. *)
Lemma put_returns_unbalanced_root :
  exists ps2 ps3,
    put_all Null [pt 0 0; pt 0 1] = Some ps2
    /\ put ps2 (pt 0 2) = Some ps3
    /\ size_of ps3 = 3
    /\ balanced ps3 = false.
Proof.
  do 2 eexists. split; [vm_compute; reflexivity|].
  split; [vm_compute; reflexivity|].
  split; vm_compute; reflexivity.
Qed.

(** C4, as stated, fails: [twin_left] is epsilon-equal to the stored
    [twin_right], but the descent compares it with the root only, turns
    left, and stores it. *)
Lemma epsilon_equal_point_is_stored :
  exists ps ps',
    put_all Null [origin; twin_right] = Some ps
    /\ size_of ps = 2
    /\ PointOps.eqb twin_right twin_left = true
    /\ PointOps.eqb twin_left twin_right = true
    /\ put ps twin_left = Some ps'
    /\ size_of ps' = 3
    /\ traverse ps' = Some [twin_left; origin; twin_right].
Proof.
  do 2 eexists. split; [vm_compute; reflexivity|].
  do 3 (split; [vm_compute; reflexivity|]).
  split; [vm_compute; reflexivity|].
  split; vm_compute; reflexivity.
Qed.

(** C8, as stated, fails: the cursor over the one match of a range query,
    advanced once, is not equal to [end()]. *)
Lemma exhausted_range_cursor_is_not_end :
  exists ps it,
    put Null origin = Some ps
    /\ incr ps (fst (range ps unit_square)) = Some it
    /\ it = list_it []
    /\ iterator_eqb it end_ = false.
Proof.
  do 2 eexists. split; [vm_compute; reflexivity|].
  split; [vm_compute; reflexivity|].
  split; reflexivity.
Qed.

(** A consequence of C5.  In the set built by putting [(0,5)], [(-10,0)],
    [(2,2)], [(3,5)], the search for the point nearest to [(0,2)] prunes
    the subtree with rectangle [((2,2),(3,5))], whose bound is the square
    root of 13, and returns [(0,5)] at distance 3 although [(2,2)] is
    stored at distance 2. *)
Lemma nearest_prunes_closer_point :
  exists ps,
    put_all Null [pt 0 5; pt (-10) 0; pt 2 2; pt 3 5] = Some ps
    /\ traverse ps = Some [pt (-10) 0; pt 0 5; pt 2 2; pt 3 5]
    /\ nearest ps level_left = Some (pt 0 5)
    /\ PointOps.distance level_left (pt 0 5) = 3%float
    /\ PointOps.distance level_left (pt 2 2) = 2%float.
Proof.
  eexists. split; [vm_compute; reflexivity|].
  repeat split; vm_compute; reflexivity.
Qed.

(** C6.  The copy of the set read from a file listing the five points
    holds exactly the five points, but [size()] is 1 on it: the copy
    constructor of [Node] leaves [size] at its default.  So
    [nearest((1,1), 3)] takes the [k >= size()] short cut and returns the
    full traversal, five points, where the set it was copied from returns
    three. *)
Theorem copied_five_points_nearest_k_returns_five :
  from_file five = Some five_set
  /\ (exists pr res,
        nearest_k five_set (pt 1 1) 3 = Some pr
        /\ points_of five_set pr = Some res
        /\ length res = 3)
  /\ exists ps pr,
      copy five_set = Some ps
      /\ traverse ps = Some [pt 0 0; pt 0 2; pt 1 1; pt 2 0; pt 2 2]
      /\ size_of ps = 1
      /\ nearest_k ps (pt 1 1) 3 = Some pr
      /\ points_of ps pr = Some [pt 0 0; pt 0 2; pt 1 1; pt 2 0; pt 2 2].
Proof.
  split; [vm_compute; reflexivity|]. split.
  - do 2 eexists. split; [vm_compute; reflexivity|].
    split; [vm_compute; reflexivity | reflexivity].
  - do 2 eexists. split; [vm_compute; reflexivity|].
    repeat split; vm_compute; reflexivity.
Qed.

(** The copy constructor of [Node] does not copy [size]: the copy of the
    five-point set reports size 1. *)
Lemma copy_resets_size :
  exists ps,
    copy five_set = Some ps
    /\ size_of five_set = 5
    /\ size_of ps = 1
    /\ traverse ps = traverse five_set.
Proof.
  eexists. split; [vm_compute; reflexivity|].
  repeat split; vm_compute; reflexivity.
Qed.

End Runs.
(** ** The scenario of section 8 *)

Section ScenarioFive.

Import kdtree Inputs Decide Scenario ScenarioSpec.

Lemma scenario_ok_holds (ps : tree) : scenario_ok ps = true -> holds ps.
Proof.
  unfold scenario_ok, range_ok, nearest_ok, nearest_k_ok, holds.
  intros H. apply andb_true_iff in H. destruct H as [H H3].
  apply andb_true_iff in H. destruct H as [H1 H2].
  split; [|split].
  - destruct (points_of ps (range ps unit_square)) as [inside|];
      [|discriminate].
    exists inside. split; [reflexivity|].
    exact (@rearranged_perm _ point_same point_same_eq _ _ H1).
  - destruct (nearest ps nine_tenths) as [p|]; [|discriminate].
    apply point_same_eq in H2. now subst.
  - destruct (nearest_k ps centre 3) as [pr|]; [|discriminate].
    destruct (points_of ps pr) as [res|] eqn:E; [|discriminate].
    apply andb_true_iff in H3. destruct H3 as [H3 H5].
    apply andb_true_iff in H3. destruct H3 as [H3 H4].
    exists pr, res. repeat split; trivial.
    + exact (@distinct_NoDup _ point_same point_same_refl _ H3).
    + exact (@subset_incl _ point_same point_same_eq _ _ H4).
    + exact (@rearranged_perm _ float_same float_same_eq _ _ H5).
Qed.

Lemma built_ok_holds (built : option tree) :
  built_ok built = true -> exists ps, built = Some ps /\ holds ps.
Proof.
  destruct built as [ps|]; cbn; [|discriminate].
  intros H. exists ps. split; [reflexivity | now apply scenario_ok_holds].
Qed.

Lemma every_order_ok :
  forallb (fun order => built_ok (put_all Null order)
                        && built_ok (from_file order))
          (perms five) = true.
Proof. vm_compute. reflexivity. Qed.

(** X24.  However the five points are ordered, the set built from them by
    successive puts, or read from a file listing them, answers the three
    queries as the specification says: the range query finds [(0,0)] and
    [(1,1)]; the nearest point to [(0.9,0.9)] is [(1,1)]; the three
    nearest points to [(1,1)] are three distinct points of the set at
    distances 0, sqrt 2 and sqrt 2. *)
Theorem five_point_scenario (order : list Point) :
  Permutation order five ->
  (exists ps, put_all Null order = Some ps /\ holds ps)
  /\ (exists ps, from_file order = Some ps /\ holds ps).
Proof.
  intros Hperm.
  pose proof every_order_ok as Hall.
  rewrite forallb_forall in Hall.
  specialize (Hall order (perms_complete Hperm)).
  apply andb_true_iff in Hall. destruct Hall as [Hput Hfile].
  split; now apply built_ok_holds.
Qed.

Lemma five_point_scenario_witness :
  Permutation (rev five) five
  /\ (exists ps, put_all Null (rev five) = Some ps /\ holds ps)
  /\ (exists ps, from_file (rev five) = Some ps /\ holds ps).
Proof.
  assert (H : Permutation (rev five) five)
    by (apply Permutation_sym, Permutation_rev).
  split; [exact H | exact (five_point_scenario H)].
Defined.

End ScenarioFive.

(** ** Cursors at the end of a sequence *)

Section CursorEnd.

Import kdtree Inv.

Lemma advance_list (ps : tree) (l : list NodePtr) :
  advance ps (length l) (list_it l) = Some (list_it []).
Proof.
  remember (length l) as n eqn:Hn. revert l Hn.
  induction n as [|n IH]; intros l Hn.
  - destruct l; [reflexivity | discriminate].
  - destruct l as [|a l]; [discriminate|].
    cbn [advance incr]. apply IH.
    rewrite removelast_firstn_len, length_firstn. cbn in *. lia.
Qed.

(** C8, amended.  The list-backed cursor returned by a range query or by
    a k-nearest query, advanced past its last element, equals the second
    cursor of the returned pair and every default-constructed cursor; it
    does not equal [end()], the end of the full traversal, which is the
    other alternative of the variant. *)
Theorem exhausted_list_cursor (ps : tree) (query : Rect) (p : Point) (k : nat) :
  (exists l, fst (range ps query) = list_it l)
  /\ exhausted_ok ps (range ps query)
  /\ match nearest_k ps p k with
     | Some pr => exhausted_ok ps pr
     | None => True
     end.
Proof.
  split; [eexists; reflexivity|]. split.
  - unfold exhausted_ok, range. cbn [fst snd].
    exists (list_it []). split; [apply advance_list|]. repeat split.
  - unfold nearest_k.
    destruct (Nat.eqb k 0).
    + unfold exhausted_ok. cbn [fst snd iterator_default].
      exists (list_it []). repeat split.
    + destruct (size_of ps <=? k); [exact I|].
      destruct (seed k ps (begin_at ps) []) as [[heap current]|]; [|exact I].
      destruct (scan _ ps p current _) as [heap'|]; [|exact I].
      unfold exhausted_ok. cbn [fst snd].
      exists (list_it []). split; [apply advance_list|]. repeat split.
Qed.

End CursorEnd.
(** ** put keeps what is stored *)

Section Frame.

Import kdtree Inv Inputs.

(** C10.  [put(p)] returns, and the full traversal afterwards sees the
    points it saw before, each as often as before, and in addition [p]
    exactly when [contains(p)] did not hold; no stored point is lost,
    whether or not a subtree was rebuilt. *)
Theorem put_keeps_stored_points (ps : tree) (p : Point) :
  reachable ps ->
  exists ps' before after,
    put ps p = Some ps'
    /\ traverse ps = Some before
    /\ traverse ps' = Some after
    /\ Permutation after (if contains ps p then before else p :: before)
    /\ incl before after.
Proof.
  intros Hreach. pose proof (reachable_wf Hreach) as Hwf.
  destruct (put_idents ps p) as (ps' & Hput & Hperm).
  pose proof (@put_wf ps ps' p Hwf Hput) as Hwf'.
  exists ps', (points ps), (points ps').
  split; [exact Hput|].
  split; [now apply traverse_points|].
  split; [now apply traverse_points|].
  assert (Hpts : Permutation (points ps')
                   (if contains ps p then points ps else p :: points ps)).
  { rewrite !points_idents.
    apply Permutation_map with (f := snd) in Hperm.
    destruct (contains ps p); exact Hperm. }
  split; [exact Hpts|].
  intros q Hq. apply Permutation_sym in Hpts.
  apply (Permutation_in q Hpts).
  destruct (contains ps p); [exact Hq | now right].
Qed.

Lemma five_set_reachable : reachable five_set.
Proof. apply reach_file with five. vm_compute. reflexivity. Qed.

Lemma put_keeps_stored_points_witness :
  reachable five_set
  /\ exists ps' before after,
      put five_set (pt 1 2) = Some ps'
      /\ traverse five_set = Some before
      /\ traverse ps' = Some after
      /\ Permutation after
           (if contains five_set (pt 1 2) then before else pt 1 2 :: before)
      /\ incl before after.
Proof.
  split;
    [exact five_set_reachable
    | exact (put_keeps_stored_points (pt 1 2) five_set_reachable)].
Defined.

End Frame.
(** ** The size of a set and the distinct points put into it *)

Section Distinct.

Import kdtree Inv FloatOrder.

Lemma same_pointb_iff (p q : Point) :
  same_pointb p q = true <-> same_point p q.
Proof. unfold same_pointb, same_point, feq. apply andb_true_iff. Qed.

Lemma size_of_points (ps : tree) :
  sizes_ok ps -> size_of ps = length (points ps).
Proof.
  intros H. unfold size_of. rewrite (sizes_count _ H), <- count_to_vector.
  unfold points. now rewrite length_map.
Qed.

(** What one [put] does to the size and to the stored points. *)
Lemma put_size (ps : tree) (p : Point) :
  sizes_ok ps ->
  exists ps',
    put ps p = Some ps'
    /\ sizes_ok ps'
    /\ Permutation (points ps')
         (if contains ps p then points ps else p :: points ps)
    /\ size_of ps' = size_of ps + (if contains ps p then 0 else 1).
Proof.
  intros Hs. destruct (put_idents ps p) as (ps' & Hput & Hperm).
  pose proof (@put_sizes ps ps' p Hs Hput) as Hs'.
  assert (Hpts : Permutation (points ps')
                   (if contains ps p then points ps else p :: points ps)).
  { rewrite !points_idents. apply (Permutation_map snd) in Hperm.
    destruct (contains ps p); exact Hperm. }
  exists ps'. repeat split; trivial.
  rewrite !size_of_points by assumption.
  rewrite (Permutation_length Hpts).
  destruct (contains ps p); cbn [length]; lia.
Qed.

Variable U : list Point.
Hypothesis U_finite : Forall point_finite U.
Hypothesis U_eps : eps_means_same U.

Lemma U_ok (p : Point) : In p U -> point_ok p.
Proof.
  intros H. apply point_finite_ok.
  rewrite Forall_forall in U_finite. now apply U_finite.
Qed.

Lemma U_eqb (p q : Point) :
  In p U -> In q U -> same_point p q -> PointOps.eqb p q = true.
Proof.
  intros Hp Hq. rewrite Forall_forall in U_finite.
  apply eqb_same_point; now apply U_finite.
Qed.

Lemma run_step (ps : tree) (seen : list Point) (p : Point) :
  run_ok U ps seen -> In p U ->
  exists ps',
    put ps p = Some ps'
    /\ run_ok U ps' (p :: seen)
    /\ contains ps p = existsb (same_pointb p) seen
    /\ Permutation (points ps')
         (if existsb (same_pointb p) seen then points ps else p :: points ps).
Proof.
  intros (Hs & Hk & HsU & Hps & Hrep) HpU.
  destruct (@put_size ps p Hs) as (ps' & Hput & Hs' & Hperm & _).
  assert (Hokps : Forall point_ok (points ps)).
  { rewrite Forall_forall. intros q Hq. apply U_ok. apply HsU. now apply Hps. }
  assert (Hc : contains ps p = existsb (same_pointb p) seen).
  { destruct (existsb (same_pointb p) seen) eqn:Ex.
    - apply existsb_exists in Ex. destruct Ex as (s & Hin & Hsame).
      apply same_pointb_iff in Hsame.
      destruct (Hrep s Hin) as (q & Hq & Hqs).
      assert (Hqp : same_point q p)
        by (eapply same_point_trans; [exact Hqs | now apply same_point_sym]).
      unfold contains. apply contains_from_complete with q; trivial.
      apply U_eqb; trivial. apply HsU. now apply Hps.
    - destruct (contains ps p) eqn:C; [|reflexivity]. exfalso.
      apply contains_from_sound in C. destruct C as (q & Hq & Hqp).
      assert (Hsame : same_point q p)
        by (apply U_eps; trivial; apply HsU; now apply Hps).
      assert (Hex : existsb (same_pointb p) seen = true).
      { apply existsb_exists. exists q. split; [now apply Hps|].
        apply same_pointb_iff. now apply same_point_sym. }
      congruence. }
  rewrite Hc in Hperm.
  exists ps'. split; [exact Hput|]. split; [|split; [exact Hc | exact Hperm]].
  split; [exact Hs'|]. split.
  { apply put_kd with ps p; trivial. now apply U_ok. }
  split; [intros q [<-|Hq]; [exact HpU | now apply HsU]|].
  split.
  - intros q Hq. apply (Permutation_in q Hperm) in Hq.
    destruct (existsb (same_pointb p) seen); [right; now apply Hps|].
    destruct Hq as [<-|Hq]; [now left | right; now apply Hps].
  - intros s [<-|Hin].
    + destruct (existsb (same_pointb p) seen) eqn:Ex.
      * apply existsb_exists in Ex. destruct Ex as (s & Hin & Hsame).
        apply same_pointb_iff in Hsame.
        destruct (Hrep s Hin) as (q & Hq & Hqs). exists q.
        split; [apply (Permutation_in q (Permutation_sym Hperm) Hq)|].
        eapply same_point_trans; [exact Hqs | now apply same_point_sym].
      * exists p. split.
        -- apply (Permutation_in p (Permutation_sym Hperm)). now left.
        -- apply same_point_refl. now apply U_ok.
    + destruct (Hrep s Hin) as (q & Hq & Hqs). exists q. split; [|exact Hqs].
      apply (Permutation_in q (Permutation_sym Hperm)).
      destruct (existsb (same_pointb p) seen); [exact Hq | now right].
Qed.

Lemma run_all (pts : list Point) :
  forall ps seen,
    run_ok U ps seen -> incl pts U ->
    exists ps',
      put_all ps pts = Some ps'
      /\ run_ok U ps' (rev pts ++ seen)
      /\ Permutation (points ps') (first_occurrences seen pts ++ points ps).
Proof.
  induction pts as [|p rest IH]; intros ps seen Hrun HU.
  - exists ps. split; [reflexivity|].
    split; [exact Hrun | apply Permutation_refl].
  - assert (HpU : In p U) by (apply HU; now left).
    destruct (@run_step ps seen p Hrun HpU) as (ps1 & Hput & Hrun1 & _ & Hperm).
    destruct (IH ps1 (p :: seen) Hrun1) as (ps' & Hall & Hrun' & Hperm').
    { intros q Hq. apply HU. now right. }
    exists ps'. cbn [put_all]. rewrite Hput.
    split; [exact Hall|]. split.
    + cbn [rev]. now rewrite <- app_assoc.
    + apply (Permutation_trans Hperm'). cbn [first_occurrences].
      destruct (existsb (same_pointb p) seen).
      * now apply Permutation_app_head.
      * apply Permutation_trans
          with (first_occurrences (p :: seen) rest ++ p :: points ps);
          [now apply Permutation_app_head|].
        apply Permutation_sym, Permutation_middle.
Qed.

End Distinct.

Section DistinctCount.

Import kdtree Inv FloatOrder Inputs.

Lemma run_ok_empty (U : list Point) : run_ok U Null [].
Proof.
  repeat split; try exact I; try (intros q []).
Qed.

(** C4, amended.  For a sequence of puts, on an initially empty set, of
    points with finite coordinates among which epsilon-equal points have
    the same coordinates: [size()] afterwards is the number of distinct
    points put, the stored points are the first occurrences, and putting
    any of the points again changes neither [size()] nor the stored
    points. *)
Theorem size_counts_distinct_points (pts : list Point) :
  Forall point_finite pts ->
  eps_means_same pts ->
  exists ps,
    put_all Null pts = Some ps
    /\ size_of ps = distinct_count pts
    /\ Permutation (points ps) (first_occurrences [] pts)
    /\ (forall p, In p pts ->
          exists ps',
            put ps p = Some ps'
            /\ size_of ps' = size_of ps
            /\ Permutation (points ps') (points ps)).
Proof.
  intros Hfin Heps.
  destruct (@run_all pts Hfin Heps pts Null [] (run_ok_empty pts)
                     (incl_refl pts))
    as (ps & Hall & Hrun & Hperm).
  rewrite app_nil_r in Hperm, Hrun.
  exists ps. split; [exact Hall|].
  assert (Hs : sizes_ok ps) by apply Hrun.
  split; [|split; [exact Hperm|]].
  - rewrite (@size_of_points ps Hs). unfold distinct_count.
    now apply Permutation_length.
  - intros p Hp.
    destruct (@run_step pts Hfin Heps ps (rev pts) p Hrun Hp)
      as (ps' & Hput & Hrun' & _ & Hperm').
    assert (Hex : existsb (same_pointb p) (rev pts) = true).
    { apply existsb_exists. exists p. split; [now apply in_rev in Hp|].
      apply same_pointb_iff, same_point_refl, point_finite_ok.
      rewrite Forall_forall in Hfin. now apply Hfin. }
    rewrite Hex in Hperm'.
    exists ps'. split; [exact Hput|]. split; [|exact Hperm'].
    assert (Hs' : sizes_ok ps') by apply Hrun'.
    rewrite !size_of_points by assumption.
    now apply Permutation_length.
Qed.

Lemma size_counts_distinct_points_witness :
  Forall point_finite [origin; pt 1 1; origin; pt 0 1; pt (-0) 1]
  /\ eps_means_same [origin; pt 1 1; origin; pt 0 1; pt (-0) 1]
  /\ exists ps,
      put_all Null [origin; pt 1 1; origin; pt 0 1; pt (-0) 1] = Some ps
      /\ size_of ps = distinct_count [origin; pt 1 1; origin; pt 0 1; pt (-0) 1]
      /\ Permutation (points ps)
           (first_occurrences [] [origin; pt 1 1; origin; pt 0 1; pt (-0) 1])
      /\ (forall p, In p [origin; pt 1 1; origin; pt 0 1; pt (-0) 1] ->
            exists ps',
              put ps p = Some ps'
              /\ size_of ps' = size_of ps
              /\ Permutation (points ps') (points ps)).
Proof.
  assert (Hfin : Forall point_finite
                   [origin; pt 1 1; origin; pt 0 1; pt (-0) 1])
    by (repeat constructor; vm_compute; exact I).
  assert (Heps : eps_means_same [origin; pt 1 1; origin; pt 0 1; pt (-0) 1]).
  { intros p q Hp Hq H. cbn [In] in Hp, Hq.
    repeat (destruct Hp as [<-|Hp]); try contradiction;
      repeat (destruct Hq as [<-|Hq]); try contradiction;
      first [ vm_compute in H; discriminate H
            | split; vm_compute; reflexivity ]. }
  split; [exact Hfin|]. split; [exact Heps|].
  exact (size_counts_distinct_points Hfin Heps).
Defined.

End DistinctCount.
(** ** The balance test, evaluated *)

Section BalanceChecked.

Import kdtree Inv.

Lemma balance_iter (N : positive) :
  fst (Pos.iter balance_step (1%Z, true) N) = (1 + Z.pos N)%Z
  /\ (snd (Pos.iter balance_step (1%Z, true) N) = true ->
      forall z, (1 <= z <= Z.pos N)%Z -> balance_test z = true).
Proof.
  induction N as [|N [IH1 IH2]] using Pos.peano_ind.
  - cbn [Pos.iter balance_step fst snd]. split; [reflexivity|].
    intros H z Hz. assert (z = 1%Z) as -> by lia. exact H.
  - rewrite Pos.iter_succ. unfold balance_step at 1. unfold balance_step at 2.
    cbn [fst snd]. rewrite IH1. split; [lia|].
    intros H z Hz. apply andb_true_iff in H. destruct H as [H1 H2].
    rewrite IH1 in H2.
    destruct (Z.eq_dec z (1 + Z.pos N)) as [->|Hne]; [exact H2|].
    apply IH2; [exact H1 | lia].
Qed.

Lemma balance_test_size (n : nat) :
  1 <= n ->
  balance_test (Z.of_nat n)
  = ((Double.of_size (n / 2) <=? alpha * Double.of_size n)%float
     && (Double.of_size (n - S (n / 2))
         <=? alpha * Double.of_size n)%float).
Proof.
  intros Hn. unfold balance_test, Double.of_size.
  assert (Hdiv : n / 2 < n) by (apply Nat.div_lt; lia).
  replace (Z.of_nat (n / 2)) with (Z.of_nat n / 2)%Z
    by (now rewrite Nat2Z.inj_div).
  replace (Z.of_nat (n - S (n / 2))) with (Z.of_nat n - (Z.of_nat n / 2 + 1))%Z;
    [reflexivity|].
  rewrite Nat2Z.inj_sub by lia. rewrite Nat2Z.inj_succ, Nat2Z.inj_div. lia.
Qed.

(** The table follows from the evaluation on integers. *)
Lemma balance_table_checked (N : positive) :
  balance_checked N = true -> balance_table (Pos.to_nat N) = true.
Proof.
  intros H. unfold balance_table. apply forallb_forall. intros n Hn.
  apply in_seq in Hn. rewrite <- balance_test_size by lia.
  apply (proj2 (balance_iter N) H). lia.
Qed.

Lemma sizes_checked : balance_checked checked_sizes = true.
Proof. vm_compute. reflexivity. Qed.

Lemma balance_table_sizes : balance_table (Pos.to_nat checked_sizes) = true.
Proof. apply balance_table_checked, sizes_checked. Qed.

End BalanceChecked.
(** ** The invariants after put *)

Section AfterPut.

Import kdtree Inv FloatOrder Inputs.

Lemma balance_table_0 : balance_table 0 = true.
Proof. reflexivity. Qed.

(** C2, amended.  For a set built by the default or the file constructor
    and puts, immediately after [put(p)] returns, if no stored coordinate
    is NaN: every node has [size = 1 + size(left) + size(right)] and a
    rectangle equal (coordinate by coordinate, under [==]) to the union of
    its point and its children's rectangles.  Every node is within the
    weight-balance bound if, in addition, no two stored points share an
    [x] or a [y] coordinate and the set holds at most 1048576 points, the
    sizes for which the comparisons of [balanced] have been evaluated in
    double precision. *)
Theorem put_restores_invariants (ps ps' : tree) (p : Point) :
  built ps -> put ps p = Some ps' -> Forall point_ok (points ps') ->
  sizes_ok ps' /\ rects_ok ps'
  /\ (untied (points ps') -> count ps' <= Pos.to_nat checked_sizes ->
      balanced_ok ps').
Proof.
  intros Hb Hput Hok.
  assert (Hb' : built ps') by now apply built_put with ps p.
  destruct (@built_invariants (Pos.to_nat checked_sizes) balance_table_sizes
              ps' Hb' Hok) as (Hs & Hr & Hbal).
  split; [exact Hs|]. split; [exact Hr|].
  intros Hu HN. apply Hbal; [now apply untied_loose | exact HN].
Qed.

Lemma scattered_set_built : built scattered_set.
Proof. apply built_file with scattered. vm_compute. reflexivity. Qed.

Lemma scattered_put : put scattered_set (pt 5 5) = Some scattered_set'.
Proof. vm_compute. reflexivity. Qed.

Lemma scattered_points :
  points scattered_set'
  = [pt 0 0; pt 1 3; pt 2 1; pt 4 2; pt 3 4; pt 5 5].
Proof. vm_compute. reflexivity. Qed.

Lemma scattered_points_ok : Forall point_ok (points scattered_set').
Proof.
  rewrite scattered_points.
  repeat constructor; intros H; vm_compute in H; discriminate H.
Qed.

Lemma put_restores_invariants_witness :
  built scattered_set
  /\ put scattered_set (pt 5 5) = Some scattered_set'
  /\ Forall point_ok (points scattered_set')
  /\ sizes_ok scattered_set' /\ rects_ok scattered_set'
  /\ (untied (points scattered_set') ->
      count scattered_set' <= Pos.to_nat checked_sizes ->
      balanced_ok scattered_set').
Proof.
  split; [exact scattered_set_built|].
  split; [exact scattered_put|].
  split; [exact scattered_points_ok|].
  exact (@put_restores_invariants scattered_set scattered_set' (pt 5 5)
           scattered_set_built scattered_put scattered_points_ok).
Defined.

(** The six scattered points share no coordinate, and every node of the
    set is within the bound. *)
Lemma scattered_set_untied : untied (points scattered_set').
Proof. rewrite scattered_points. repeat constructor. Qed.

Lemma scattered_set_balanced : balanced_ok scattered_set'.
Proof.
  assert (Hb : built scattered_set')
    by (apply built_put with scattered_set (pt 5 5);
        [exact scattered_set_built | exact scattered_put]).
  destruct (@built_invariants (Pos.to_nat checked_sizes) balance_table_sizes
              scattered_set' Hb scattered_points_ok) as (_ & _ & Hbal).
  apply Hbal; [apply untied_loose, scattered_set_untied|].
  change (count scattered_set') with 6.
  pose proof (Pos2Nat.is_pos checked_sizes) as H.
  assert (E : Pos.to_nat checked_sizes = Pos.to_nat (2 ^ 20)%positive)
    by reflexivity.
  rewrite E. lia.
Qed.

End AfterPut.
(** ** What the queries answer on the sets the interface builds *)

Section RangeFacts.

Import kdtree Inv FloatOrder.

Lemma range_rec_keeps (t : tree) (q : Rect) :
  forall acc d, In d acc -> In d (range_rec t q acc).
Proof.
  induction t as [|d0 l IHl r IHr]; intros acc d Hin; cbn [range_rec];
    [exact Hin|].
  destruct (negb (RectOps.intersects (rect d0) q)); [exact Hin|].
  assert (H1 : In d (if RectOps.contains q (point d0)
                     then acc ++ [d0] else acc)).
  { destruct (RectOps.contains q (point d0)); [|exact Hin].
    apply in_or_app. now left. }
  assert (H2 : In d match l with
                    | Null => if RectOps.contains q (point d0)
                              then acc ++ [d0] else acc
                    | Node dl _ _ =>
                        if RectOps.intersects (rect dl) q
                        then range_rec l q
                               (if RectOps.contains q (point d0)
                                then acc ++ [d0] else acc)
                        else if RectOps.contains q (point d0)
                             then acc ++ [d0] else acc
                    end).
  { destruct l as [|dl ll rl]; [exact H1|].
    destruct (RectOps.intersects (rect dl) q); [now apply IHl | exact H1]. }
  destruct r as [|dr lr rr]; [exact H2|].
  destruct (RectOps.intersects (rect dr) q); [now apply IHr | exact H2].
Qed.

(** [range] pushes stored nodes whose points the query contains. *)
Lemma range_rec_sound (t : tree) (q : Rect) :
  forall acc d,
    In d (range_rec t q acc) ->
    In d acc \/ (In d (to_vector t) /\ RectOps.contains q (point d) = true).
Proof.
  induction t as [|d0 l IHl r IHr]; intros acc d Hin; cbn [range_rec] in Hin;
    [now left|].
  cbn [to_vector].
  destruct (negb (RectOps.intersects (rect d0) q)); [now left|].
  assert (Hstep : forall t' acc',
             (forall a x, In x (range_rec t' q a) ->
                          In x a \/ (In x (to_vector t')
                                     /\ RectOps.contains q (point x) = true)) ->
             In d match t' with
                  | Null => acc'
                  | Node dt _ _ =>
                      if RectOps.intersects (rect dt) q
                      then range_rec t' q acc' else acc'
                  end ->
             In d acc' \/ (In d (to_vector t')
                           /\ RectOps.contains q (point d) = true)).
  { intros t' acc' IH H. destruct t' as [|dt lt rt]; [now left|].
    destruct (RectOps.intersects (rect dt) q); [now apply IH | now left]. }
  apply (Hstep r _ IHr) in Hin. destruct Hin as [Hin|[Hin Hc]].
  - apply (Hstep l _ IHl) in Hin. destruct Hin as [Hin|[Hin Hc]].
    + destruct (RectOps.contains q (point d0)) eqn:C; [|now left].
      apply in_app_or in Hin. destruct Hin as [Hin|[<-|[]]]; [now left|].
      right. split; [|exact C]. apply in_or_app. right. now left.
    + right. split; [|exact Hc]. apply in_or_app. now left.
  - right. split; [|exact Hc]. apply in_or_app. right. now right.
Qed.

(** A rectangle that bounds a point lying within the query intersects
    the query. *)
Lemma intersects_of_inside (rc q : Rect) (p : Point) :
  rect_defined rc -> rect_defined q -> point_ok p ->
  (m_x p <? RectOps.xmin rc)%float = false ->
  (RectOps.xmax rc <? m_x p)%float = false ->
  (m_y p <? RectOps.ymin rc)%float = false ->
  (RectOps.ymax rc <? m_y p)%float = false ->
  inside q p = true ->
  RectOps.intersects rc q = true.
Proof.
  intros [[R1 R2] [R3 R4]] [[Q1 Q2] [Q3 Q4]] [P1 P2] H1 H2 H3 H4 Hin.
  unfold inside in Hin.
  repeat (apply andb_true_iff in Hin; destruct Hin as [Hin ?]).
  unfold RectOps.intersects, Double.gtb.
  unfold RectOps.xmin, RectOps.xmax, RectOps.ymin, RectOps.ymax in *.
  apply negb_true_iff. repeat (apply orb_false_iff; split); float_order.
Qed.

Lemma root_intersects (t : tree) (q : Rect) (d : NodeData) :
  rects_ok t -> Forall point_ok (points t) -> rect_defined q ->
  In d (to_vector t) -> inside q (point d) = true ->
  match t with
  | Null => False
  | Node d0 _ _ => RectOps.intersects (rect d0) q = true
  end.
Proof.
  intros Hr Hok Hq Hin Hins. destruct t as [|d0 l r]; [contradiction|].
  pose proof (rects_root_bbox _ Hr Hok) as (B1 & B2 & B3 & B4).
  assert (Hp : In (point d) (points (Node d0 l r))) by now apply in_map.
  assert (Hpok : point_ok (point d))
    by (rewrite Forall_forall in Hok; now apply Hok).
  destruct B1 as [_ B1], B2 as [_ B2], B3 as [_ B3], B4 as [_ B4].
  rewrite Forall_forall in B1, B2, B3, B4.
  apply intersects_of_inside with (point d); trivial.
  - apply (rects_child_defined (Node d0 l r) Hr).
  - apply B1. now apply in_map.
  - apply B3. now apply in_map.
  - apply B2. now apply in_map.
  - apply B4. now apply in_map.
Qed.

(** [range] pushes every stored node whose point the query contains and
    which lies within the query under exact comparisons. *)
Lemma range_rec_complete (t : tree) (q : Rect) :
  rects_ok t -> Forall point_ok (points t) -> rect_defined q ->
  forall acc d,
    In d (to_vector t) -> RectOps.contains q (point d) = true ->
    inside q (point d) = true -> In d (range_rec t q acc).
Proof.
  intros Hr Hok Hq.
  induction t as [|d0 l IHl r IHr]; intros acc d Hin Hc Hins; [contradiction|].
  pose proof (@root_intersects (Node d0 l r) q d Hr Hok Hq Hin Hins) as Hroot.
  cbn [range_rec]. rewrite Hroot. cbn [negb].
  destruct Hr as (_ & Hrl & Hrr).
  rewrite points_node in Hok. apply Forall_app in Hok.
  destruct Hok as [Hokl Hokr]. inversion Hokr as [|? ? _ Hokr']; subst.
  cbn [to_vector] in Hin. apply in_app_or in Hin.
  set (acc1 := if RectOps.contains q (point d0) then acc ++ [d0] else acc).
  set (acc2 := match l with
               | Null => acc1
               | Node dl _ _ =>
                   if RectOps.intersects (rect dl) q
                   then range_rec l q acc1 else acc1
               end).
  assert (Hkeep : forall x, In x acc2 ->
            In x match r with
                 | Null => acc2
                 | Node dr _ _ =>
                     if RectOps.intersects (rect dr) q
                     then range_rec r q acc2 else acc2
                 end).
  { intros x Hx. destruct r as [|dr lr rr]; [exact Hx|].
    destruct (RectOps.intersects (rect dr) q);
      [now apply range_rec_keeps | exact Hx]. }
  assert (Hkeep1 : forall x, In x acc1 -> In x acc2).
  { intros x Hx. unfold acc2. destruct l as [|dl ll rl]; [exact Hx|].
    destruct (RectOps.intersects (rect dl) q);
      [now apply range_rec_keeps | exact Hx]. }
  destruct Hin as [Hin|[<-|Hin]].
  - apply Hkeep. unfold acc2.
    pose proof (@root_intersects l q d Hrl Hokl Hq Hin Hins) as Hl.
    destruct l as [|dl ll rl]; [contradiction|]. rewrite Hl.
    now apply IHl.
  - apply Hkeep, Hkeep1. unfold acc1. rewrite Hc.
    apply in_or_app. right. now left.
  - pose proof (@root_intersects r q d Hrr Hokr' Hq Hin Hins) as Hrt.
    destruct r as [|dr lr rr]; [contradiction|]. rewrite Hrt.
    now apply IHr.
Qed.

Lemma find_node (t : tree) (d : NodeData) :
  NoDup (addrs t) -> In d (to_vector t) ->
  exists l r, find t (self d) = Node d l r.
Proof.
  induction t as [|d0 l IHl r IHr]; intros Hnd Hin; [contradiction|].
  cbn [to_vector] in Hin. apply in_app_or in Hin.
  destruct (@NoDup_node _ _ _ Hnd) as (Hl & Hr & _).
  destruct Hin as [Hin|[<-|Hin]].
  - rewrite find_left; trivial; [now apply IHl | now apply in_map].
  - exists l, r. apply find_self.
  - rewrite find_right; trivial; [now apply IHr | now apply in_map].
Qed.

Lemma deref_ptr_node (t : tree) (d : NodeData) :
  NoDup (addrs t) -> In d (to_vector t) -> deref_ptr t (ptr_of d) = Some d.
Proof.
  intros Hnd Hin. destruct (@find_node _ _ Hnd Hin) as (l & r & H).
  unfold deref_ptr, ptr_of. now rewrite H.
Qed.

(** A list-backed cursor is consumed from the back. *)
Lemma collect_list (t : tree) (ds : list NodeData) :
  NoDup (addrs t) -> incl ds (to_vector t) ->
  forall fuel, length ds < fuel ->
  collect fuel t (list_it (map ptr_of ds)) iterator_default
  = Some (map point (rev ds)).
Proof.
  intros Hnd. induction ds as [|d ds IH] using rev_ind; intros Hincl fuel Hf.
  - destruct fuel; [lia|]. reflexivity.
  - destruct fuel as [|fuel]; [lia|].
    rewrite length_app in Hf. cbn [length] in Hf.
    rewrite map_app. cbn [map collect].
    assert (Hne : iterator_eqb (list_it (map ptr_of ds ++ [ptr_of d]))
                               iterator_default = false).
    { unfold iterator_eqb, iterator_default.
      destruct (map ptr_of ds); reflexivity. }
    rewrite Hne. cbn [deref incr].
    rewrite rev_app_distr. cbn [rev app].
    rewrite deref_ptr_node; trivial;
      [|apply Hincl; apply in_or_app; right; now left].
    cbn [option_map].
    destruct (map ptr_of ds ++ [ptr_of d]) as [|x xs] eqn:E;
      [now destruct (map ptr_of ds)|].
    rewrite <- E, removelast_last, IH; [|intros x' Hx'; apply Hincl,
      in_or_app; now left | lia].
    now rewrite rev_app_distr.
Qed.

End RangeFacts.

Section Answers.

Import kdtree Inv FloatOrder Inputs.

Lemma range_rec_length (t : tree) (q : Rect) :
  forall acc, length (range_rec t q acc) <= length acc + count t.
Proof.
  induction t as [|d l IHl r IHr]; intros acc; cbn [range_rec count]; [lia|].
  destruct (negb (RectOps.intersects (rect d) q)); [lia|].
  set (acc1 := if RectOps.contains q (point d) then acc ++ [d] else acc).
  assert (H1 : length acc1 <= S (length acc)).
  { unfold acc1. destruct (RectOps.contains q (point d));
      [rewrite length_app; cbn; lia | lia]. }
  set (acc2 := match l with
               | Null => acc1
               | Node dl _ _ =>
                   if RectOps.intersects (rect dl) q
                   then range_rec l q acc1 else acc1
               end).
  assert (H2 : length acc2 <= length acc1 + count l).
  { unfold acc2. destruct l as [|dl ll rl]; [lia|].
    destruct (RectOps.intersects (rect dl) q); [apply IHl | lia]. }
  destruct r as [|dr lr rr]; [lia|].
  destruct (RectOps.intersects (rect dr) q);
    [specialize (IHr acc2); lia | lia].
Qed.

Lemma built_rects (ps : tree) :
  built ps -> Forall point_ok (points ps) -> rects_ok ps.
Proof.
  intros Hb Hok.
  now destruct (@built_invariants 0 balance_table_0 ps Hb Hok) as (_ & H & _).
Qed.

Lemma from_file_kd (input : list Point) (ps : tree) :
  from_file input = Some ps -> Forall point_ok (points ps) -> kd_ok true ps.
Proof.
  intros H Hok.
  destruct (from_file_built_tree _ H) as (nodes & d & l & r & Hb & -> & Hperm).
  assert (Hn : Forall node_ok nodes).
  { apply Forall_forall. intros x Hx. unfold node_ok.
    rewrite Forall_forall in Hok. apply Hok.
    apply Permutation_sym in Hperm.
    apply (Permutation_in _ Hperm). now apply in_map. }
  pose proof (@build_tree_fuel_kd (length nodes) nodes true (le_n _) Hn) as Hk.
  change (kd_ok true (build_tree nodes true)) in Hk. rewrite Hb in Hk.
  cbn [kd_ok] in *. rewrite !points_adopt.
  destruct Hk as (Hl & Hr & Kl & Kr).
  repeat split; trivial; now apply kd_adopt.
Qed.

Lemma built_kd (ps : tree) :
  built ps -> Forall point_ok (points ps) -> kd_ok true ps.
Proof.
  induction 1 as [|input ps H|ps0 pt ps _ IH H]; intros Hok.
  - exact I.
  - now apply from_file_kd with input.
  - destruct (put_points_ok _ _ H Hok) as [Hpt Hok0].
    apply put_kd with ps0 pt; auto.
Qed.

Lemma five_set_built : built five_set.
Proof. apply built_file with five. vm_compute. reflexivity. Qed.

Lemma five_set_points :
  points five_set = [pt 0 0; pt 0 2; pt 1 1; pt 2 0; pt 2 2].
Proof. vm_compute. reflexivity. Qed.

Lemma five_set_points_ok : Forall point_ok (points five_set).
Proof.
  rewrite five_set_points.
  repeat constructor; intros H; vm_compute in H; discriminate H.
Qed.

Lemma unit_square_defined : rect_defined unit_square.
Proof. repeat constructor; intros H; vm_compute in H; discriminate H. Qed.

(** X1.  On a set built by the default or the file constructor and puts,
    none of whose coordinates is NaN, a range query returns a pair of
    cursors that a loop walks to its end; every point the loop sees is a
    stored point that [Rect::contains] accepts, and the loop sees every
    stored point that [Rect::contains] accepts and that lies within the
    query under exact comparisons. *)
Theorem range_reports_contained_points (ps : tree) (query : Rect) :
  built ps -> Forall point_ok (points ps) -> rect_defined query ->
  exists found,
    points_of ps (range ps query) = Some found
    /\ (forall p, In p found ->
          In p (points ps) /\ RectOps.contains query p = true)
    /\ (forall p, In p (points ps) -> RectOps.contains query p = true ->
          inside query p = true -> In p found).
Proof.
  intros Hb Hok Hq.
  destruct (reachable_wf (built_reachable Hb)) as [Hnd _].
  pose proof (built_rects Hb Hok) as Hr.
  exists (map point (rev (range_rec ps query []))).
  split; [|split].
  - unfold points_of, range. cbn [fst snd]. apply collect_list; trivial.
    + intros d Hd.
      destruct (@range_rec_sound ps query [] d Hd) as [[]|[H _]]; exact H.
    + pose proof (range_rec_length ps query []) as Hl. cbn [length] in Hl. lia.
  - intros p Hp. apply in_map_iff in Hp. destruct Hp as (d & <- & Hd).
    apply in_rev in Hd.
    destruct (@range_rec_sound ps query [] d Hd) as [[]|[H Hc]].
    split; [now apply in_map | exact Hc].
  - intros p Hp Hc Hi. apply in_map_iff in Hp. destruct Hp as (d & <- & Hd).
    apply in_map. rewrite <- in_rev.
    now apply range_rec_complete.
Qed.

Lemma range_reports_contained_points_witness :
  built five_set /\ Forall point_ok (points five_set)
  /\ rect_defined unit_square
  /\ exists found,
      points_of five_set (range five_set unit_square) = Some found
      /\ (forall p, In p found ->
            In p (points five_set) /\ RectOps.contains unit_square p = true)
      /\ (forall p, In p (points five_set) ->
            RectOps.contains unit_square p = true ->
            inside unit_square p = true -> In p found).
Proof.
  split; [exact five_set_built|]. split; [exact five_set_points_ok|].
  split; [exact unit_square_defined|].
  exact (range_reports_contained_points five_set_built five_set_points_ok
           unit_square_defined).
Defined.

(** The state of the search is either the initial one, or a node met on
    the way with its distance, which is below the initial bound. *)
Lemma nearest_rec_state (pt : Point) (Q : NodeData -> Prop) (t : tree) :
  forall st,
    (forall d, In d (to_vector t) -> Q d) ->
    match snd st with
    | None => fst st = Double.max_value
    | Some d =>
        (fst st <? Double.max_value)%float = true
        /\ fst st = PointOps.distance pt (point d) /\ Q d
    end ->
    match snd (nearest_rec t pt st) with
    | None => fst (nearest_rec t pt st) = Double.max_value
    | Some d =>
        (fst (nearest_rec t pt st) <? Double.max_value)%float = true
        /\ fst (nearest_rec t pt st) = PointOps.distance pt (point d) /\ Q d
    end.
Proof.
  induction t as [|d l IHl r IHr]; intros st HQ Hst; cbn [nearest_rec];
    [exact Hst|].
  destruct (Double.geb (RectOps.distance (rect d) pt) (fst st)); [exact Hst|].
  apply IHr; [intros x Hx; apply HQ; cbn [to_vector]; apply in_or_app;
              right; now right|].
  apply IHl; [intros x Hx; apply HQ; cbn [to_vector]; apply in_or_app;
              now left|].
  destruct (PointOps.distance pt (point d) <? fst st)%float eqn:E;
    [|exact Hst].
  cbn [fst snd]. split; [|split; [reflexivity|]].
  - destruct (snd st) as [d0|].
    + destruct Hst as (Hlt & _ & _). now apply ltb_trans with (fst st).
    + now rewrite <- Hst.
  - apply HQ. cbn [to_vector]. apply in_or_app. right. now left.
Qed.

(** X2.  The point [nearest] returns is a stored point, and its distance
    to the query point is below [numeric_limits<double>::max()], the
    initial bound of the search. *)
Theorem nearest_returns_stored_point (ps : tree) (p q : Point) :
  nearest ps p = Some q ->
  In q (points ps)
  /\ (PointOps.distance p q <? Double.max_value)%float = true.
Proof.
  unfold nearest. intros H.
  pose proof (@nearest_rec_state p (fun d => In d (to_vector ps)) ps
                (Double.max_value, None) (fun d Hd => Hd) eq_refl) as Hst.
  destruct (snd (nearest_rec ps p (Double.max_value, None))) as [d|];
    [|discriminate].
  injection H as <-. destruct Hst as (Hlt & Hd & Hin).
  split; [now apply in_map | now rewrite <- Hd].
Qed.

Lemma nearest_returns_stored_point_witness :
  nearest five_set nine_tenths = Some (pt 1 1)
  /\ In (pt 1 1) (points five_set)
  /\ (PointOps.distance nine_tenths (pt 1 1) <? Double.max_value)%float = true.
Proof.
  assert (H : nearest five_set nine_tenths = Some (pt 1 1))
    by (vm_compute; reflexivity).
  split; [exact H | exact (nearest_returns_stored_point _ _ H)].
Defined.

(** X3.  [put] returns on every set and for every point, and the set is
    not empty afterwards. *)
Theorem put_is_total (ps : tree) (p : Point) :
  exists ps', put ps p = Some ps' /\ empty ps' = false.
Proof.
  destruct (put_idents ps p) as (ps' & Hput & Hperm).
  exists ps'. split; [exact Hput|].
  destruct ps' as [|d l r]; [|reflexivity].
  cbn in Hperm. apply Permutation_nil in Hperm.
  destruct (contains ps p) eqn:C; [|discriminate].
  destruct ps; [discriminate C|].
  rewrite idents_node in Hperm. now destruct (idents ps1).
Qed.

(** *** The set read from a file *)

Lemma set_emplace_keeps (p q : Point) (s : list Point) :
  In q s -> In q (set_emplace p s).
Proof.
  induction s as [|a s IH]; [contradiction|]. cbn [set_emplace].
  intros [->|H].
  - destruct (PointOps.ltb p q); [now right; left|].
    destruct (PointOps.ltb q p); now left.
  - destruct (PointOps.ltb p a); [now right; right|].
    destruct (PointOps.ltb a p); [right; now apply IH | now right].
Qed.

Lemma set_emplace_from (p q : Point) (s : list Point) :
  In q (set_emplace p s) -> q = p \/ In q s.
Proof.
  induction s as [|a s IH]; cbn [set_emplace].
  - intros [<-|[]]. now left.
  - destruct (PointOps.ltb p a).
    + intros [<-|H]; [now left | now right].
    + destruct (PointOps.ltb a p); [|now right].
      intros [<-|H]; [right; now left|].
      destruct (IH H) as [->|H']; [now left | right; now right].
Qed.

Lemma point_ltb_irrefl (p : Point) : PointOps.ltb p p = false.
Proof.
  unfold PointOps.ltb. rewrite !ltb_irrefl. now rewrite andb_false_r.
Qed.

(** After [emplace(p)] the set holds an element equivalent to [p] under
    [operator<]. *)
Lemma set_emplace_has (p : Point) (s : list Point) :
  exists q, In q (set_emplace p s)
            /\ PointOps.ltb p q = false /\ PointOps.ltb q p = false.
Proof.
  induction s as [|a s IH]; cbn [set_emplace].
  - exists p. split; [now left|]. split; apply point_ltb_irrefl.
  - destruct (PointOps.ltb p a) eqn:E1.
    + exists p. split; [now left|]. split; apply point_ltb_irrefl.
    + destruct (PointOps.ltb a p) eqn:E2.
      * destruct IH as (q & Hq & H). exists q. split; [now right | exact H].
      * exists a. split; [now left | now split].
Qed.

Lemma point_set_snoc (input : list Point) (p : Point) :
  point_set (input ++ [p]) = set_emplace p (point_set input).
Proof. unfold point_set. now rewrite fold_left_app. Qed.

Lemma point_set_incl (input : list Point) : incl (point_set input) input.
Proof.
  induction input as [|p input IH] using rev_ind; [intros q []|].
  rewrite point_set_snoc. intros q Hq. apply in_or_app.
  destruct (set_emplace_from _ _ _ Hq) as [->|H]; [right; now left|].
  left. now apply IH.
Qed.

Lemma point_set_covers (input : list Point) (p : Point) :
  In p input ->
  exists q, In q (point_set input)
            /\ PointOps.ltb p q = false /\ PointOps.ltb q p = false.
Proof.
  induction input as [|a input IH] using rev_ind; [contradiction|].
  rewrite point_set_snoc. intros Hin. apply in_app_or in Hin.
  destruct Hin as [Hin|[<-|[]]].
  - destruct (IH Hin) as (q & Hq & H). exists q.
    split; [now apply set_emplace_keeps | exact H].
  - apply set_emplace_has.
Qed.

Lemma point_set_not_nil (input : list Point) :
  input <> [] -> point_set input <> [].
Proof.
  destruct input as [|a input] using rev_ind; [congruence|]. intros _.
  rewrite point_set_snoc.
  destruct (set_emplace_has a (point_set input)) as (q & Hq & _).
  intros E. now rewrite E in Hq.
Qed.

Lemma make_nodes_point (points : list Point) (a : addr) :
  map point (make_nodes a points) = points.
Proof.
  revert a. induction points as [|p points IH]; intros a; cbn; [reflexivity|].
  now rewrite IH.
Qed.

(** *** Copies *)

(** X5.  Copying a set that is not empty returns; the copy is well
    formed, lives at addresses the source does not use, and its full
    traversal sees what the traversal of the source sees, in the same
    order. *)
Theorem copy_of_nonempty_set (other : tree) :
  reachable other -> empty other = false ->
  exists ps seen,
    copy other = Some ps
    /\ wf ps
    /\ Forall (fun a => ~ In a (addrs other)) (addrs ps)
    /\ traverse other = Some seen
    /\ traverse ps = Some seen.
Proof.
  intros Hreach Hne. pose proof (reachable_wf Hreach) as Hwf.
  destruct other as [|d l r]; [discriminate|].
  set (other := Node d l r) in *.
  assert (Hcopy : copy other
                  = Some (Node (mkNodeData (fresh_addr other + self d)
                                           (point d) (rect d) 1 None)
                               (adopt (fresh_addr other + self d)
                                      (copy_node (fresh_addr other) l))
                               (adopt (fresh_addr other + self d)
                                      (copy_node (fresh_addr other) r))))
    by reflexivity.
  pose proof (copy_wf Hwf Hcopy) as Hwf'.
  eexists. exists (points other).
  split; [exact Hcopy|]. split; [exact Hwf'|]. split; [|split].
  - match goal with
    | |- Forall _ (addrs ?t) =>
        assert (E : addrs t = map (Nat.add (fresh_addr other)) (addrs other))
    end.
    { rewrite addrs_idents, idents_node, !idents_adopt, <- idents_node,
        <- addrs_idents.
      apply (idents_copy_node (fresh_addr other) other). }
    rewrite E. apply Forall_forall. intros a Ha Hin.
    apply in_map_iff in Ha. destruct Ha as (b & <- & _).
    apply max_addr_bound in Hin. unfold fresh_addr in Hin. lia.
  - now apply traverse_points.
  - rewrite (traverse_points Hwf'). f_equal.
    rewrite points_idents, idents_node, !idents_adopt, <- idents_node,
      <- points_idents.
    change (points (copy_node (fresh_addr other) other) = points other).
    apply points_copy_node.
Qed.

Lemma copy_of_nonempty_set_witness :
  reachable five_set /\ empty five_set = false
  /\ exists ps seen,
      copy five_set = Some ps
      /\ wf ps
      /\ Forall (fun a => ~ In a (addrs five_set)) (addrs ps)
      /\ traverse five_set = Some seen
      /\ traverse ps = Some seen.
Proof.
  assert (H : empty five_set = false) by (vm_compute; reflexivity).
  split; [exact five_set_reachable|]. split; [exact H|].
  exact (copy_of_nonempty_set five_set_reachable H).
Defined.

(** *** Membership and size *)

(** X6.  On a set built by the default or the file constructor and puts,
    whose coordinates are finite, [contains] holds of every stored
    point; and on every such set [contains(p)] holds only if a stored
    point is epsilon-equal to [p]. *)
Theorem contains_finds_stored_points (ps : tree) :
  built ps -> Forall point_finite (points ps) ->
  (forall q, In q (points ps) -> contains ps q = true)
  /\ (forall p, contains ps p = true ->
        exists q, In q (points ps) /\ PointOps.eqb q p = true).
Proof.
  intros Hb Hfin. split.
  - intros q Hq.
    assert (Hok : Forall point_ok (points ps)).
    { apply Forall_forall. intros x Hx. apply point_finite_ok.
      rewrite Forall_forall in Hfin. now apply Hfin. }
    rewrite Forall_forall in Hfin. pose proof (Hfin _ Hq) as Hq_fin.
    apply contains_from_complete with q; trivial.
    + now apply built_kd.
    + apply same_point_refl. now apply point_finite_ok.
    + apply eqb_same_point; trivial.
      apply same_point_refl. now apply point_finite_ok.
  - intros p Hp. now apply contains_from_sound with true.
Qed.

Lemma five_set_finite : Forall point_finite (points five_set).
Proof.
  rewrite five_set_points. repeat constructor; vm_compute; exact I.
Qed.

Lemma contains_finds_stored_points_witness :
  built five_set /\ Forall point_finite (points five_set)
  /\ (forall q, In q (points five_set) -> contains five_set q = true)
  /\ (forall p, contains five_set p = true ->
        exists q, In q (points five_set) /\ PointOps.eqb q p = true).
Proof.
  split; [exact five_set_built|]. split; [exact five_set_finite|].
  exact (contains_finds_stored_points five_set_built five_set_finite).
Defined.

(** X7.  On a set built by the default or the file constructor and puts,
    [size()] is the number of points the full traversal sees, [empty()]
    holds exactly when it is 0, and a put adds one to it exactly when
    [contains] did not hold of the point. *)
Theorem size_counts_traversed_points (ps : tree) (p : Point) :
  built ps ->
  (exists seen, traverse ps = Some seen /\ size_of ps = length seen)
  /\ (empty ps = true <-> size_of ps = 0)
  /\ (exists ps', put ps p = Some ps'
        /\ size_of ps' = size_of ps + (if contains ps p then 0 else 1)).
Proof.
  intros Hb. pose proof (built_sizes Hb) as Hs.
  split; [|split].
  - exists (points ps). split.
    + apply traverse_points, reachable_wf, built_reachable, Hb.
    + now apply size_of_points.
  - rewrite (@size_of_points ps Hs). destruct ps as [|d l r]; cbn [empty].
    + split; reflexivity.
    + rewrite points_node, length_app. cbn [length].
      split; [discriminate | lia].
  - destruct (@put_size ps p Hs) as (ps' & Hput & _ & _ & Hsize).
    exists ps'. now split.
Qed.

Lemma size_counts_traversed_points_witness :
  built five_set
  /\ (exists seen, traverse five_set = Some seen
                   /\ size_of five_set = length seen)
  /\ (empty five_set = true <-> size_of five_set = 0)
  /\ (exists ps', put five_set (pt 1 2) = Some ps'
        /\ size_of ps'
           = size_of five_set + (if contains five_set (pt 1 2) then 0 else 1)).
Proof.
  split; [exact five_set_built|].
  exact (size_counts_traversed_points (pt 1 2) five_set_built).
Defined.

(** *** The full traversal, step by step *)

(** What the loop [for (it = first; it != last; ++it)] saw, read off the
    cursor: the [n]-th point is where [n] increments lead, and as many
    increments as there are points lead to [last]. *)
Lemma collect_advance (t : tree) (last : iterator) :
  forall fuel it seen,
    collect fuel t it last = Some seen ->
    (exists it', advance t (length seen) it = Some it'
                 /\ iterator_eqb it' last = true)
    /\ (forall n p, nth_error seen n = Some p ->
          exists it', advance t n it = Some it'
                      /\ iterator_eqb it' last = false
                      /\ deref t it' = Some p).
Proof.
  induction fuel as [|fuel IH]; intros it seen H; [discriminate|].
  cbn [collect] in H.
  destruct (iterator_eqb it last) eqn:E.
  - injection H as <-. split.
    + exists it. now split.
    + intros [|n] p Hn; discriminate Hn.
  - destruct (deref t it) as [p0|] eqn:D; [|discriminate].
    destruct (incr t it) as [it1|] eqn:I1; [|discriminate].
    destruct (collect fuel t it1 last) as [rest|] eqn:C; [|discriminate].
    injection H as <-. destruct (IH _ _ C) as [Hend Hnth]. split.
    + cbn [length advance]. now rewrite I1.
    + intros [|n] p Hn; cbn [nth_error] in Hn.
      * injection Hn as <-. exists it. now repeat split.
      * cbn [advance]. rewrite I1. now apply Hnth.
Qed.

Lemma advance_node (t : tree) (n : nat) :
  forall p it, advance t n (node_it p) = Some it -> exists q, it = node_it q.
Proof.
  induction n as [|n IH]; intros p it H; cbn [advance] in H.
  - injection H as <-. now exists p.
  - cbn [incr] in H. destruct (next t p) as [q|]; [|discriminate].
    cbn [option_map] in H. now apply IH with q.
Qed.

(** X8.  On every set the interface can produce, the cursor [begin()]
    incremented [n] times stands on the [n]-th stored point from the
    left, differs from [end()] there, and equals [end()] after as many
    increments as there are stored points. *)
Theorem traversal_visits_in_order (ps : tree) :
  reachable ps ->
  advance ps (count ps) (begin_ ps) = Some end_
  /\ (forall n p, nth_error (points ps) n = Some p ->
        exists it, advance ps n (begin_ ps) = Some it
                   /\ iterator_eqb it end_ = false
                   /\ deref ps it = Some p).
Proof.
  intros Hreach.
  pose proof (traverse_points (reachable_wf Hreach)) as Ht.
  unfold traverse, points_of in Ht. cbn [fst snd] in Ht.
  destruct (collect_advance _ _ _ _ Ht) as [(it & Hadv & Heq) Hnth].
  split; [|exact Hnth].
  assert (Hlen : length (points ps) = count ps).
  { unfold points. now rewrite length_map, count_to_vector. }
  rewrite Hlen in Hadv. rewrite Hadv.
  destruct (advance_node _ _ _ Hadv) as [[a|] ->]; [discriminate Heq|].
  reflexivity.
Qed.

Lemma traversal_visits_in_order_witness :
  reachable five_set
  /\ advance five_set (count five_set) (begin_ five_set) = Some end_
  /\ (forall n p, nth_error (points five_set) n = Some p ->
        exists it, advance five_set n (begin_ five_set) = Some it
                   /\ iterator_eqb it end_ = false
                   /\ deref five_set it = Some p).
Proof.
  split;
    [exact five_set_reachable
    | exact (traversal_visits_in_order five_set_reachable)].
Defined.

(** Where [Rect::contains] accepts the point, [Rect::distance] is 0. *)
Lemma rect_distance_zero_inside (r : Rect) (p : Point) :
  RectOps.contains r p = true -> RectOps.distance r p = 0%float.
Proof.
  intros H. unfold RectOps.distance. rewrite H. reflexivity.
Qed.

(** *** Structure *)

(** X9.  Every set the interface can produce (default, file and copy
    constructors, puts) has its nodes at distinct addresses, and every
    node's parent reference names the node it hangs from, the root's
    being empty. *)
Theorem parent_links_are_consistent (ps : tree) :
  reachable ps -> NoDup (addrs ps) /\ parents_ok None ps.
Proof. intros H. exact (reachable_wf H). Qed.

Lemma parent_links_are_consistent_witness :
  reachable five_set /\ NoDup (addrs five_set) /\ parents_ok None five_set.
Proof.
  split;
    [exact five_set_reachable
    | exact (parent_links_are_consistent five_set_reachable)].
Defined.

(** X10.  In a set built by the default or the file constructor and puts,
    none of whose coordinates is NaN, the points left of a node compare
    less than the node's point on the node's axis and the points right
    of it do not, the axis being [x] at the root and alternating with
    the depth. *)
Theorem built_sets_are_ordered (ps : tree) :
  built ps -> Forall point_ok (points ps) -> kd_ok true ps.
Proof. intros Hb Hok. now apply built_kd. Qed.

Lemma built_sets_are_ordered_witness :
  built five_set /\ Forall point_ok (points five_set) /\ kd_ok true five_set.
Proof.
  split; [exact five_set_built|]. split; [exact five_set_points_ok|].
  exact (built_sets_are_ordered five_set_built five_set_points_ok).
Defined.

(** *** The two short cuts of the k-nearest query *)

(** X11.  [nearest(p, 0)] returns a pair of equal cursors, an empty
    sequence; [nearest(p, k)] with [k >= size()] and [k > 0] returns
    [begin()] and [end()], the full traversal. *)
Theorem nearest_k_short_cuts (ps : tree) (p : Point) (k : nat) :
  reachable ps -> k = 0 \/ size_of ps <= k ->
  exists pr,
    nearest_k ps p k = Some pr
    /\ points_of ps pr = Some (if Nat.eqb k 0 then [] else points ps).
Proof.
  intros Hreach Hk. unfold nearest_k.
  destruct (Nat.eqb_spec k 0) as [E|E].
  - eexists. split; [reflexivity|]. reflexivity.
  - destruct Hk as [Hk|Hk]; [contradiction|].
    apply Nat.leb_le in Hk. rewrite Hk.
    eexists. split; [reflexivity|].
    apply (traverse_points (reachable_wf Hreach)).
Qed.

Lemma nearest_k_short_cuts_witness :
  reachable five_set /\ (7 = 0 \/ size_of five_set <= 7)
  /\ exists pr,
      nearest_k five_set origin 7 = Some pr
      /\ points_of five_set pr
         = Some (if Nat.eqb 7 0 then [] else points five_set).
Proof.
  assert (H : 7 = 0 \/ size_of five_set <= 7) by (right; vm_compute; lia).
  split; [exact five_set_reachable|]. split; [exact H|].
  exact (nearest_k_short_cuts origin five_set_reachable H).
Defined.

End Answers.
(** ** The nearest point, where the rectangles bound the distance *)

Section Nearest.

Import kdtree Inv FloatOrder Inputs.

Variable pt : Point.

(** The search through [t]: the bound does not grow, stays a number, and
    ends at or below the distance of every point of [t], provided the
    rectangles bound the distance from below. *)
Lemma nearest_rec_bound (t : tree) :
  forall st,
    admissible pt t ->
    Forall (fun q => not_nan (PointOps.distance pt q)) (points t) ->
    not_nan (fst st) ->
    not_nan (fst (nearest_rec t pt st))
    /\ (fst st <? fst (nearest_rec t pt st))%float = false
    /\ Forall (fun q => (PointOps.distance pt q
                         <? fst (nearest_rec t pt st))%float = false)
              (points t).
Proof.
  induction t as [|d l IHl r IHr]; intros st Hadm Hok Hst.
  - cbn [nearest_rec]. split; [exact Hst|].
    split; [apply ltb_irrefl | constructor].
  - cbn [nearest_rec]. destruct Hadm as (Hroot & Hl & Hr).
    destruct (Double.geb (RectOps.distance (rect d) pt) (fst st)) eqn:G.
    + split; [exact Hst|]. split; [apply ltb_irrefl|].
      rewrite Forall_forall in *. intros q Hq.
      pose proof (Hroot _ Hq) as H1. pose proof (Hok _ Hq) as H2.
      unfold Double.geb in G.
      assert (H3 : not_nan (RectOps.distance (rect d) pt)).
      { unfold not_nan. intros E. rewrite leb_spec, E in G.
        destruct (Prim2SF (fst st)); discriminate G. }
      float_order.
    + rewrite points_node in Hok. apply Forall_app in Hok.
      destruct Hok as [Hokl Hokr].
      inversion Hokr as [|? ? Hd Hokr']; subst.
      set (st1 := if (PointOps.distance pt (point d) <? fst st)%float
                  then (PointOps.distance pt (point d), Some d) else st).
      assert (H1 : not_nan (fst st1)
                   /\ (fst st <? fst st1)%float = false
                   /\ (PointOps.distance pt (point d) <? fst st1)%float = false).
      { unfold st1.
        destruct (PointOps.distance pt (point d) <? fst st)%float eqn:E;
          cbn [fst].
        - split; [exact Hd|]. split; [now apply ltb_asym | apply ltb_irrefl].
        - split; [exact Hst|]. split; [apply ltb_irrefl | exact E]. }
      destruct H1 as (N1 & M1 & D1).
      destruct (IHl st1 Hl Hokl N1) as (N2 & M2 & A2).
      set (st2 := nearest_rec l pt st1) in *.
      destruct (IHr st2 Hr Hokr' N2) as (N3 & M3 & A3).
      set (st3 := nearest_rec r pt st2) in *.
      split; [exact N3|]. split; [float_order|].
      rewrite points_node. apply Forall_app. split; [|constructor].
      * rewrite Forall_forall in *. intros q Hq.
        pose proof (A2 _ Hq). pose proof (Hokl _ Hq). float_order.
      * float_order.
      * exact A3.
Qed.

Lemma max_value_not_nan : not_nan Double.max_value.
Proof. intros H. vm_compute in H. discriminate H. Qed.

(** X12.  Where the rectangles' distances to the query point bound the
    distances of the points they enclose from below, and every distance
    is a number, [nearest] returns a stored point that no stored point
    is closer than; it returns the empty optional only if no stored
    point is closer than [numeric_limits<double>::max()]. *)
Theorem nearest_is_closest_under_admissible_bound (ps : tree) :
  admissible pt ps ->
  Forall (fun q => not_nan (PointOps.distance pt q)) (points ps) ->
  match nearest ps pt with
  | Some q =>
      In q (points ps)
      /\ Forall (fun x => (PointOps.distance pt x
                           <? PointOps.distance pt q)%float = false)
                (points ps)
  | None =>
      Forall (fun x => (PointOps.distance pt x <? Double.max_value)%float
                       = false)
             (points ps)
  end.
Proof.
  intros Hadm Hok.
  destruct (@nearest_rec_bound ps (Double.max_value, None) Hadm Hok
              max_value_not_nan) as (_ & _ & Hall).
  pose proof (@nearest_rec_state pt (fun d => In d (to_vector ps)) ps
                (Double.max_value, None) (fun d Hd => Hd) eq_refl) as Hst.
  unfold nearest.
  destruct (snd (nearest_rec ps pt (Double.max_value, None))) as [d|].
  - destruct Hst as (_ & Hd & Hin). rewrite Hd in Hall.
    split; [now apply in_map | exact Hall].
  - now rewrite Hst in Hall.
Qed.

End Nearest.

Section NearestFive.

Import kdtree Inv FloatOrder Inputs.

Lemma five_set_admissible : admissible nine_tenths five_set.
Proof. vm_compute. repeat constructor. Qed.

Lemma five_set_near_distances :
  Forall (fun q => not_nan (PointOps.distance nine_tenths q)) (points five_set).
Proof.
  rewrite five_set_points.
  repeat constructor; intros H; vm_compute in H; discriminate H.
Qed.

Lemma nearest_is_closest_under_admissible_bound_witness :
  admissible nine_tenths five_set
  /\ Forall (fun q => not_nan (PointOps.distance nine_tenths q))
            (points five_set)
  /\ match nearest five_set nine_tenths with
     | Some q =>
         In q (points five_set)
         /\ Forall (fun x => (PointOps.distance nine_tenths x
                              <? PointOps.distance nine_tenths q)%float = false)
                   (points five_set)
     | None =>
         Forall (fun x => (PointOps.distance nine_tenths x
                           <? Double.max_value)%float = false)
                (points five_set)
     end.
Proof.
  split; [exact five_set_admissible|].
  split; [exact five_set_near_distances|].
  exact (@nearest_is_closest_under_admissible_bound nine_tenths five_set
           five_set_admissible five_set_near_distances).
Defined.

End NearestFive.
(** ** The k nearest points *)

Section Cursor.

Import kdtree Inv.

Lemma cursor_begin (ps : tree) : at_cursor ps (begin_at ps) (to_vector ps).
Proof.
  destruct ps as [|d l r]; [reflexivity|].
  destruct (descend Top d l r) as [[c' dm] rm] eqn:D.
  destruct (descend_spec _ _ _ _ D) as (Hplug & Hb & Ha).
  cbn [plug after] in Hplug, Ha. rewrite app_nil_r in Ha.
  rewrite <- Ha, Hb. exists c', Null, rm. now repeat split.
Qed.

(** On a node, the cursor reads the node and moves to the next one. *)
Lemma cursor_step (ps : tree) (cur : NodePtr) (d : NodeData)
  (rest : list NodeData) :
  wf ps -> at_cursor ps cur (d :: rest) ->
  deref_ptr ps cur = Some d
  /\ exists nx, next ps cur = Some nx /\ at_cursor ps nx rest.
Proof.
  intros Hwf (c & l & r & Hplug & -> & ->). subst ps.
  split; [apply deref_focus, Hwf|].
  rewrite next_focus by exact Hwf. eexists. split; [reflexivity|].
  destruct r as [|dr lr rr].
  - cbn [to_vector app].
    pose proof (climb_spec c (Node d l Null)) as Hc.
    destruct (climb c (Node d l Null)) as [[[[c' dp] lp] rp]|].
    + destruct Hc as (-> & Hp & ->). exists c', lp, rp. now repeat split.
    + destruct Hc as (-> & ->). reflexivity.
  - destruct (descend (InR d l c) dr lr rr) as [[c' dm] rm] eqn:D.
    destruct (descend_spec _ _ _ _ D) as (Hp & Hb & Ha).
    cbn [plug after] in Hp, Ha. rewrite Hb, <- Ha.
    exists c', Null, rm. now repeat split.
Qed.

Lemma cursor_length (ps : tree) (cur : NodePtr) (todo : list NodeData) :
  at_cursor ps cur todo -> length todo <= count ps.
Proof.
  destruct todo as [|d rest]; [cbn; lia|].
  intros (c & l & r & <- & _ & ->).
  rewrite <- count_to_vector, to_vector_plug. cbn [to_vector].
  repeat (rewrite ?length_app; cbn [length]). lia.
Qed.

Lemma cursor_incl (ps : tree) (cur : NodePtr) (todo : list NodeData) :
  at_cursor ps cur todo -> incl todo (to_vector ps).
Proof.
  destruct todo as [|d rest]; [intros _ x []|].
  intros (c & l & r & <- & _ & ->) x Hx.
  rewrite to_vector_plug. cbn [to_vector].
  apply in_or_app. right. apply in_or_app.
  destruct Hx as [<-|Hx].
  - left. apply in_or_app. right. now left.
  - apply in_app_or in Hx. destruct Hx as [Hx|Hx]; [left|now right].
    apply in_or_app. right. now right.
Qed.

(** The first loop takes the next [k] nodes. *)
Lemma seed_spec (ps : tree) (k : nat) :
  wf ps ->
  forall cur taken todo heap,
    length taken = k -> at_cursor ps cur (taken ++ todo) ->
    exists cur', seed k ps cur heap = Some (heap ++ taken, cur')
                 /\ at_cursor ps cur' todo.
Proof.
  intros Hwf. induction k as [|k IH]; intros cur taken todo heap Hlen Hcur.
  - destruct taken; [|discriminate]. exists cur.
    now rewrite app_nil_r.
  - destruct taken as [|d taken]; [discriminate|]. cbn [app] in Hcur.
    destruct (cursor_step Hwf Hcur) as (Hd & nx & Hnx & Hcur').
    cbn [seed]. rewrite Hd, Hnx.
    destruct (IH nx taken todo (heap ++ [d])) as (cur' & Hs & Hc);
      [now injection Hlen | exact Hcur'|].
    exists cur'. rewrite Hs, <- app_assoc. now split.
Qed.

Lemma offer_not_nil (pt : Point) (heap : list NodeData) (d : NodeData) :
  heap <> [] -> offer pt heap d <> [].
Proof.
  destruct heap as [|front heap]; [congruence|]. intros _. unfold offer.
  destruct (less_dist pt d front); [|discriminate].
  cbn [replace_front]. intros E.
  apply (f_equal (@length _)) in E.
  rewrite (Permutation_length (sort_insert_perm _ _ _)) in E. discriminate.
Qed.

(** The second loop offers every remaining node to the heap. *)
Lemma scan_spec (ps : tree) (pt : Point) :
  wf ps ->
  forall todo fuel cur heap,
    at_cursor ps cur todo -> heap <> [] -> length todo < fuel ->
    scan fuel ps pt cur heap = Some (fold_left (offer pt) todo heap).
Proof.
  intros Hwf. induction todo as [|d todo IH]; intros fuel cur heap Hcur Hne Hf;
    (destruct fuel as [|fuel]; [cbn in Hf; lia|]).
  - cbn in Hcur. subst cur. reflexivity.
  - destruct (cursor_step Hwf Hcur) as (Hd & nx & Hnx & Hcur').
    destruct Hcur as (c & l & r & _ & -> & _).
    cbn [scan fold_left]. rewrite Hd, Hnx.
    destruct heap as [|front heap]; [congruence|].
    change (if less_dist pt d front
            then replace_front pt d (front :: heap) else front :: heap)
      with (offer pt (front :: heap) d).
    apply IH; trivial; [now apply offer_not_nil | cbn in Hf; lia].
Qed.

End Cursor.

Section Heap.

Import kdtree Inv FloatOrder.

Variable pt : Point.

Lemma farther_asym (a b : NodeData) :
  farther pt a b = true -> farther pt b a = false.
Proof. unfold farther, less_dist. apply ltb_asym. Qed.

Lemma farther_negtrans (a b c : NodeData) :
  dist_ok pt a -> dist_ok pt b -> dist_ok pt c ->
  farther pt b a = false -> farther pt c b = false -> farther pt c a = false.
Proof.
  unfold farther, less_dist, dist_ok. intros Ha Hb Hc H1 H2.
  now apply not_ltb_trans with (PointOps.distance pt (point b)).
Qed.

(** One turn of the second loop: the heap takes the node and gives up
    its front, or gives up the node; what it gives up is closer than
    nothing it keeps. *)
Lemma offer_step (heap : list NodeData) (d : NodeData) :
  Forall (dist_ok pt) heap -> dist_ok pt d -> heap <> [] ->
  sorted_by (farther pt) heap ->
  exists out,
    Permutation (out :: offer pt heap d) (d :: heap)
    /\ Forall (dist_ok pt) (offer pt heap d)
    /\ sorted_by (farther pt) (offer pt heap d)
    /\ (forall r, In r (offer pt heap d) -> less_dist pt out r = false)
    /\ (forall x, (forall r, In r heap -> less_dist pt x r = false) ->
                  forall r, In r (offer pt heap d) -> less_dist pt x r = false).
Proof.
  intros Hok Hd Hne Hs. destruct heap as [|front heap]; [congruence|].
  inversion Hok as [|? ? Hfront Hheap]; subst.
  inversion Hs as [|? ? Hs' Hall]; subst.
  unfold offer. destruct (less_dist pt d front) eqn:E.
  - exists front. cbn [replace_front].
    pose proof (sort_insert_perm (farther pt) d heap) as Hperm.
    split; [|split; [|split; [|split]]].
    + rewrite Hperm. apply perm_swap.
    + apply (Permutation_Forall (Permutation_sym Hperm)). now constructor.
    + apply sort_insert_sorted with (ok := dist_ok pt); trivial.
      * exact farther_asym.
      * exact farther_negtrans.
    + intros r Hr. apply (Permutation_in _ Hperm) in Hr.
      destruct Hr as [<-|Hr].
      * unfold less_dist in *. now apply ltb_asym.
      * rewrite Forall_forall in Hall. exact (Hall _ Hr).
    + intros x Hx r Hr. apply (Permutation_in _ Hperm) in Hr.
      destruct Hr as [<-|Hr]; [|apply Hx; now right].
      pose proof (Hx front (or_introl eq_refl)) as Hxf.
      unfold less_dist in *.
      destruct (PointOps.distance pt (point x)
                <? PointOps.distance pt (point d))%float eqn:Exd;
        [|reflexivity].
      now rewrite (ltb_trans Exd E) in Hxf.
  - exists d. split; [reflexivity|]. split; [exact Hok|]. split; [exact Hs|].
    split; [|auto].
    intros r [<-|Hr]; [exact E|].
    rewrite Forall_forall in Hall, Hheap.
    pose proof (Hall _ Hr) as Hfr. unfold farther, less_dist in *.
    apply not_ltb_trans with (PointOps.distance pt (point front)); trivial.
    now apply Hheap.
Qed.

(** The second loop over [todo]: what the heap leaves out, of its first
    elements and of [todo], is closer than nothing it holds at the end. *)
Lemma offer_all (todo : list NodeData) :
  forall heap,
    Forall (dist_ok pt) heap -> Forall (dist_ok pt) todo -> heap <> [] ->
    sorted_by (farther pt) heap ->
    exists out,
      Permutation (fold_left (offer pt) todo heap ++ out) (heap ++ todo)
      /\ (forall x r, In x out -> In r (fold_left (offer pt) todo heap) ->
            less_dist pt x r = false)
      /\ (forall x, (forall r, In r heap -> less_dist pt x r = false) ->
            forall r, In r (fold_left (offer pt) todo heap) ->
                      less_dist pt x r = false).
Proof.
  induction todo as [|d todo IH]; intros heap Hok Htodo Hne Hs.
  - exists []. cbn [fold_left]. split; [reflexivity|].
    split; [intros x r []|auto].
  - inversion Htodo as [|? ? Hd Htodo']; subst.
    destruct (offer_step Hok Hd Hne Hs) as (o & Hperm & Hok' & Hs' & Ho & Hkeep).
    destruct (IH (offer pt heap d) Hok' Htodo' (offer_not_nil pt d Hne) Hs')
      as (out & Hp & Hout & Hkeep').
    exists (o :: out). cbn [fold_left]. split; [|split].
    + rewrite <- Permutation_middle, Hp.
      rewrite <- Permutation_middle.
      rewrite app_comm_cons, Hperm. cbn [app].
      reflexivity.
    + intros x r [<-|Hx] Hr; [|now apply Hout].
      now apply Hkeep' with (x := o).
    + intros x Hx r Hr. apply Hkeep' with (x := x); trivial.
      now apply Hkeep.
Qed.

Lemma offer_all_length (todo heap : list NodeData) :
  length (fold_left (offer pt) todo heap) = length heap.
Proof.
  revert heap. induction todo as [|d todo IH]; intros heap; [reflexivity|].
  cbn [fold_left]. rewrite IH. unfold offer.
  destruct heap as [|front heap]; [reflexivity|].
  destruct (less_dist pt d front); [|reflexivity].
  cbn [replace_front].
  now rewrite (Permutation_length (sort_insert_perm _ _ _)).
Qed.

End Heap.

Section KNearest.

Import kdtree Inv FloatOrder Inputs.

(** X13.  On a set built by the default or the file constructor and puts,
    for a query point whose distance to every stored point is a number,
    and [0 < k < size()]: [nearest(p, k)] returns a pair of cursors whose
    loop sees [k] of the stored points, and no stored point it leaves out
    is closer to [p] than one it sees. *)
Theorem nearest_k_returns_k_closest (ps : tree) (p : Point) (k : nat) :
  built ps ->
  Forall (fun q => not_nan (PointOps.distance p q)) (points ps) ->
  0 < k -> k < size_of ps ->
  exists pr found others,
    nearest_k ps p k = Some pr
    /\ points_of ps pr = Some found
    /\ length found = k
    /\ Permutation (found ++ others) (points ps)
    /\ (forall x r, In x others -> In r found ->
          (PointOps.distance p x <? PointOps.distance p r)%float = false).
Proof.
  intros Hb Hdist Hk0 Hk.
  pose proof (reachable_wf (built_reachable Hb)) as Hwf.
  pose proof (built_sizes Hb) as Hs.
  assert (Hsize : size_of ps = length (to_vector ps)).
  { unfold size_of. now rewrite (sizes_count _ Hs), count_to_vector. }
  set (taken := firstn k (to_vector ps)).
  set (todo := skipn k (to_vector ps)).
  assert (Hvec : taken ++ todo = to_vector ps) by apply firstn_skipn.
  assert (Hlen : length taken = k).
  { unfold taken. rewrite length_firstn. lia. }
  assert (Hall : Forall (dist_ok p) (to_vector ps)).
  { unfold points in Hdist. now rewrite Forall_map in Hdist. }
  rewrite <- Hvec in Hall. apply Forall_app in Hall.
  destruct Hall as [Hok_taken Hok_todo].
  pose proof (cursor_begin ps) as Hcur. rewrite <- Hvec in Hcur.
  destruct (@seed_spec ps k Hwf (begin_at ps) taken todo [] Hlen Hcur)
    as (cur' & Hseed & Hcur').
  cbn [app] in Hseed.
  pose proof (sort_perm (farther p) taken) as Hsort.
  assert (Hne : make_heap p taken <> []).
  { unfold make_heap. intros E. apply (f_equal (@length _)) in E.
    rewrite (Permutation_length Hsort) in E. cbn in E. lia. }
  assert (Hfuel : length todo < S (count ps)).
  { pose proof (@cursor_length ps cur' todo Hcur'). lia. }
  pose proof (@scan_spec ps p Hwf todo (S (count ps)) cur' (make_heap p taken)
                Hcur' Hne Hfuel) as Hscan.
  set (heap' := fold_left (offer p) todo (make_heap p taken)) in *.
  assert (Hok_heap : Forall (dist_ok p) (make_heap p taken))
    by exact (Permutation_Forall (Permutation_sym Hsort) Hok_taken).
  assert (Hsorted : sorted_by (farther p) (make_heap p taken)).
  { apply (@sort_sorted _ (farther p) (dist_ok p) (@farther_asym p)
             (@farther_negtrans p)). exact Hok_taken. }
  destruct (@offer_all p todo (make_heap p taken) Hok_heap Hok_todo Hne Hsorted)
    as (out & Hperm & Hout & _).
  fold heap' in Hperm, Hout.
  assert (Hperm' : Permutation (heap' ++ out) (to_vector ps)).
  { rewrite Hperm. unfold make_heap. rewrite Hsort. now rewrite Hvec. }
  assert (Hlen' : length heap' = k).
  { unfold heap'. rewrite offer_all_length. unfold make_heap.
    now rewrite (Permutation_length Hsort). }
  exists (list_it (map ptr_of heap'), iterator_default).
  exists (map point (rev heap')), (map point out).
  split; [|split; [|split; [|split]]].
  - unfold nearest_k.
    destruct (Nat.eqb_spec k 0) as [E|_]; [lia|].
    destruct (Nat.leb_spec (size_of ps) k) as [E|_]; [lia|].
    fold taken in Hseed. now rewrite Hseed, Hscan.
  - unfold points_of. cbn [fst snd]. apply collect_list.
    + apply Hwf.
    + intros d Hd. apply (Permutation_in _ Hperm').
      apply in_or_app. now left.
    + rewrite Hlen', <- count_to_vector, <- Hsize. lia.
  - now rewrite length_map, length_rev.
  - rewrite <- map_app. unfold points. apply Permutation_map.
    rewrite <- Hperm'. apply Permutation_app_tail.
    apply Permutation_sym, Permutation_rev.
  - intros x r Hx Hr.
    apply in_map_iff in Hx. destruct Hx as (dx & <- & Hx).
    apply in_map_iff in Hr. destruct Hr as (dr & <- & Hr).
    apply in_rev in Hr. exact (Hout _ _ Hx Hr).
Qed.

Lemma five_set_distances :
  Forall (fun q => not_nan (PointOps.distance (pt 1 1) q)) (points five_set).
Proof.
  rewrite five_set_points.
  repeat constructor; intros H; vm_compute in H; discriminate H.
Qed.

Lemma nearest_k_returns_k_closest_witness :
  built five_set
  /\ Forall (fun q => not_nan (PointOps.distance (pt 1 1) q)) (points five_set)
  /\ 0 < 3 /\ 3 < size_of five_set
  /\ exists pr found others,
      nearest_k five_set (pt 1 1) 3 = Some pr
      /\ points_of five_set pr = Some found
      /\ length found = 3
      /\ Permutation (found ++ others) (points five_set)
      /\ (forall x r, In x others -> In r found ->
            (PointOps.distance (pt 1 1) x
             <? PointOps.distance (pt 1 1) r)%float = false).
Proof.
  assert (H0 : 0 < 3) by lia.
  assert (H1 : 3 < size_of five_set) by (vm_compute; lia).
  split; [exact five_set_built|]. split; [exact five_set_distances|].
  split; [exact H0|]. split; [exact H1|].
  exact (nearest_k_returns_k_closest five_set_built five_set_distances H0 H1).
Defined.

End KNearest.
(** ** The absolute difference of two doubles *)

Section AbsDifference.

Import FloatOrder.

Lemma SFabs_binary_round (s1 s2 : bool) (m : positive) (e : Z) :
  SFabs (binary_round prec emax s1 m e) = SFabs (binary_round prec emax s2 m e).
Proof.
  unfold binary_round.
  destruct (shl_align m e _) as [mz ez].
  unfold binary_round_aux.
  destruct (shr_fexp prec emax (Z.pos mz) ez loc_Exact) as [mrs' e'].
  destruct (shr_fexp prec emax _ e' loc_Exact) as [mrs'' e''].
  destruct (shr_m mrs''); [reflexivity| |reflexivity].
  destruct (e'' <=? emax - prec)%Z; reflexivity.
Qed.

Lemma SFabs_binary_normalize_opp (m e : Z) (s1 s2 : bool) :
  SFabs (binary_normalize prec emax (- m) e s1)
  = SFabs (binary_normalize prec emax m e s2).
Proof.
  destruct m as [|m|m]; cbn [Z.opp binary_normalize]; [reflexivity| |];
    apply SFabs_binary_round.
Qed.

(** [|a - b|] and [|b - a|] are the same double. *)
Lemma SFabs_sub_sym (f1 f2 : spec_float) :
  SFabs (SFsub prec emax f1 f2) = SFabs (SFsub prec emax f2 f1).
Proof.
  destruct f1 as [s1|s1| |s1 m1 e1], f2 as [s2|s2| |s2 m2 e2];
    try reflexivity;
    try (destruct s1, s2; reflexivity);
    try (destruct s1; reflexivity);
    try (destruct s2; reflexivity).
  unfold SFsub. rewrite (Z.min_comm e2 e1).
  set (a := cond_Zopp s1 _). set (b := cond_Zopp s2 _).
  replace (b - a)%Z with (- (a - b))%Z by lia.
  symmetry. apply SFabs_binary_normalize_opp.
Qed.

Lemma abs_sub_sym (a b : float) (c : float) :
  (abs (a - b) <? c)%float = (abs (b - a) <? c)%float.
Proof.
  rewrite !ltb_spec, !abs_spec, !sub_spec. unfold SF64sub.
  now rewrite SFabs_sub_sym.
Qed.

End AbsDifference.
(** ** The comparison operators of Point *)

Section PointComparisons.

Import FloatOrder Baseline Inputs.

(** X14.  For all points, NaN coordinates included: [a > b] is [b < a],
    [a >= b] is [b <= a], and [==] and [!=] do not depend on the order of
    their operands. *)
Theorem point_comparisons_mirror (a b : Point) :
  PointOps.gtb a b = PointOps.ltb b a
  /\ PointOps.geb a b = PointOps.leb b a
  /\ PointOps.eqb a b = PointOps.eqb b a
  /\ PointOps.neqb a b = PointOps.neqb b a.
Proof.
  assert (Hgt : PointOps.gtb a b = PointOps.ltb b a).
  { unfold PointOps.gtb, PointOps.ltb, Double.gtb.
    now rewrite (abs_sub_sym (m_x a) (m_x b)). }
  assert (Heq : PointOps.eqb a b = PointOps.eqb b a).
  { unfold PointOps.eqb.
    now rewrite (abs_sub_sym (m_x a) (m_x b)), (abs_sub_sym (m_y a) (m_y b)). }
  split; [exact Hgt|]. split; [|split; [exact Heq|]].
  - unfold PointOps.geb, PointOps.leb. now rewrite Hgt, Heq.
  - unfold PointOps.neqb. now rewrite Heq.
Qed.

Lemma abs_sub_self_finite (x : float) :
  (abs (x - x) <? Double.EPS)%float = true -> finite x.
Proof.
  rewrite ltb_spec, abs_spec, sub_spec. unfold finite, SF64sub.
  destruct (Prim2SF x) as [s|s| |s m e]; try (intros; exact I);
    [destruct s|]; cbn; discriminate.
Qed.

(** X15.  A point compares [==] to itself exactly when both of its
    coordinates are finite: the difference of an infinity with itself is
    NaN. *)
Theorem point_equals_itself_iff_finite (p : Point) :
  PointOps.eqb p p = true <-> point_finite p.
Proof.
  split.
  - unfold PointOps.eqb. intros H. apply andb_true_iff in H.
    destruct H as [Hx Hy]. split; now apply abs_sub_self_finite.
  - intros H. apply eqb_same_point; trivial.
    apply same_point_refl. now apply point_finite_ok.
Qed.

(** Between finite points whose [x] coordinates are apart, [operator<]
    is the lexicographic order. *)
Lemma ltb_lex (p q : Point) :
  point_finite p -> point_finite q -> x_separated p q ->
  PointOps.ltb p q
  = ((m_x p <? m_x q) || ((m_x p =? m_x q) && (m_y p <? m_y q)))%float.
Proof.
  intros [Hpx _] [Hqx _] Hsep. unfold PointOps.ltb. f_equal. f_equal.
  destruct (abs (m_x p - m_x q) <? Double.EPS)%float eqn:E.
  - symmetry. now apply Hsep.
  - destruct (m_x p =? m_x q)%float eqn:E'; [|reflexivity].
    now rewrite (abs_sub_feq Hpx Hqx E') in E.
Qed.

Lemma ltb_lex_rk (p q : Point) :
  point_finite p -> point_finite q -> x_separated p q ->
  PointOps.ltb p q = true
  <-> (lex_lt (rk (m_x p)) (rk (m_x q))
       \/ (rk (m_x p) = rk (m_x q) /\ lex_lt (rk (m_y p)) (rk (m_y q)))).
Proof.
  intros Hp Hq Hsep. rewrite (ltb_lex Hp Hq Hsep).
  destruct (point_finite_ok Hp) as [Hpx Hpy].
  destruct (point_finite_ok Hq) as [Hqx Hqy].
  rewrite orb_true_iff, andb_true_iff.
  rewrite (ltb_rk Hpx Hqx), (ltb_rk Hpy Hqy).
  change ((m_x p =? m_x q)%float = true) with (feq (m_x p) (m_x q)).
  now rewrite (eqb_rk Hpx Hqx).
Qed.

Lemma lex_order_facts (a b c a' b' c' : Z * Z * Z) :
  let lt x y x' y' := lex_lt x x' \/ (x = x' /\ lex_lt y y') in
  ~ lt a a' a a'
  /\ (lt a a' b b' -> ~ lt b b' a a')
  /\ (lt a a' b b' -> lt b b' c c' -> lt a a' c c')
  /\ (~ lt a a' b b' -> ~ lt b b' c c' -> ~ lt a a' c c')
  /\ (~ lt a a' b b' -> ~ lt b b' a a' -> a = b /\ a' = b').
Proof.
  destruct a as [[a1 a2] a3], b as [[b1 b2] b3], c as [[c1 c2] c3].
  destruct a' as [[a1' a2'] a3'], b' as [[b1' b2'] b3'], c' as [[c1' c2'] c3'].
  unfold lex_lt. cbn [fst snd]. rewrite !pair_equal_spec.
  repeat split; lia.
Qed.

(** X16.  Among points with finite coordinates no two of which have [x]
    coordinates less than epsilon apart without being equal,
    [Point::operator<] is a strict weak order, as [std::set<Point>]
    needs: irreflexive, asymmetric, transitive, with a transitive
    complement; and two points are equivalent under it exactly when
    their coordinates are equal. *)
Theorem point_order_is_strict_weak (U : list Point) (p q r : Point) :
  Forall point_finite U -> x_apart U ->
  In p U -> In q U -> In r U ->
  PointOps.ltb p p = false
  /\ (PointOps.ltb p q = true -> PointOps.ltb q p = false)
  /\ (PointOps.ltb p q = true -> PointOps.ltb q r = true ->
      PointOps.ltb p r = true)
  /\ (PointOps.ltb p q = false -> PointOps.ltb q r = false ->
      PointOps.ltb p r = false)
  /\ (equivalent p q = true <-> same_point p q).
Proof.
  intros Hfin Hsep Hp Hq Hr. rewrite Forall_forall in Hfin.
  pose proof (Hfin _ Hp) as Fp. pose proof (Hfin _ Hq) as Fq.
  pose proof (Hfin _ Hr) as Fr.
  pose proof (lex_order_facts (rk (m_x p)) (rk (m_x q)) (rk (m_x r))
                (rk (m_y p)) (rk (m_y q)) (rk (m_y r)))
    as (_ & Hasym & Htrans & Hneg & Heq).
  pose proof (ltb_lex_rk Fp Fq (Hsep _ _ Hp Hq)) as Lpq.
  pose proof (ltb_lex_rk Fq Fp (Hsep _ _ Hq Hp)) as Lqp.
  pose proof (ltb_lex_rk Fq Fr (Hsep _ _ Hq Hr)) as Lqr.
  pose proof (ltb_lex_rk Fp Fr (Hsep _ _ Hp Hr)) as Lpr.
  destruct (point_finite_ok Fp) as [Hpx Hpy].
  destruct (point_finite_ok Fq) as [Hqx Hqy].
  split; [|split; [|split; [|split]]].
  - unfold PointOps.ltb. now rewrite !ltb_irrefl, andb_false_r.
  - intros H. apply Lpq in H. apply not_true_is_false. rewrite Lqp. auto.
  - intros H1 H2. apply Lpr. apply Lpq in H1. apply Lqr in H2. auto.
  - intros H1 H2. apply not_true_is_false. rewrite Lpr.
    apply Hneg; [rewrite <- Lpq | rewrite <- Lqr]; congruence.
  - unfold equivalent, same_point. rewrite andb_true_iff, !negb_true_iff.
    unfold feq. fold (feq (m_x p) (m_x q)). fold (feq (m_y p) (m_y q)).
    rewrite (eqb_rk Hpx Hqx), (eqb_rk Hpy Hqy). split.
    + intros [H1 H2]. apply Heq; [rewrite <- Lpq | rewrite <- Lqp]; congruence.
    + intros [Ex Ey]. split; apply not_true_is_false.
      * rewrite Lpq, Ex, Ey. unfold lex_lt. lia.
      * rewrite Lqp, Ex, Ey. unfold lex_lt. lia.
Qed.

Lemma five_finite : Forall point_finite five.
Proof. repeat constructor; vm_compute; exact I. Qed.

Lemma five_x_apart : x_apart five.
Proof.
  intros p q Hp Hq H. unfold five in Hp, Hq. cbn [In] in Hp, Hq.
  repeat (destruct Hp as [<-|Hp]); try contradiction;
    repeat (destruct Hq as [<-|Hq]); try contradiction;
    first [ vm_compute in H; discriminate H | vm_compute; reflexivity ].
Qed.

Lemma point_order_is_strict_weak_witness :
  Forall point_finite five /\ x_apart five
  /\ In (pt 0 0) five /\ In (pt 1 1) five /\ In (pt 2 2) five
  /\ PointOps.ltb (pt 0 0) (pt 0 0) = false
  /\ (PointOps.ltb (pt 0 0) (pt 1 1) = true ->
      PointOps.ltb (pt 1 1) (pt 0 0) = false)
  /\ (PointOps.ltb (pt 0 0) (pt 1 1) = true ->
      PointOps.ltb (pt 1 1) (pt 2 2) = true ->
      PointOps.ltb (pt 0 0) (pt 2 2) = true)
  /\ (PointOps.ltb (pt 0 0) (pt 1 1) = false ->
      PointOps.ltb (pt 1 1) (pt 2 2) = false ->
      PointOps.ltb (pt 0 0) (pt 2 2) = false)
  /\ (equivalent (pt 0 0) (pt 1 1) = true <-> same_point (pt 0 0) (pt 1 1)).
Proof.
  assert (H0 : In (pt 0 0) five) by (cbn; tauto).
  assert (H1 : In (pt 1 1) five) by (cbn; tauto).
  assert (H2 : In (pt 2 2) five) by (cbn; tauto).
  split; [exact five_finite|]. split; [exact five_x_apart|].
  split; [exact H0|]. split; [exact H1|]. split; [exact H2|].
  exact (@point_order_is_strict_weak five (pt 0 0) (pt 1 1) (pt 2 2)
           five_finite five_x_apart H0 H1 H2).
Defined.

(** Without the separation the order is not asymmetric: each of two
    points whose [x] coordinates differ by less than epsilon can be
    below the other. *)
Lemma point_order_not_asymmetric :
  PointOps.ltb (pt 0 1) (pt 0x1p-60 0) = true
  /\ PointOps.ltb (pt 0x1p-60 0) (pt 0 1) = true.
Proof. split; vm_compute; reflexivity. Qed.

End PointComparisons.
(** ** The baseline set: insertion and lookup *)

Section BaselineSet.

Import FloatOrder Baseline Inputs.

Variable U : list Point.
Hypothesis U_finite : Forall point_finite U.
Hypothesis U_apart : x_apart U.

Lemma U_lex (p q : Point) :
  In p U -> In q U ->
  PointOps.ltb p q = true
  <-> (lex_lt (rk (m_x p)) (rk (m_x q))
       \/ (rk (m_x p) = rk (m_x q) /\ lex_lt (rk (m_y p)) (rk (m_y q)))).
Proof.
  intros Hp Hq. pose proof U_finite as Hfin. rewrite Forall_forall in Hfin.
  apply ltb_lex_rk; auto.
Qed.

Lemma U_asym (p q : Point) :
  In p U -> In q U -> PointOps.ltb p q = true -> PointOps.ltb q p = false.
Proof.
  intros Hp Hq H. apply (@U_lex p q Hp Hq) in H. apply not_true_is_false.
  rewrite (@U_lex q p Hq Hp).
  now apply (lex_order_facts (rk (m_x p)) (rk (m_x q)) (rk (m_x q))
               (rk (m_y p)) (rk (m_y q)) (rk (m_y q))).
Qed.

Lemma U_trans (p q r : Point) :
  In p U -> In q U -> In r U ->
  PointOps.ltb p q = true -> PointOps.ltb q r = true -> PointOps.ltb p r = true.
Proof.
  intros Hp Hq Hr H1 H2. apply (@U_lex p q Hp Hq) in H1. apply (@U_lex q r Hq Hr) in H2.
  apply (@U_lex p r Hp Hr).
  now apply (lex_order_facts (rk (m_x p)) (rk (m_x q)) (rk (m_x r))
               (rk (m_y p)) (rk (m_y q)) (rk (m_y r))).
Qed.

Lemma U_equivalent (p q : Point) :
  In p U -> In q U ->
  PointOps.ltb p q = false -> PointOps.ltb q p = false -> same_point p q.
Proof.
  intros Hp Hq H1 H2.
  pose proof (lex_order_facts (rk (m_x p)) (rk (m_x q)) (rk (m_x q))
                (rk (m_y p)) (rk (m_y q)) (rk (m_y q)))
    as (_ & _ & _ & _ & Heq).
  pose proof U_finite as Hfin. rewrite Forall_forall in Hfin.
  destruct (point_finite_ok (Hfin _ Hp)) as [Hpx Hpy].
  destruct (point_finite_ok (Hfin _ Hq)) as [Hqx Hqy].
  assert (A : ~ (lex_lt (rk (m_x p)) (rk (m_x q))
                 \/ (rk (m_x p) = rk (m_x q)
                     /\ lex_lt (rk (m_y p)) (rk (m_y q)))))
    by (rewrite <- (@U_lex p q Hp Hq); congruence).
  assert (B : ~ (lex_lt (rk (m_x q)) (rk (m_x p))
                 \/ (rk (m_x q) = rk (m_x p)
                     /\ lex_lt (rk (m_y q)) (rk (m_y p)))))
    by (rewrite <- (@U_lex q p Hq Hp); congruence).
  destruct (Heq A B) as [Ex Ey].
  split; [now apply (eqb_rk Hpx Hqx) | now apply (eqb_rk Hpy Hqy)].
Qed.

Lemma U_same_not_less (p q : Point) :
  In p U -> In q U -> same_point p q -> PointOps.ltb p q = false.
Proof.
  intros Hp Hq [Hx Hy]. apply not_true_is_false. rewrite (@U_lex p q Hp Hq).
  apply feq_not_nan in Hx as Hn. apply feq_not_nan in Hy as Hn'.
  destruct Hn as [Hpx Hqx], Hn' as [Hpy Hqy].
  apply (eqb_rk Hpx Hqx) in Hx. apply (eqb_rk Hpy Hqy) in Hy.
  rewrite Hx, Hy. unfold lex_lt. lia.
Qed.

(** [insert] keeps the elements growing. *)
Lemma emplace_ok (p : Point) (s : list Point) :
  In p U -> set_ok U s -> set_ok U (kdtree.set_emplace p s).
Proof.
  intros Hp [Hs HU]. split.
  - induction Hs as [|q s Hs IH Hq]; cbn [kdtree.set_emplace].
    + repeat constructor.
    + assert (HqU : In q U) by (apply HU; now left).
      assert (HsU : incl s U) by (intros x Hx; apply HU; now right).
      destruct (PointOps.ltb p q) eqn:E1.
      * constructor; [now constructor|]. constructor; [exact E1|].
        rewrite Forall_forall in Hq |- *. intros x Hx.
        apply U_trans with q; auto.
      * destruct (PointOps.ltb q p) eqn:E2; [|now constructor].
        constructor; [now apply IH|].
        rewrite Forall_forall in Hq |- *. intros x Hx.
        destruct (set_emplace_from _ _ _ Hx) as [->|Hx']; auto.
  - intros x Hx. destruct (set_emplace_from _ _ _ Hx) as [->|Hx']; auto.
Qed.

(** [insert] adds the point exactly when [find] does not find it. *)
Lemma emplace_find (p : Point) (s : list Point) :
  In p U -> incl s U ->
  forall i,
    match rbtree.find i s p with
    | Some _ => kdtree.set_emplace p s = s
    | None => Permutation (kdtree.set_emplace p s) (p :: s)
    end.
Proof.
  intros Hp. induction s as [|q s IH]; intros HU i;
    cbn [rbtree.find kdtree.set_emplace]; [reflexivity|].
  assert (HqU : In q U) by (apply HU; now left).
  assert (HsU : incl s U) by (intros x Hx; apply HU; now right).
  destruct (PointOps.ltb q p) eqn:E2.
  - rewrite (@U_asym q p HqU Hp E2).
    specialize (IH HsU (S i)).
    destruct (rbtree.find (S i) s p).
    + now rewrite IH.
    + rewrite IH. apply perm_swap.
  - destruct (PointOps.ltb p q); reflexivity.
Qed.

(** After [insert(p)], [find(p)] finds an element. *)
Lemma find_emplaced (p : Point) (s : list Point) :
  forall i, rbtree.find i (kdtree.set_emplace p s) p <> None.
Proof.
  induction s as [|q s IH]; intros i; cbn [kdtree.set_emplace].
  - cbn [rbtree.find]. rewrite point_ltb_irrefl. discriminate.
  - destruct (PointOps.ltb p q) eqn:E1.
    + cbn [rbtree.find]. rewrite point_ltb_irrefl. discriminate.
    + destruct (PointOps.ltb q p) eqn:E2; cbn [rbtree.find]; rewrite E2.
      * now apply IH.
      * rewrite E1. discriminate.
Qed.

(** [find] finds every element of the set, and finds only points that
    have the coordinates of an element. *)
Lemma find_spec (p : Point) (s : list Point) :
  In p U -> set_ok U s ->
  forall i,
    rbtree.find i s p <> None <-> exists q, In q s /\ same_point q p.
Proof.
  intros Hp [Hs HU]. induction Hs as [|q s Hs IH Hq]; intros i;
    cbn [rbtree.find].
  - split; [congruence | intros (q & [] & _)].
  - assert (HqU : In q U) by (apply HU; now left).
    assert (HsU : incl s U) by (intros x Hx; apply HU; now right).
    rewrite Forall_forall in Hq.
    destruct (PointOps.ltb q p) eqn:E2.
    + rewrite (IH HsU (S i)). split.
      * intros (x & Hx & Hsame). exists x. split; [now right | exact Hsame].
      * intros (x & [<-|Hx] & Hsame); [|now exists x].
        rewrite (@U_same_not_less q p HqU Hp Hsame) in E2. discriminate.
    + destruct (PointOps.ltb p q) eqn:E1.
      * split; [congruence|]. intros (x & [<-|Hx] & Hsame).
        -- apply same_point_sym in Hsame.
           rewrite (@U_same_not_less p q Hp HqU Hsame) in E1. discriminate.
        -- exfalso. pose proof (@U_trans p q x Hp HqU (HsU _ Hx) E1 (Hq _ Hx)) as H.
           apply same_point_sym in Hsame.
           rewrite (@U_same_not_less p x Hp (HsU _ Hx) Hsame) in H. discriminate.
      * split; [|discriminate]. intros _. exists q. split; [now left|].
        now apply U_equivalent.
Qed.

Lemma from_file_ok (input : list Point) :
  incl input U -> set_ok U (rbtree.from_file input).
Proof.
  unfold rbtree.from_file.
  assert (H : forall s, set_ok U s -> incl input U ->
              set_ok U (fold_left (fun s p => kdtree.set_emplace p s) input s)).
  { induction input as [|p input IH]; intros s Hs HU; [exact Hs|].
    cbn [fold_left]. apply IH.
    - apply emplace_ok; [apply HU; now left | exact Hs].
    - intros x Hx. apply HU. now right. }
  apply H. split; [constructor | intros x []].
Qed.

Lemma set_built_ok (s : rbtree.PointSet) : set_built U s -> set_ok U s.
Proof.
  induction 1 as [|input HU|s p _ IH Hp].
  - split; [constructor | intros x []].
  - now apply from_file_ok.
  - now apply emplace_ok.
Qed.

End BaselineSet.

Section BaselinePut.

Import FloatOrder Baseline Inputs.

Lemma contains_find (s : rbtree.PointSet) (p : Point) :
  rbtree.contains s p = true <-> rbtree.find 0 s p <> None.
Proof.
  unfold rbtree.contains. destruct (rbtree.find 0 s p); split; congruence.
Qed.

(** X17.  On a baseline set built from points with finite coordinates
    whose [x] coordinates are apart: after [put(p)], [contains(p)] holds,
    every element is still an element and [contains] holds of it,
    [size()] has grown by one exactly when [contains(p)] did not hold
    before, and [contains(p)] holds exactly when an element has the
    coordinates of [p]. *)
Theorem baseline_put_then_contains (U : list Point) (s : rbtree.PointSet)
  (p : Point) :
  Forall point_finite U -> x_apart U -> set_built U s -> In p U ->
  rbtree.contains (rbtree.put s p) p = true
  /\ (forall q, In q s ->
        In q (rbtree.put s p) /\ rbtree.contains (rbtree.put s p) q = true)
  /\ rbtree.size (rbtree.put s p)
     = rbtree.size s + (if rbtree.contains s p then 0 else 1)
  /\ (rbtree.contains s p = true <-> exists q, In q s /\ same_point q p).
Proof.
  intros Hfin Hap Hb Hp.
  pose proof (@set_built_ok U Hfin Hap s Hb) as Hok.
  pose proof (@emplace_ok U Hfin Hap p s Hp Hok) as Hok'.
  destruct Hok as [Hs HU].
  split; [|split; [|split]].
  - apply contains_find. exact (@find_emplaced p s 0).
  - intros q Hq. split; [now apply set_emplace_keeps|].
    apply contains_find.
    apply (@find_spec U Hfin Hap q (rbtree.put s p) (HU _ Hq) Hok' 0).
    exists q. split; [now apply set_emplace_keeps|].
    apply same_point_refl, point_finite_ok.
    rewrite Forall_forall in Hfin. apply Hfin, HU, Hq.
  - pose proof (@emplace_find U Hfin Hap p s Hp HU 0) as H.
    unfold rbtree.put, rbtree.contains, rbtree.size.
    destruct (rbtree.find 0 s p).
    + rewrite H. lia.
    + rewrite (Permutation_length H). cbn [length]. lia.
  - rewrite contains_find.
    apply (@find_spec U Hfin Hap p s Hp (conj Hs HU) 0).
Qed.

Lemma five_set_built_baseline : set_built five (rbtree.from_file five).
Proof. apply set_file. apply incl_refl. Qed.

Lemma baseline_put_then_contains_witness :
  Forall point_finite five /\ x_apart five
  /\ set_built five (rbtree.from_file five) /\ In (pt 1 1) five
  /\ rbtree.contains (rbtree.put (rbtree.from_file five) (pt 1 1)) (pt 1 1)
     = true
  /\ (forall q, In q (rbtree.from_file five) ->
        In q (rbtree.put (rbtree.from_file five) (pt 1 1))
        /\ rbtree.contains (rbtree.put (rbtree.from_file five) (pt 1 1)) q
           = true)
  /\ rbtree.size (rbtree.put (rbtree.from_file five) (pt 1 1))
     = rbtree.size (rbtree.from_file five)
       + (if rbtree.contains (rbtree.from_file five) (pt 1 1) then 0 else 1)
  /\ (rbtree.contains (rbtree.from_file five) (pt 1 1) = true
      <-> exists q, In q (rbtree.from_file five) /\ same_point q (pt 1 1)).
Proof.
  assert (H1 : In (pt 1 1) five) by (cbn; tauto).
  split; [exact five_finite|]. split; [exact five_x_apart|].
  split; [exact five_set_built_baseline|]. split; [exact H1|].
  exact (@baseline_put_then_contains five (rbtree.from_file five) (pt 1 1)
           five_finite five_x_apart five_set_built_baseline H1).
Defined.

End BaselinePut.
(** ** The baseline set: cursors and queries *)

Section BaselineCursors.

Import FloatOrder Baseline Inputs.

Lemma elements_snd (s : list Point) (i : nat) :
  map snd (rbtree.elements i s) = s.
Proof.
  revert i. induction s as [|q s IH]; intros i; cbn; [reflexivity|].
  now rewrite IH.
Qed.

Lemma elements_length (s : list Point) (i : nat) :
  length (rbtree.elements i s) = length s.
Proof.
  revert i. induction s as [|q s IH]; intros i; cbn; [reflexivity|].
  now rewrite IH.
Qed.

Lemma elements_nth (s : list Point) :
  forall i e, In e (rbtree.elements i s) ->
              i <= fst e /\ nth_error s (fst e - i) = Some (snd e).
Proof.
  induction s as [|q s IH]; intros i e; cbn [rbtree.elements]; [intros []|].
  intros [<-|H]; cbn [fst snd].
  - rewrite Nat.sub_diag. now split.
  - destruct (IH _ _ H) as [Hle Hn]. split; [lia|].
    replace (fst e - i) with (S (fst e - S i)) by lia. exact Hn.
Qed.

Lemma elements_at (s : list Point) (e : nat * Point) :
  In e (rbtree.elements 0 s) -> nth_error s (fst e) = Some (snd e).
Proof.
  intros H. destruct (elements_nth _ _ _ H) as [_ Hn].
  now rewrite Nat.sub_0_r in Hn.
Qed.

Lemma range_from_elements (s : list Point) (rect : Rect) (i : nat) :
  rbtree.range_from i s rect
  = map fst (filter (fun e => RectOps.contains rect (snd e))
                    (rbtree.elements i s)).
Proof.
  revert i. induction s as [|q s IH]; intros i;
    cbn [rbtree.range_from rbtree.elements filter snd]; [reflexivity|].
  destruct (RectOps.contains rect q); cbn [map fst]; now rewrite IH.
Qed.

Lemma filter_elements (f : Point -> bool) (s : list Point) (i : nat) :
  map snd (filter (fun e => f (snd e)) (rbtree.elements i s)) = filter f s.
Proof.
  revert i. induction s as [|q s IH]; intros i;
    cbn [rbtree.elements filter snd]; [reflexivity|].
  destruct (f q); cbn [map snd]; now rewrite IH.
Qed.

(** A vector-backed cursor is consumed from the back. *)
Lemma collect_vec (s : rbtree.PointSet) (es : list (nat * Point)) :
  (forall e, In e es -> nth_error s (fst e) = Some (snd e)) ->
  forall fuel, length es < fuel ->
  rbtree.collect fuel s (rbtree.vec_it (map fst es)) rbtree.iterator_default
  = Some (map snd (rev es)).
Proof.
  induction es as [|e es IH] using rev_ind; intros Hes fuel Hf.
  - destruct fuel; [lia|]. reflexivity.
  - destruct fuel as [|fuel]; [lia|].
    rewrite length_app in Hf. cbn [length] in Hf.
    rewrite map_app. cbn [map rbtree.collect].
    assert (Hne : rbtree.iterator_eqb
                    (rbtree.vec_it (map fst es ++ [fst e]))
                    rbtree.iterator_default = false).
    { unfold rbtree.iterator_eqb, rbtree.iterator_default.
      destruct (map fst es); reflexivity. }
    rewrite Hne. cbn [rbtree.deref rbtree.incr].
    rewrite rev_app_distr. cbn [rev app].
    rewrite (Hes e) by (apply in_or_app; right; now left).
    destruct (map fst es ++ [fst e]) as [|x xs] eqn:E;
      [now destruct (map fst es)|].
    rewrite <- E, removelast_last, IH;
      [|intros e' He'; apply Hes, in_or_app; now left | lia].
    now rewrite rev_app_distr.
Qed.

Lemma collect_step (fuel : nat) (s : rbtree.PointSet)
  (it last : rbtree.iterator) :
  rbtree.collect (S fuel) s it last
  = if rbtree.iterator_eqb it last then Some []
    else match rbtree.deref s it, rbtree.incr s it with
         | Some p, Some it' =>
             match rbtree.collect fuel s it' last with
             | Some ps => Some (p :: ps)
             | None => None
             end
         | _, _ => None
         end.
Proof. reflexivity. Qed.

Lemma skipn_nth (A : Type) (l : list A) :
  forall i a, nth_error l i = Some a -> skipn i l = a :: skipn (S i) l.
Proof.
  induction l as [|b l IH]; intros [|i] a H; cbn in *; try discriminate.
  - now injection H as ->.
  - now apply IH.
Qed.

(** The loop from a set iterator to [end()] sees the elements from its
    position on. *)
Lemma collect_set (s : rbtree.PointSet) :
  forall n i, i + n = length s ->
  rbtree.collect (S n) s (rbtree.set_it i) (rbtree.end_ s) = Some (skipn i s).
Proof.
  induction n as [|n IH]; intros i Hi; rewrite collect_step;
    unfold rbtree.end_ at 1; unfold rbtree.iterator_eqb.
  - replace i with (length s) by lia. rewrite Nat.eqb_refl.
    now rewrite skipn_all.
  - destruct (Nat.eqb_spec i (length s)) as [E|_]; [lia|].
    cbn [rbtree.deref rbtree.incr].
    destruct (nth_error s i) as [p|] eqn:Hn;
      [|apply nth_error_None in Hn; lia].
    destruct (Nat.ltb_spec i (length s)) as [_|E]; [|lia].
    rewrite (IH (S i)) by lia.
    now rewrite (skipn_nth _ _ Hn).
Qed.

(** X18.  On every baseline set and for every rectangle, the loop over
    the pair of cursors [range] returns terminates and sees exactly the
    elements that [Rect::contains] accepts, each once. *)
Theorem baseline_range_is_exact (s : rbtree.PointSet) (rect : Rect) :
  exists found,
    rbtree.points_of s (rbtree.range s rect) = Some found
    /\ Permutation found (filter (RectOps.contains rect) s)
    /\ (forall p, In p found <-> In p s /\ RectOps.contains rect p = true).
Proof.
  set (es := filter (fun e => RectOps.contains rect (snd e))
                    (rbtree.elements 0 s)).
  exists (map snd (rev es)).
  assert (Hmap : map snd es = filter (RectOps.contains rect) s)
    by apply filter_elements.
  split; [|split].
  - unfold rbtree.points_of, rbtree.range. cbn [fst snd].
    rewrite range_from_elements. apply collect_vec.
    + intros e He. apply elements_at. unfold es in He.
      now apply filter_In in He.
    + pose proof (filter_length_le (fun e => RectOps.contains rect (snd e))
                    (rbtree.elements 0 s)) as Hl.
      rewrite elements_length in Hl. apply Nat.lt_succ_r. exact Hl.
  - rewrite <- Hmap. apply Permutation_map, Permutation_sym, Permutation_rev.
  - intros p. rewrite map_rev, <- in_rev, Hmap. apply filter_In.
Qed.

(** *** The nearest element *)

(** [std::min_element]: the result is an element, no element is closer
    than it, and it is the first such element. *)
Lemma min_element_spec (pt : Point) (s : list Point) :
  forall m,
    In (rbtree.min_element pt m s) (m :: s)
    /\ (near_ok pt m -> Forall (near_ok pt) s ->
        near_ok pt (rbtree.min_element pt m s)
        /\ Forall (fun x => (PointOps.distance pt x
                             <? PointOps.distance pt
                                  (rbtree.min_element pt m s))%float = false)
                  (m :: s)).
Proof.
  induction s as [|q s IH]; intros m; cbn [rbtree.min_element].
  - split; [now left|]. intros Hm _. split; [exact Hm|].
    constructor; [apply ltb_irrefl | constructor].
  - set (m' := if (PointOps.distance pt q <? PointOps.distance pt m)%float
               then q else m).
    destruct (IH m') as [Hin Hmin]. split.
    + destruct Hin as [Hin|Hin]; [|right; now right].
      rewrite <- Hin. unfold m'.
      destruct (PointOps.distance pt q <? PointOps.distance pt m)%float;
        [right; now left | now left].
    + intros Hm Hs. inversion Hs as [|? ? Hq Hs']; subst.
      assert (Hm' : near_ok pt m').
      { unfold m'.
        destruct (PointOps.distance pt q <? PointOps.distance pt m)%float;
          assumption. }
      destruct (Hmin Hm' Hs') as [Hr Hall]. split; [exact Hr|].
      inversion Hall as [|? ? Hm'r Hall']; subst.
      unfold near_ok in *.
      assert (Hmm : (PointOps.distance pt m <? PointOps.distance pt m')%float
                    = false
                    /\ (PointOps.distance pt q <? PointOps.distance pt m')%float
                       = false).
      { unfold m'.
        destruct (PointOps.distance pt q <? PointOps.distance pt m)%float eqn:E.
        - split; [now apply ltb_asym | apply ltb_irrefl].
        - split; [apply ltb_irrefl | exact E]. }
      destruct Hmm as [Hm1 Hm2].
      constructor; [|constructor; [|exact Hall']].
      * now apply not_ltb_trans with (PointOps.distance pt m').
      * now apply not_ltb_trans with (PointOps.distance pt m').
Qed.

(** X19.  The baseline [nearest] returns the empty optional exactly on
    the empty set; the point it returns is an element, and, when every
    distance is a number, no element is closer to the query point. *)
Theorem baseline_nearest_is_closest (s : rbtree.PointSet) (pt : Point) :
  (rbtree.nearest s pt = None <-> rbtree.empty s = true)
  /\ (forall q, rbtree.nearest s pt = Some q ->
        In q s
        /\ (Forall (near_ok pt) s ->
            Forall (fun x => (PointOps.distance pt x
                              <? PointOps.distance pt q)%float = false) s)).
Proof.
  destruct s as [|m s]; cbn [rbtree.nearest rbtree.empty].
  - split; [tauto | discriminate].
  - split; [split; discriminate|].
    intros q H. injection H as <-.
    destruct (min_element_spec pt s m) as [Hin Hmin].
    split; [exact Hin|]. intros Hok.
    inversion Hok as [|? ? Hm Hs]; subst. now apply Hmin.
Qed.

(** *** The full traversal *)

Lemma increasing_distinct (U : list Point) (s : list Point) :
  Forall point_finite U -> x_apart U -> set_ok U s ->
  forall i j a b,
    nth_error s i = Some a -> nth_error s j = Some b ->
    same_point a b -> i = j.
Proof.
  intros Hfin Hap [Hs HU].
  assert (Hlt : forall i j a b, i < j ->
            nth_error s i = Some a -> nth_error s j = Some b ->
            PointOps.ltb a b = true).
  { clear HU. induction Hs as [|q s Hs IH Hq]; intros i j a b Hij Hi Hj.
    - destruct i; discriminate.
    - destruct j as [|j]; [lia|]. cbn [nth_error] in Hj.
      destruct i as [|i]; cbn [nth_error] in Hi.
      + injection Hi as <-. rewrite Forall_forall in Hq.
        apply Hq. now apply nth_error_In with j.
      + apply IH with i j; trivial. lia. }
  intros i j a b Hi Hj Hsame.
  assert (Ha : In a U) by (apply HU; now apply nth_error_In with i).
  assert (Hb : In b U) by (apply HU; now apply nth_error_In with j).
  destruct (Nat.lt_total i j) as [L|[E|L]]; [|exact E|]; exfalso.
  - pose proof (Hlt i j a b L Hi Hj) as H.
    rewrite (@U_same_not_less U Hfin Hap a b Ha Hb Hsame) in H. discriminate.
  - pose proof (Hlt j i b a L Hj Hi) as H. apply same_point_sym in Hsame.
    rewrite (@U_same_not_less U Hfin Hap b a Hb Ha Hsame) in H. discriminate.
Qed.

Lemma from_file_covers (input : list Point) (p : Point) :
  In p input ->
  exists q, In q (rbtree.from_file input) /\ equivalent p q = true.
Proof.
  intros H. destruct (point_set_covers _ _ H) as (q & Hq & H1 & H2).
  exists q. split; [exact Hq|]. unfold equivalent. now rewrite H1, H2.
Qed.

(** X20.  For a file of points with finite coordinates whose [x]
    coordinates are apart, the loop from [begin()] to [end()] over the
    baseline set read from it terminates and sees the elements in
    increasing order under [Point::operator<]; they are points of the
    file, every point of the file has the coordinates of one of them,
    and no two of them have the same coordinates. *)
Theorem baseline_file_round_trip (input : list Point) :
  Forall point_finite input -> x_apart input ->
  exists seen,
    rbtree.points_of (rbtree.from_file input)
      (rbtree.begin_ (rbtree.from_file input),
       rbtree.end_ (rbtree.from_file input)) = Some seen
    /\ seen = rbtree.from_file input
    /\ increasing seen
    /\ incl seen input
    /\ (forall p, In p input -> exists q, In q seen /\ same_point q p)
    /\ (forall i j a b, nth_error seen i = Some a -> nth_error seen j = Some b ->
          same_point a b -> i = j).
Proof.
  intros Hfin Hap. set (s := rbtree.from_file input).
  pose proof (@from_file_ok input Hfin Hap input (incl_refl _)) as Hok.
  fold s in Hok. exists s. split; [|split; [reflexivity|split; [apply Hok|]]].
  - unfold rbtree.points_of, rbtree.begin_. cbn [fst snd].
    now rewrite (collect_set s (length s) 0).
  - split; [apply Hok|]. split.
    + intros p Hp. destruct (from_file_covers _ _ Hp) as (q & Hq & He).
      exists q. split; [exact Hq|].
      unfold equivalent in He. apply andb_true_iff in He.
      destruct He as [H1 H2]. apply negb_true_iff in H1, H2.
      apply (@U_equivalent input Hfin Hap q p); trivial.
      now apply Hok.
    + now apply (@increasing_distinct input s Hfin Hap Hok).
Qed.

Lemma baseline_file_round_trip_witness :
  Forall point_finite five /\ x_apart five
  /\ exists seen,
      rbtree.points_of (rbtree.from_file five)
        (rbtree.begin_ (rbtree.from_file five),
         rbtree.end_ (rbtree.from_file five)) = Some seen
      /\ seen = rbtree.from_file five
      /\ increasing seen
      /\ incl seen five
      /\ (forall p, In p five -> exists q, In q seen /\ same_point q p)
      /\ (forall i j a b,
            nth_error seen i = Some a -> nth_error seen j = Some b ->
            same_point a b -> i = j).
Proof.
  split; [exact five_finite|]. split; [exact five_x_apart|].
  exact (@baseline_file_round_trip five five_finite five_x_apart).
Defined.

End BaselineCursors.
(** ** The baseline set: the k nearest elements *)

Section KeepClosest.

Import FloatOrder Inv.

Variable A : Type.
Variable key : A -> float.
Variable farther : A -> A -> bool.
Variable offer : list A -> A -> list A.

Hypothesis farther_key : forall a b, farther a b = (key b <? key a)%float.
Hypothesis offer_eq :
  forall heap cur,
    offer heap cur
    = match heap with
      | [] => heap
      | front :: rest =>
          if (key cur <? key front)%float
          then kdtree.sort_insert farther cur rest else heap
      end.

Lemma far_asym (a b : A) : farther a b = true -> farther b a = false.
Proof. rewrite !farther_key. apply ltb_asym. Qed.

Lemma far_negtrans (a b c : A) :
  not_nan (key a) -> not_nan (key b) -> not_nan (key c) ->
  farther b a = false -> farther c b = false -> farther c a = false.
Proof.
  rewrite !farther_key. intros Ha Hb Hc H1 H2.
  now apply not_ltb_trans with (key b).
Qed.

Lemma keep_not_nil (heap : list A) (d : A) : heap <> [] -> offer heap d <> [].
Proof.
  destruct heap as [|front heap]; [congruence|]. intros _. rewrite offer_eq.
  destruct (key d <? key front)%float; [|discriminate].
  intros E. apply (f_equal (@length _)) in E.
  rewrite (Permutation_length (sort_insert_perm _ _ _)) in E. discriminate.
Qed.

Lemma keep_step (heap : list A) (d : A) :
  Forall (fun a => not_nan (key a)) heap -> not_nan (key d) -> heap <> [] ->
  sorted_by farther heap ->
  exists out,
    Permutation (out :: offer heap d) (d :: heap)
    /\ Forall (fun a => not_nan (key a)) (offer heap d)
    /\ sorted_by farther (offer heap d)
    /\ (forall r, In r (offer heap d) -> (key out <? key r)%float = false)
    /\ (forall x, (forall r, In r heap -> (key x <? key r)%float = false) ->
                  forall r, In r (offer heap d) ->
                            (key x <? key r)%float = false).
Proof.
  intros Hok Hd Hne Hs. destruct heap as [|front heap]; [congruence|].
  inversion Hok as [|? ? Hfront Hheap]; subst.
  inversion Hs as [|? ? Hs' Hall]; subst.
  rewrite offer_eq. destruct (key d <? key front)%float eqn:E.
  - exists front.
    pose proof (sort_insert_perm farther d heap) as Hperm.
    split; [|split; [|split; [|split]]].
    + rewrite Hperm. apply perm_swap.
    + apply (Permutation_Forall (Permutation_sym Hperm)). now constructor.
    + apply sort_insert_sorted with (ok := fun a => not_nan (key a)); trivial.
      * exact far_asym.
      * exact far_negtrans.
    + intros r Hr. apply (Permutation_in _ Hperm) in Hr.
      destruct Hr as [<-|Hr]; [now apply ltb_asym|].
      rewrite Forall_forall in Hall. pose proof (Hall _ Hr) as H.
      now rewrite farther_key in H.
    + intros x Hx r Hr. apply (Permutation_in _ Hperm) in Hr.
      destruct Hr as [<-|Hr]; [|apply Hx; now right].
      pose proof (Hx front (or_introl eq_refl)) as Hxf.
      destruct (key x <? key d)%float eqn:Exd; [|reflexivity].
      now rewrite (ltb_trans Exd E) in Hxf.
  - exists d. split; [reflexivity|]. split; [exact Hok|]. split; [exact Hs|].
    split; [|auto].
    intros r [<-|Hr]; [exact E|].
    rewrite Forall_forall in Hall, Hheap.
    pose proof (Hall _ Hr) as Hfr. rewrite farther_key in Hfr.
    apply not_ltb_trans with (key front); trivial.
    now apply Hheap.
Qed.

Lemma keep_all (todo : list A) :
  forall heap,
    Forall (fun a => not_nan (key a)) heap ->
    Forall (fun a => not_nan (key a)) todo -> heap <> [] ->
    sorted_by farther heap ->
    exists out,
      Permutation (fold_left offer todo heap ++ out) (heap ++ todo)
      /\ (forall x r, In x out -> In r (fold_left offer todo heap) ->
            (key x <? key r)%float = false)
      /\ (forall x, (forall r, In r heap -> (key x <? key r)%float = false) ->
            forall r, In r (fold_left offer todo heap) ->
                      (key x <? key r)%float = false).
Proof.
  induction todo as [|d todo IH]; intros heap Hok Htodo Hne Hs.
  - exists []. cbn [fold_left]. split; [reflexivity|].
    split; [intros x r []|auto].
  - inversion Htodo as [|? ? Hd Htodo']; subst.
    destruct (keep_step Hok Hd Hne Hs) as (o & Hperm & Hok' & Hs' & Ho & Hkeep).
    destruct (IH (offer heap d) Hok' Htodo' (@keep_not_nil heap d Hne) Hs')
      as (out & Hp & Hout & Hkeep').
    exists (o :: out). cbn [fold_left]. split; [|split].
    + rewrite <- Permutation_middle, Hp.
      rewrite <- Permutation_middle.
      rewrite app_comm_cons, Hperm. cbn [app].
      reflexivity.
    + intros x r [<-|Hx] Hr; [|now apply Hout].
      now apply Hkeep' with (x := o).
    + intros x Hx r Hr. apply Hkeep' with (x := x); trivial.
      now apply Hkeep.
Qed.

Lemma keep_length (todo heap : list A) :
  length (fold_left offer todo heap) = length heap.
Proof.
  revert heap. induction todo as [|d todo IH]; intros heap; [reflexivity|].
  cbn [fold_left]. rewrite IH, offer_eq.
  destruct heap as [|front heap]; [reflexivity|].
  destruct (key d <? key front)%float; [|reflexivity].
  now rewrite (Permutation_length (sort_insert_perm _ _ _)).
Qed.

End KeepClosest.

Section BaselineKNearest.

Import FloatOrder Inv Baseline Inputs.

(** X21.  On a baseline set, for a query point whose distance to every
    element is a number, and [0 < k < size()]: the loop over the pair of
    cursors [nearest(p, k)] returns terminates and sees [k] of the
    elements, each position at most once, and no element it leaves out
    is closer to [p] than one it sees. *)
Theorem baseline_nearest_k_returns_k_closest (s : rbtree.PointSet)
  (pt : Point) (k : nat) :
  Forall (near_ok pt) s -> 0 < k -> k < rbtree.size s ->
  exists found others,
    rbtree.points_of s (rbtree.nearest_k s pt k) = Some found
    /\ length found = k
    /\ Permutation (found ++ others) s
    /\ (forall x r, In x others -> In r found ->
          (PointOps.distance pt x <? PointOps.distance pt r)%float = false).
Proof.
  intros Hdist Hk0 Hk. unfold rbtree.size in Hk.
  set (key := fun e : nat * Point => PointOps.distance pt (snd e)).
  set (es := rbtree.elements 0 s).
  set (taken := firstn k es). set (todo := skipn k es).
  assert (Hvec : taken ++ todo = es) by apply firstn_skipn.
  assert (Hlen : length taken = k).
  { unfold taken. rewrite length_firstn. unfold es.
    rewrite elements_length. lia. }
  assert (Hall : Forall (fun e => not_nan (key e)) es).
  { unfold es. rewrite <- (elements_snd s 0) in Hdist.
    now rewrite Forall_map in Hdist. }
  rewrite <- Hvec in Hall. apply Forall_app in Hall.
  destruct Hall as [Hok_taken Hok_todo].
  pose proof (sort_perm (rbtree.farther pt) taken) as Hsort.
  assert (Hfar : forall a b, rbtree.farther pt a b = (key b <? key a)%float)
    by reflexivity.
  assert (Hoff : forall heap cur,
             rbtree.offer pt heap cur
             = match heap with
               | [] => heap
               | front :: rest =>
                   if (key cur <? key front)%float
                   then kdtree.sort_insert (rbtree.farther pt) cur rest
                   else heap
               end)
    by (intros [|front rest] cur; reflexivity).
  assert (Hne : rbtree.make_heap pt taken <> []).
  { intros E. pose proof (Permutation_length Hsort) as Hl.
    unfold rbtree.make_heap in E. rewrite E in Hl. cbn in Hl. lia. }
  assert (Hok_heap : Forall (fun e => not_nan (key e))
                            (rbtree.make_heap pt taken))
    by exact (Permutation_Forall (Permutation_sym Hsort) Hok_taken).
  assert (Hsorted : sorted_by (rbtree.farther pt) (rbtree.make_heap pt taken)).
  { apply (@sort_sorted _ (rbtree.farther pt) (fun e => not_nan (key e))
             (@far_asym _ key _ Hfar) (@far_negtrans _ key _ Hfar)).
    exact Hok_taken. }
  destruct (@keep_all _ key (rbtree.farther pt) (rbtree.offer pt) Hfar Hoff
              todo (rbtree.make_heap pt taken) Hok_heap Hok_todo Hne Hsorted)
    as (out & Hperm & Hout & _).
  set (heap' := fold_left (rbtree.offer pt) todo (rbtree.make_heap pt taken))
    in *.
  assert (Hperm' : Permutation (heap' ++ out) es).
  { apply (Permutation_trans Hperm). rewrite <- Hvec.
    apply Permutation_app_tail. exact Hsort. }
  assert (Hlen' : length heap' = k).
  { unfold heap'.
    rewrite (@keep_length _ key (rbtree.farther pt) (rbtree.offer pt) Hoff).
    transitivity (length taken);
      [exact (Permutation_length Hsort) | exact Hlen]. }
  exists (map snd (rev heap')), (map snd out).
  split; [|split; [|split]].
  - unfold rbtree.nearest_k.
    destruct (Nat.eqb_spec k 0) as [E|_]; [lia|].
    destruct (Nat.leb_spec (length s) k) as [E|_]; [lia|].
    unfold rbtree.points_of. cbn [fst snd]. fold es. fold taken. fold todo.
    fold heap'. apply collect_vec.
    + intros e He. apply elements_at. fold es.
      apply (Permutation_in _ Hperm'). apply in_or_app. now left.
    + assert (Hf : length heap' < S (length s)) by (rewrite Hlen'; lia).
      exact Hf.
  - rewrite length_map, length_rev. exact Hlen'.
  - rewrite <- map_app, <- (elements_snd s 0). fold es.
    apply Permutation_map. rewrite <- Hperm'. apply Permutation_app_tail.
    apply Permutation_sym, Permutation_rev.
  - intros x r Hx Hr.
    apply in_map_iff in Hx. destruct Hx as (dx & <- & Hx).
    apply in_map_iff in Hr. destruct Hr as (dr & <- & Hr).
    apply in_rev in Hr. exact (Hout _ _ Hx Hr).
Qed.

Lemma five_baseline :
  rbtree.from_file five = [pt 0 0; pt 0 2; pt 1 1; pt 2 0; pt 2 2].
Proof. vm_compute. reflexivity. Qed.

Lemma five_baseline_distances :
  Forall (near_ok (pt 1 1)) (rbtree.from_file five).
Proof.
  rewrite five_baseline.
  repeat constructor; intros H; vm_compute in H; discriminate H.
Qed.

Lemma baseline_nearest_k_returns_k_closest_witness :
  Forall (near_ok (pt 1 1)) (rbtree.from_file five)
  /\ 0 < 3 /\ 3 < rbtree.size (rbtree.from_file five)
  /\ exists found others,
      rbtree.points_of (rbtree.from_file five)
        (rbtree.nearest_k (rbtree.from_file five) (pt 1 1) 3) = Some found
      /\ length found = 3
      /\ Permutation (found ++ others) (rbtree.from_file five)
      /\ (forall x r, In x others -> In r found ->
            (PointOps.distance (pt 1 1) x
             <? PointOps.distance (pt 1 1) r)%float = false).
Proof.
  assert (H0 : 0 < 3) by lia.
  assert (H1 : 3 < rbtree.size (rbtree.from_file five))
    by (vm_compute; lia).
  split; [exact five_baseline_distances|].
  split; [exact H0|]. split; [exact H1|].
  exact (@baseline_nearest_k_returns_k_closest (rbtree.from_file five)
           (pt 1 1) 3 five_baseline_distances H0 H1).
Defined.

(** X22.  On every baseline set the loop from [begin()] to [end()]
    terminates and sees the elements in the order of the set;
    [nearest(p, 0)] returns an empty sequence, and [nearest(p, k)] with
    [k > 0] and [size() <= k] the full traversal. *)
Theorem baseline_traversal_and_short_cuts (s : rbtree.PointSet) (pt : Point)
  (k : nat) :
  rbtree.points_of s (rbtree.begin_ s, rbtree.end_ s) = Some s
  /\ rbtree.points_of s (rbtree.nearest_k s pt 0) = Some []
  /\ (0 < k -> rbtree.size s <= k ->
      rbtree.points_of s (rbtree.nearest_k s pt k) = Some s).
Proof.
  assert (Htr : rbtree.points_of s (rbtree.begin_ s, rbtree.end_ s) = Some s).
  { unfold rbtree.points_of, rbtree.begin_. cbn [fst snd].
    now rewrite (collect_set s (length s) 0). }
  split; [exact Htr|]. split; [reflexivity|].
  intros Hk0 Hk. unfold rbtree.nearest_k, rbtree.size in *.
  destruct (Nat.eqb_spec k 0) as [E|_]; [lia|].
  destruct (Nat.leb_spec (length s) k) as [_|E]; [exact Htr | lia].
Qed.

End BaselineKNearest.
(** ** The tree against the baseline *)

Section BaselineRun.

Import FloatOrder Inv Baseline.

Variable U : list Point.
Hypothesis U_finite : Forall point_finite U.
Hypothesis U_apart : x_apart U.

Lemma set_run_step (s : rbtree.PointSet) (seen : list Point) (p : Point) :
  set_run_ok U s seen -> In p U ->
  set_run_ok U (rbtree.put s p) (p :: seen)
  /\ rbtree.contains s p = existsb (same_pointb p) seen
  /\ Permutation (rbtree.put s p)
       (if existsb (same_pointb p) seen then s else p :: s).
Proof.
  intros (Hok & HsU & Hss & Hrep) Hp.
  pose proof (@find_spec U U_finite U_apart p s Hp Hok 0) as Hfind.
  pose proof (@emplace_find U U_finite U_apart p s Hp (proj2 Hok) 0) as Hput.
  assert (Hc : rbtree.contains s p = existsb (same_pointb p) seen).
  { destruct (existsb (same_pointb p) seen) eqn:Ex.
    - apply existsb_exists in Ex. destruct Ex as (x & Hx & Hsame).
      apply same_pointb_iff in Hsame.
      destruct (Hrep x Hx) as (q & Hq & Hqx).
      apply contains_find, Hfind. exists q. split; [exact Hq|].
      eapply same_point_trans; [exact Hqx | now apply same_point_sym].
    - destruct (rbtree.contains s p) eqn:C; [|reflexivity]. exfalso.
      apply contains_find, Hfind in C. destruct C as (q & Hq & Hqp).
      assert (Hex : existsb (same_pointb p) seen = true).
      { apply existsb_exists. exists q. split; [now apply Hss|].
        apply same_pointb_iff. now apply same_point_sym. }
      congruence. }
  assert (Hperm : Permutation (rbtree.put s p)
                    (if existsb (same_pointb p) seen then s else p :: s)).
  { rewrite <- Hc. unfold rbtree.contains, rbtree.put.
    destruct (rbtree.find 0 s p); [now rewrite Hput | exact Hput]. }
  split; [|split; [exact Hc | exact Hperm]].
  split; [now apply (@emplace_ok U U_finite U_apart)|].
  split; [intros x [<-|Hx]; [exact Hp | now apply HsU]|].
  split.
  - intros x Hx. apply (Permutation_in x Hperm) in Hx.
    destruct (existsb (same_pointb p) seen); [right; now apply Hss|].
    destruct Hx as [<-|Hx]; [now left | right; now apply Hss].
  - intros x [<-|Hx].
    + destruct (existsb (same_pointb p) seen) eqn:Ex.
      * apply existsb_exists in Ex. destruct Ex as (y & Hy & Hsame).
        apply same_pointb_iff in Hsame.
        destruct (Hrep y Hy) as (q & Hq & Hqy). exists q.
        split; [apply (Permutation_in q (Permutation_sym Hperm) Hq)|].
        eapply same_point_trans; [exact Hqy | now apply same_point_sym].
      * exists p. split.
        -- apply (Permutation_in p (Permutation_sym Hperm)). now left.
        -- apply same_point_refl, point_finite_ok.
           pose proof U_finite as Hfin. rewrite Forall_forall in Hfin.
           now apply Hfin.
    + destruct (Hrep x Hx) as (q & Hq & Hqx). exists q. split; [|exact Hqx].
      apply (Permutation_in q (Permutation_sym Hperm)).
      destruct (existsb (same_pointb p) seen); [exact Hq | now right].
Qed.

Lemma set_run_all (pts : list Point) :
  forall s seen,
    set_run_ok U s seen -> incl pts U ->
    set_run_ok U (rbtree.put_all s pts) (rev pts ++ seen)
    /\ Permutation (rbtree.put_all s pts) (first_occurrences seen pts ++ s).
Proof.
  induction pts as [|p rest IH]; intros s seen Hrun HU.
  - split; [exact Hrun | apply Permutation_refl].
  - assert (HpU : In p U) by (apply HU; now left).
    destruct (@set_run_step s seen p Hrun HpU) as (Hrun1 & _ & Hperm).
    destruct (IH (rbtree.put s p) (p :: seen) Hrun1) as (Hrun' & Hperm').
    { intros q Hq. apply HU. now right. }
    unfold rbtree.put_all in *. cbn [fold_left]. split.
    + cbn [rev]. now rewrite <- app_assoc.
    + apply (Permutation_trans Hperm'). cbn [first_occurrences].
      destruct (existsb (same_pointb p) seen).
      * now apply Permutation_app_head.
      * apply Permutation_trans
          with (first_occurrences (p :: seen) rest ++ p :: s);
          [now apply Permutation_app_head|].
        apply Permutation_sym, Permutation_middle.
Qed.

End BaselineRun.

Section Agreement.

Import kdtree FloatOrder Inv Baseline Inputs.

Lemma set_run_ok_empty (U : list Point) : set_run_ok U [] [].
Proof.
  split; [split; [constructor | intros x []]|].
  split; [intros x []|]. split; intros x [].
Qed.

(** X23.  For a run of puts, on initially empty sets, of points with
    finite coordinates among which points within epsilon of each other
    (on [x], or on both coordinates) have that coordinate equal: the tree
    and the baseline end with the same points, the same [size()], and
    [contains] holding in both of every point put. *)
Theorem implementations_agree_on_puts (pts : list Point) :
  Forall point_finite pts -> eps_means_same pts -> x_apart pts ->
  exists ps,
    put_all Null pts = Some ps
    /\ Permutation (points ps) (rbtree.put_all [] pts)
    /\ size_of ps = rbtree.size (rbtree.put_all [] pts)
    /\ (forall p, In p pts ->
          contains ps p = true
          /\ rbtree.contains (rbtree.put_all [] pts) p = true).
Proof.
  intros Hfin Heps Hap.
  destruct (@run_all pts Hfin Heps pts Null [] (run_ok_empty pts)
                     (incl_refl pts))
    as (ps & Hall & Hrun & Hperm).
  destruct (@set_run_all pts Hfin Hap pts [] [] (set_run_ok_empty pts)
              (incl_refl pts)) as (Hrun' & Hperm').
  rewrite app_nil_r in Hperm, Hrun, Hperm', Hrun'.
  assert (Hpp : Permutation (points ps) (rbtree.put_all [] pts))
    by (rewrite Hperm; now apply Permutation_sym).
  exists ps. split; [exact Hall|]. split; [exact Hpp|]. split.
  - assert (Hs : sizes_ok ps) by apply Hrun.
    rewrite (@size_of_points ps Hs). unfold rbtree.size.
    now apply Permutation_length.
  - intros p Hp.
    assert (Hex : existsb (same_pointb p) (rev pts) = true).
    { apply existsb_exists. exists p. split; [now apply in_rev in Hp|].
      apply same_pointb_iff, same_point_refl, point_finite_ok.
      rewrite Forall_forall in Hfin. now apply Hfin. }
    split.
    + destruct (@run_step pts Hfin Heps ps (rev pts) p Hrun Hp)
        as (_ & _ & _ & Hc & _).
      now rewrite Hc.
    + destruct (@set_run_step pts Hfin Hap (rbtree.put_all [] pts)
                  (rev pts) p Hrun' Hp) as (_ & Hc & _).
      now rewrite Hc.
Qed.

Lemma repeated_finite : Forall point_finite repeated.
Proof. repeat constructor; vm_compute; exact I. Qed.

Lemma repeated_eps : eps_means_same repeated.
Proof.
  intros p q Hp Hq H. unfold repeated in Hp, Hq. cbn [In] in Hp, Hq.
  repeat (destruct Hp as [<-|Hp]); try contradiction;
    repeat (destruct Hq as [<-|Hq]); try contradiction;
    first [ vm_compute in H; discriminate H
          | split; vm_compute; reflexivity ].
Qed.

Lemma repeated_apart : x_apart repeated.
Proof.
  intros p q Hp Hq H. unfold repeated in Hp, Hq. cbn [In] in Hp, Hq.
  repeat (destruct Hp as [<-|Hp]); try contradiction;
    repeat (destruct Hq as [<-|Hq]); try contradiction;
    first [ vm_compute in H; discriminate H | vm_compute; reflexivity ].
Qed.

Lemma implementations_agree_on_puts_witness :
  Forall point_finite repeated /\ eps_means_same repeated /\ x_apart repeated
  /\ exists ps,
      put_all Null repeated = Some ps
      /\ Permutation (points ps) (rbtree.put_all [] repeated)
      /\ size_of ps = rbtree.size (rbtree.put_all [] repeated)
      /\ (forall p, In p repeated ->
            contains ps p = true
            /\ rbtree.contains (rbtree.put_all [] repeated) p = true).
Proof.
  split; [exact repeated_finite|]. split; [exact repeated_eps|].
  split; [exact repeated_apart|].
  exact (@implementations_agree_on_puts repeated repeated_finite repeated_eps
           repeated_apart).
Defined.

(** *** The same file *)

Lemma from_file_some (input : list Point) :
  input <> [] ->
  exists ps,
    from_file input = Some ps
    /\ Permutation (points ps) (rbtree.from_file input).
Proof.
  intros Hne. pose proof (point_set_not_nil Hne) as Hset.
  assert (Hnodes : make_nodes 0 (point_set input) <> []).
  { intros E. apply (f_equal (map point)) in E.
    now rewrite make_nodes_point in E. }
  destruct (@build_tree_root _ true Hnodes) as (d0 & l & r & _ & Hb).
  eexists. split; [unfold from_file; rewrite Hb; reflexivity|].
  rewrite points_idents, idents_node, !idents_adopt, <- idents_node, <- Hb.
  pose proof (build_tree_idents (make_nodes 0 (point_set input)) true) as H.
  apply (Permutation_map snd) in H. rewrite H, map_map.
  change (fun x => snd (ident x)) with point.
  now rewrite make_nodes_point.
Qed.

(** *** The same queries *)

Lemma range_found (ps : tree) (query : Rect) :
  built ps -> Forall point_ok (points ps) -> rect_defined query ->
  exists found,
    points_of ps (range ps query) = Some found
    /\ (forall p, In p found ->
          In p (points ps) /\ RectOps.contains query p = true)
    /\ (forall p, In p (points ps) -> RectOps.contains query p = true ->
          inside query p = true -> In p found).
Proof.
  intros Hb Hok Hq.
  destruct (reachable_wf (built_reachable Hb)) as [Hnd _].
  pose proof (built_rects Hb Hok) as Hr.
  exists (map point (rev (range_rec ps query []))).
  split; [|split].
  - unfold points_of, range. cbn [fst snd]. apply collect_list; trivial.
    + intros d Hd.
      destruct (@range_rec_sound ps query [] d Hd) as [[]|[H _]]; exact H.
    + pose proof (range_rec_length ps query []) as Hl. cbn [length] in Hl. lia.
  - intros p Hp. apply in_map_iff in Hp. destruct Hp as (d & <- & Hd).
    apply in_rev in Hd.
    destruct (@range_rec_sound ps query [] d Hd) as [[]|[H Hc]].
    split; [now apply in_map | exact Hc].
  - intros p Hp Hc Hi. apply in_map_iff in Hp. destruct Hp as (d & <- & Hd).
    apply in_map. rewrite <- in_rev.
    now apply range_rec_complete.
Qed.

Lemma baseline_range_found (s : rbtree.PointSet) (rect : Rect) :
  exists found,
    rbtree.points_of s (rbtree.range s rect) = Some found
    /\ (forall p, In p found <-> In p s /\ RectOps.contains rect p = true).
Proof.
  set (es := filter (fun e => RectOps.contains rect (snd e))
                    (rbtree.elements 0 s)).
  exists (map snd (rev es)).
  assert (Hmap : map snd es = filter (RectOps.contains rect) s)
    by apply filter_elements.
  split.
  - unfold rbtree.points_of, rbtree.range. cbn [fst snd].
    rewrite range_from_elements. apply collect_vec.
    + intros e He. apply elements_at. unfold es in He.
      now apply filter_In in He.
    + pose proof (filter_length_le (fun e => RectOps.contains rect (snd e))
                    (rbtree.elements 0 s)) as Hl.
      rewrite elements_length in Hl. apply Nat.lt_succ_r. exact Hl.
  - intros p. rewrite map_rev, <- in_rev, Hmap. apply filter_In.
Qed.

(** X25.  For a tree built by the default or the file constructor and
    puts, none of whose coordinates is NaN, and a baseline set holding
    the same points: every point the tree's range query reports is
    reported by the baseline's, and every point the baseline reports
    that lies within the rectangle under exact comparisons is reported
    by the tree. *)
Theorem tree_range_within_baseline_range (ps : tree) (s : rbtree.PointSet)
  (query : Rect) :
  built ps -> Forall point_ok (points ps) -> rect_defined query ->
  Permutation (points ps) s ->
  exists found found',
    points_of ps (range ps query) = Some found
    /\ rbtree.points_of s (rbtree.range s query) = Some found'
    /\ incl found found'
    /\ (forall p, In p found' -> inside query p = true -> In p found).
Proof.
  intros Hb Hok Hq Hperm.
  destruct (range_found Hb Hok Hq) as (found & Hf & Hsound & Hcompl).
  destruct (baseline_range_found s query) as (found' & Hf' & Hiff).
  exists found, found'. split; [exact Hf|]. split; [exact Hf'|]. split.
  - intros p Hp. destruct (Hsound p Hp) as [Hin Hc].
    apply Hiff. split; [now apply (Permutation_in _ Hperm) | exact Hc].
  - intros p Hp Hi. apply Hiff in Hp. destruct Hp as [Hin Hc].
    apply Hcompl; trivial.
    now apply (Permutation_in _ (Permutation_sym Hperm)).
Qed.

Lemma tree_range_within_baseline_range_witness :
  built five_set /\ Forall point_ok (points five_set)
  /\ rect_defined unit_square
  /\ Permutation (points five_set) (rbtree.from_file five)
  /\ exists found found',
      points_of five_set (range five_set unit_square) = Some found
      /\ rbtree.points_of (rbtree.from_file five)
           (rbtree.range (rbtree.from_file five) unit_square) = Some found'
      /\ incl found found'
      /\ (forall p, In p found' -> inside unit_square p = true ->
            In p found).
Proof.
  assert (H : Permutation (points five_set) (rbtree.from_file five))
    by (rewrite five_set_points, five_baseline; reflexivity).
  split; [exact five_set_built|]. split; [exact five_set_points_ok|].
  split; [exact unit_square_defined|]. split; [exact H|].
  exact (@tree_range_within_baseline_range five_set (rbtree.from_file five)
           unit_square five_set_built five_set_points_ok unit_square_defined
           H).
Defined.

Lemma nearest_closest (ps : tree) (pt : Point) :
  admissible pt ps ->
  Forall (fun q => not_nan (PointOps.distance pt q)) (points ps) ->
  match nearest ps pt with
  | Some q =>
      In q (points ps)
      /\ Forall (fun x => (PointOps.distance pt x
                           <? PointOps.distance pt q)%float = false)
                (points ps)
  | None =>
      Forall (fun x => (PointOps.distance pt x <? Double.max_value)%float
                       = false)
             (points ps)
  end.
Proof.
  intros Hadm Hok.
  destruct (@nearest_rec_bound pt ps (Double.max_value, None) Hadm Hok
              max_value_not_nan) as (_ & _ & Hall).
  pose proof (@nearest_rec_state pt (fun d => In d (to_vector ps)) ps
                (Double.max_value, None) (fun d Hd => Hd) eq_refl) as Hst.
  unfold nearest.
  destruct (snd (nearest_rec ps pt (Double.max_value, None))) as [d|].
  - destruct Hst as (_ & Hd & Hin). rewrite Hd in Hall.
    split; [now apply in_map | exact Hall].
  - now rewrite Hst in Hall.
Qed.

(** X26.  For a tree whose rectangles bound the distances to the query
    point from below, every distance being a number, and a baseline set
    holding the same points: when both return a point, the two points
    are at the same distance from the query point; the tree returns none
    while the baseline returns a point only if that point is not closer
    than [numeric_limits<double>::max()]; the tree never returns a point
    when the baseline returns none. *)
Theorem tree_nearest_agrees_with_baseline (ps : tree) (s : rbtree.PointSet)
  (pt : Point) :
  admissible pt ps ->
  Forall (fun q => not_nan (PointOps.distance pt q)) (points ps) ->
  Permutation (points ps) s ->
  match nearest ps pt, rbtree.nearest s pt with
  | Some q, Some q' =>
      feq (PointOps.distance pt q) (PointOps.distance pt q')
  | None, Some q' =>
      (PointOps.distance pt q' <? Double.max_value)%float = false
  | None, None => True
  | Some _, None => False
  end.
Proof.
  intros Hadm Hok Hperm.
  pose proof (@nearest_closest ps pt Hadm Hok) as Hkd.
  assert (Hok' : Forall (near_ok pt) s)
    by exact (Permutation_Forall Hperm Hok).
  assert (Hsome : forall q', rbtree.nearest s pt = Some q' ->
            In q' s
            /\ Forall (fun x => (PointOps.distance pt x
                                 <? PointOps.distance pt q')%float = false) s).
  { destruct s as [|m s']; cbn [rbtree.nearest]; [discriminate|].
    intros q' H. injection H as <-.
    destruct (min_element_spec pt s' m) as [Hin Hmin].
    split; [exact Hin|].
    inversion Hok' as [|? ? Hm Hs]; subst. now apply Hmin. }
  rewrite Forall_forall in Hok.
  destruct (nearest ps pt) as [q|], (rbtree.nearest s pt) as [q'|] eqn:Erb.
  - destruct Hkd as [Hq Hmin]. destruct (Hsome q' eq_refl) as [Hq' Hmin'].
    rewrite Forall_forall in Hmin, Hmin'.
    apply not_ltb_antisym.
    + now apply Hok.
    + apply Hok. now apply (Permutation_in _ (Permutation_sym Hperm)).
    + apply Hmin'. now apply (Permutation_in _ Hperm).
    + apply Hmin. now apply (Permutation_in _ (Permutation_sym Hperm)).
  - destruct Hkd as [Hq _]. apply (Permutation_in _ Hperm) in Hq.
    destruct s; [contradiction | discriminate Erb].
  - destruct (Hsome q' eq_refl) as [Hq' _].
    rewrite Forall_forall in Hkd. apply Hkd.
    now apply (Permutation_in _ (Permutation_sym Hperm)).
  - exact I.
Qed.

Lemma tree_nearest_agrees_with_baseline_witness :
  admissible nine_tenths five_set
  /\ Forall (fun q => not_nan (PointOps.distance nine_tenths q))
            (points five_set)
  /\ Permutation (points five_set) (rbtree.from_file five)
  /\ match nearest five_set nine_tenths,
           rbtree.nearest (rbtree.from_file five) nine_tenths with
     | Some q, Some q' =>
         feq (PointOps.distance nine_tenths q)
             (PointOps.distance nine_tenths q')
     | None, Some q' =>
         (PointOps.distance nine_tenths q' <? Double.max_value)%float = false
     | None, None => True
     | Some _, None => False
     end.
Proof.
  assert (H : Permutation (points five_set) (rbtree.from_file five))
    by (rewrite five_set_points, five_baseline; reflexivity).
  split; [exact five_set_admissible|].
  split; [exact five_set_near_distances|]. split; [exact H|].
  exact (@tree_nearest_agrees_with_baseline five_set (rbtree.from_file five)
           nine_tenths five_set_admissible five_set_near_distances H).
Defined.

(** *** Putting a point and finding it *)

(** X27.  On a tree built by the default or the file constructor and
    puts, with finite coordinates, and for a point with finite
    coordinates that no stored point is within epsilon of without having
    its coordinates: after [put(p)], [contains(p)] holds, [contains]
    holds of every point stored before, and a second [put(p)] changes
    neither [size()] nor the stored points. *)
Theorem put_then_contains (ps ps' : tree) (p : Point) :
  built ps -> Forall point_finite (points ps) -> point_finite p ->
  (forall q, In q (points ps) -> PointOps.eqb q p = true -> same_point q p) ->
  put ps p = Some ps' ->
  contains ps' p = true
  /\ (forall q, In q (points ps) -> contains ps' q = true)
  /\ exists ps'',
      put ps' p = Some ps''
      /\ size_of ps'' = size_of ps'
      /\ Permutation (points ps'') (points ps').
Proof.
  intros Hb Hfin Hp Hsame Hput.
  assert (Hb' : built ps') by now apply built_put with ps p.
  pose proof (put_points _ _ Hput) as Hperm.
  assert (Hfin' : Forall point_finite (points ps')).
  { apply (Permutation_Forall (Permutation_sym Hperm)).
    destruct (contains ps p); [exact Hfin | now constructor]. }
  assert (Hok' : Forall point_ok (points ps')).
  { rewrite Forall_forall in Hfin' |- *. intros x Hx.
    now apply point_finite_ok, Hfin'. }
  pose proof (built_kd Hb' Hok') as Hkd.
  assert (Hold : forall q, In q (points ps) -> In q (points ps')).
  { intros q Hq. apply (Permutation_in _ (Permutation_sym Hperm)).
    destruct (contains ps p); [exact Hq | now right]. }
  assert (Hc : contains ps' p = true).
  { destruct (contains ps p) eqn:C.
    - apply contains_from_sound in C. destruct C as (q & Hq & Hqp).
      apply contains_from_complete with q; auto.
    - apply contains_from_complete with p; trivial.
      + apply (Permutation_in _ (Permutation_sym Hperm)). now left.
      + now apply same_point_refl, point_finite_ok.
      + apply eqb_same_point; trivial.
        now apply same_point_refl, point_finite_ok. }
  split; [exact Hc|]. split.
  - intros q Hq. rewrite Forall_forall in Hfin.
    apply contains_from_complete with q; auto.
    + apply same_point_refl, point_finite_ok. auto.
    + apply eqb_same_point; auto.
      apply same_point_refl, point_finite_ok. auto.
  - destruct (@put_size ps' p (built_sizes Hb'))
      as (ps'' & Hput' & _ & Hperm' & Hsize).
    rewrite Hc in Hperm', Hsize.
    exists ps''. split; [exact Hput'|]. split; [lia | exact Hperm'].
Qed.

Lemma six_set_put : put five_set (pt 1 2) = Some six_set.
Proof. vm_compute. reflexivity. Qed.

Lemma five_set_no_twin (q : Point) :
  In q (points five_set) -> PointOps.eqb q (pt 1 2) = true ->
  same_point q (pt 1 2).
Proof.
  rewrite five_set_points. cbn [In]. intros Hq H.
  repeat (destruct Hq as [<-|Hq]); try contradiction;
    vm_compute in H; discriminate H.
Qed.

Lemma put_then_contains_witness :
  built five_set /\ Forall point_finite (points five_set)
  /\ point_finite (pt 1 2)
  /\ (forall q, In q (points five_set) -> PointOps.eqb q (pt 1 2) = true ->
        same_point q (pt 1 2))
  /\ put five_set (pt 1 2) = Some six_set
  /\ contains six_set (pt 1 2) = true
  /\ (forall q, In q (points five_set) -> contains six_set q = true)
  /\ exists ps'',
      put six_set (pt 1 2) = Some ps''
      /\ size_of ps'' = size_of six_set
      /\ Permutation (points ps'') (points six_set).
Proof.
  assert (Hp : point_finite (pt 1 2)) by (split; vm_compute; exact I).
  split; [exact five_set_built|]. split; [exact five_set_finite|].
  split; [exact Hp|]. split; [exact five_set_no_twin|].
  split; [exact six_set_put|].
  exact (@put_then_contains five_set six_set (pt 1 2) five_set_built
           five_set_finite Hp five_set_no_twin six_set_put).
Defined.

End Agreement.
(** ** Bulk building, copies, and rectangles *)

Section BulkAndCopies.

Import kdtree FloatOrder Inv Inputs.

(** X28.  [build_tree] on nodes none of whose coordinates is NaN returns
    a tree of exactly those nodes, with the points left of every node
    below its point on the node's axis and the points right of it not
    below, with every [size] and [rect] field right, and, when no two
    points share a coordinate and there are at most 1048576 nodes (the
    sizes for which the comparisons of [balanced] have been evaluated in
    double precision), with every node within the weight-balance bound. *)
Theorem build_tree_contract (nodes : list NodeData) (check_x : bool) :
  Forall node_ok nodes ->
  Permutation (idents (build_tree nodes check_x)) (map ident nodes)
  /\ kd_ok check_x (build_tree nodes check_x)
  /\ sizes_ok (build_tree nodes check_x)
  /\ rects_ok (build_tree nodes check_x)
  /\ (untied (map point nodes) -> length nodes <= Pos.to_nat checked_sizes ->
      balanced_ok (build_tree nodes check_x)).
Proof.
  intros Hok. split; [apply build_tree_idents|].
  split; [now apply build_tree_fuel_kd|].
  split; [apply build_tree_fuel_sizes|].
  split; [now apply build_tree_fuel_rects|].
  intros Hu HN.
  apply (@build_tree_fuel_balanced (Pos.to_nat checked_sizes)
           balance_table_sizes (length nodes) nodes check_x);
    trivial.
  now apply untied_loose.
Qed.

Lemma scattered_nodes_ok : Forall node_ok (make_nodes 0 scattered).
Proof.
  repeat constructor; intros H; vm_compute in H; discriminate H.
Qed.

Lemma scattered_nodes_untied : untied (map point (make_nodes 0 scattered)).
Proof. repeat constructor. Qed.

Lemma build_tree_contract_witness :
  Forall node_ok (make_nodes 0 scattered)
  /\ Permutation (idents (build_tree (make_nodes 0 scattered) true))
       (map ident (make_nodes 0 scattered))
  /\ kd_ok true (build_tree (make_nodes 0 scattered) true)
  /\ sizes_ok (build_tree (make_nodes 0 scattered) true)
  /\ rects_ok (build_tree (make_nodes 0 scattered) true)
  /\ (untied (map point (make_nodes 0 scattered)) ->
      length (make_nodes 0 scattered) <= Pos.to_nat checked_sizes ->
      balanced_ok (build_tree (make_nodes 0 scattered) true)).
Proof.
  split; [exact scattered_nodes_ok|].
  exact (@build_tree_contract (make_nodes 0 scattered) true
           scattered_nodes_ok).
Defined.

(** X29.  The copy of a set that is not empty has [size()] 1, whatever
    the source holds: the copy constructor of [Node] leaves [size] at its
    default.  So on a copy [nearest(p, k)] takes its [k >= size()] short
    cut for every [k > 0] and returns the full traversal. *)
Theorem copy_forgets_size (other : tree) (p : Point) (k : nat) :
  reachable other -> empty other = false -> 0 < k ->
  exists ps pr,
    copy other = Some ps
    /\ size_of ps = 1
    /\ nearest_k ps p k = Some pr
    /\ points_of ps pr = Some (points other).
Proof.
  intros Hreach Hne Hk. pose proof (reachable_wf Hreach) as Hwf.
  destruct other as [|d l r]; [discriminate|].
  set (other := Node d l r) in *.
  assert (Hcopy : copy other
                  = Some (Node (mkNodeData (fresh_addr other + self d)
                                           (point d) (rect d) 1 None)
                               (adopt (fresh_addr other + self d)
                                      (copy_node (fresh_addr other) l))
                               (adopt (fresh_addr other + self d)
                                      (copy_node (fresh_addr other) r))))
    by reflexivity.
  pose proof (copy_wf Hwf Hcopy) as Hwf'.
  set (ps := Node (mkNodeData (fresh_addr other + self d)
                              (point d) (rect d) 1 None)
                  (adopt (fresh_addr other + self d)
                         (copy_node (fresh_addr other) l))
                  (adopt (fresh_addr other + self d)
                         (copy_node (fresh_addr other) r))) in *.
  exists ps, (begin_ ps, end_).
  split; [exact Hcopy|]. split; [reflexivity|]. split.
  - unfold nearest_k. destruct (Nat.eqb_spec k 0) as [E|_]; [lia|].
    change (size_of ps) with 1.
    destruct (Nat.leb_spec 1 k) as [_|E]; [reflexivity | lia].
  - change (traverse ps = Some (points other)).
    rewrite (traverse_points Hwf'). f_equal. unfold ps.
    rewrite points_idents, idents_node, !idents_adopt, <- idents_node,
      <- points_idents.
    change (points (copy_node (fresh_addr other) other) = points other).
    apply points_copy_node.
Qed.

Lemma copy_forgets_size_witness :
  reachable five_set /\ empty five_set = false /\ 0 < 2
  /\ exists ps pr,
      copy five_set = Some ps
      /\ size_of ps = 1
      /\ nearest_k ps origin 2 = Some pr
      /\ points_of ps pr = Some (points five_set).
Proof.
  assert (H : empty five_set = false) by (vm_compute; reflexivity).
  assert (H2 : 0 < 2) by lia.
  split; [exact five_set_reachable|]. split; [exact H|]. split; [exact H2|].
  exact (@copy_forgets_size five_set origin 2 five_set_reachable H H2).
Defined.

(** X30.  [Rect::intersects] does not depend on the order of the two
    rectangles, and holds of two rectangles (without NaN coordinates)
    whenever a point lies within both under exact comparisons. *)
Theorem rect_intersects_is_symmetric (r q : Rect) (p : Point) :
  RectOps.intersects r q = RectOps.intersects q r
  /\ (rect_defined r -> rect_defined q -> point_ok p ->
      inside r p = true -> inside q p = true ->
      RectOps.intersects r q = true).
Proof.
  split.
  - unfold RectOps.intersects, Double.gtb. f_equal.
    destruct (RectOps.ymax r <? RectOps.ymin q)%float,
             (RectOps.ymax q <? RectOps.ymin r)%float,
             (RectOps.xmax r <? RectOps.xmin q)%float,
             (RectOps.xmax q <? RectOps.xmin r)%float; reflexivity.
  - intros [[R1 R2] [R3 R4]] [[Q1 Q2] [Q3 Q4]] [P1 P2] Hr Hq.
    unfold inside in Hr, Hq.
    repeat (apply andb_true_iff in Hr; destruct Hr as [Hr ?]).
    repeat (apply andb_true_iff in Hq; destruct Hq as [Hq ?]).
    unfold RectOps.intersects, Double.gtb.
    unfold RectOps.xmin, RectOps.xmax, RectOps.ymin, RectOps.ymax in *.
    apply negb_true_iff. repeat (apply orb_false_iff; split); float_order.
Qed.

End BulkAndCopies.
(** ** The tree read from a file *)

Section FromFile.

Import kdtree FloatOrder Inv Baseline Inputs.

Lemma set_ok_NoDup (U : list Point) (s : list Point) :
  Forall point_finite U -> x_apart U -> set_ok U s -> NoDup s.
Proof.
  intros Hfin Hap Hok. apply NoDup_nth_error. intros i j Hi E.
  destruct (nth_error s i) as [a|] eqn:Ea;
    [|apply nth_error_None in Ea; lia].
  symmetry in E.
  apply (@increasing_distinct U s Hfin Hap Hok i j a a Ea E).
  apply same_point_refl, point_finite_ok.
  rewrite Forall_forall in Hfin. apply Hfin, (proj2 Hok).
  now apply nth_error_In with i.
Qed.

(** X4.  For a file that lists at least one point, of points with finite
    coordinates whose [x] coordinates are apart, the constructor returns,
    and the full traversal of the set it builds sees the file's points
    without repetition: every point it sees is a point of the file, every
    point of the file has the coordinates of a point it sees, and no two
    points it sees have the same coordinates. *)
Theorem from_file_round_trip (input : list Point) :
  Forall point_finite input -> x_apart input -> input <> [] ->
  exists ps seen,
    from_file input = Some ps
    /\ traverse ps = Some seen
    /\ NoDup seen
    /\ incl seen input
    /\ (forall p, In p input -> exists q, In q seen /\ same_point q p)
    /\ (forall a b, In a seen -> In b seen -> same_point a b -> a = b).
Proof.
  intros Hfin Hap Hne.
  destruct (from_file_some Hne) as (ps & Hfile & Hperm).
  pose proof (@from_file_ok input Hfin Hap input (incl_refl _)) as Hok.
  set (s := rbtree.from_file input) in *.
  exists ps, (points ps). split; [exact Hfile|].
  split; [apply traverse_points; now apply from_file_wf with input|].
  split; [|split; [|split]].
  - apply (Permutation_NoDup (Permutation_sym Hperm)).
    now apply set_ok_NoDup with input.
  - intros q Hq. apply (proj2 Hok). now apply (Permutation_in _ Hperm).
  - intros p Hp. destruct (from_file_covers _ _ Hp) as (q & Hq & He).
    exists q. split; [now apply (Permutation_in _ (Permutation_sym Hperm))|].
    unfold equivalent in He. apply andb_true_iff in He.
    destruct He as [H1 H2]. apply negb_true_iff in H1, H2.
    apply (@U_equivalent input Hfin Hap q p); trivial.
    now apply (proj2 Hok).
  - intros a b Ha Hb Hsame.
    apply (Permutation_in _ Hperm) in Ha, Hb.
    destruct (In_nth_error _ _ Ha) as [i Hi].
    destruct (In_nth_error _ _ Hb) as [j Hj].
    pose proof (@increasing_distinct input s Hfin Hap Hok i j a b Hi Hj Hsame)
      as E.
    subst j. congruence.
Qed.

Lemma from_file_round_trip_witness :
  Forall point_finite five /\ x_apart five /\ five <> []
  /\ exists ps seen,
      from_file five = Some ps
      /\ traverse ps = Some seen
      /\ NoDup seen
      /\ incl seen five
      /\ (forall p, In p five -> exists q, In q seen /\ same_point q p)
      /\ (forall a b, In a seen -> In b seen -> same_point a b -> a = b).
Proof.
  assert (H : five <> []) by discriminate.
  split; [exact five_finite|]. split; [exact five_x_apart|].
  split; [exact H|].
  exact (@from_file_round_trip five five_finite five_x_apart H).
Defined.

End FromFile.
